(** * Parameter-sweep generator (sweep.py): a shallow embedding and its properties

    The development follows [src/sweep.py]: the template parser
    [parse_input_file], the range expander [generate_param_combinations],
    the template rewriter [modify_input], and the two pieces of [main] that
    the specification speaks about, the asub1/asub2 symmetry filter and the
    task materialisation loop that writes the manifest.

    Python values are modelled as the code has them: text as lists of
    characters, integers as [Z], floats as IEEE binary64 numbers
    ([spec_float] with precision 53 and maximal exponent 1024), the
    dictionary [param_map] as a finite map, exceptions as an error result and
    the one unbounded loop of the program with explicit fuel.

    Of [src/process.py] the development follows what reads the folder names
    of the tasks back, [parse_task_info], and what writes the summary files,
    [ensure_summary_setup] and [summarize_plots]. *)

From Stdlib Require Import ZArith Lia List Bool Ascii String.
From Stdlib Require Import Numbers.DecimalString Floats.SpecFloat.
From Stdlib Require Numbers.DecimalPos Numbers.DecimalZ.
From stdpp Require Import base option list gmap strings sorting.

Local Open Scope Z_scope.
Local Open Scope list_scope.

(** ** Python text *)

Module PyStr.

(** A Python [str], as the list of its characters.  Characters are the
    code points below 256. *)
Abbreviation pystr := (list ascii).

(** String literals. *)
Definition lit (s : string) : pystr := list_ascii_of_string s.

Definition bang : ascii := "!"%char.
Definition comma : ascii := ","%char.
Definition lparen : ascii := "("%char.
Definition space : ascii := " "%char.
Definition newline : ascii := "010"%char.
Definition underscore : ascii := "_"%char.

(** [c.isspace()] for the code points below 256: TAB..CR, FS..US, SPACE,
    NEL and NBSP. *)
Definition is_space (c : ascii) : bool :=
  let n := N_of_ascii c in
  (((9 <=? n) && (n <=? 13)) || ((28 <=? n) && (n <=? 32))
   || (n =? 133) || (n =? 160))%N.

(** [c in s] for a one-character [c]. *)
Definition py_in (c : ascii) (s : pystr) : bool :=
  existsb (Ascii.eqb c) s.

(** [s.split(sep)] for a one-character separator: never empty, the pieces
    are the maximal runs without [sep]. *)
Fixpoint split_on (sep : ascii) (s : pystr) : list pystr :=
  match s with
  | [] => [[]]
  | c :: s' =>
      if Ascii.eqb c sep then [] :: split_on sep s'
      else match split_on sep s' with
           | p :: ps => (c :: p) :: ps
           | [] => [[c]]
           end
  end.

(** [s.split()]: the maximal runs of non-whitespace characters. *)
Fixpoint split_ws (s : pystr) : list pystr :=
  match s with
  | [] => []
  | c :: s' =>
      if is_space c then split_ws s'
      else match s' with
           | [] => [[c]]
           | d :: _ =>
               if is_space d then [c] :: split_ws s'
               else match split_ws s' with
                    | p :: ps => (c :: p) :: ps
                    | [] => [[c]]
                    end
           end
  end.

(** [sep.join(l)]. *)
Fixpoint join (sep : pystr) (l : list pystr) : pystr :=
  match l with
  | [] => []
  | [x] => x
  | x :: l' => x ++ sep ++ join sep l'
  end.

Fixpoint lstrip_by (p : ascii -> bool) (s : pystr) : pystr :=
  match s with
  | [] => []
  | c :: s' => if p c then lstrip_by p s' else s
  end.

Definition strip_by (p : ascii -> bool) (s : pystr) : pystr :=
  rev (lstrip_by p (rev (lstrip_by p s))).

(** [s.strip()] and [s.strip(',')]. *)
Definition strip (s : pystr) : pystr := strip_by is_space s.
Definition strip_comma (s : pystr) : pystr := strip_by (Ascii.eqb comma) s.

(** Truth value of a string: non-empty. *)
Definition truthy (s : pystr) : bool :=
  match s with [] => false | _ => true end.

(** [f.readlines()] on text whose line ends are already ["\n"]: every line
    keeps its terminator, the last one may lack it. *)
Fixpoint readlines (s : pystr) : list pystr :=
  match s with
  | [] => []
  | c :: s' =>
      if Ascii.eqb c newline then [c] :: readlines s'
      else match readlines s' with
           | l :: ls => (c :: l) :: ls
           | [] => [[c]]
           end
  end.

(** [f.writelines(lines)] followed by reading the file back as text. *)
Definition writelines (lines : list pystr) : pystr := concat lines.

(** [str(n)] for an integer. *)
Definition str_int (n : Z) : pystr :=
  lit (NilZero.string_of_int (Z.to_int n)).

(** [enumerate(l, start)]. *)
Fixpoint enumerate_from {A : Type} (start : nat) (l : list A) : list (nat * A) :=
  match l with
  | [] => []
  | x :: l' => (start, x) :: enumerate_from (S start) l'
  end.

Definition enumerate {A : Type} (l : list A) : list (nat * A) :=
  enumerate_from 0 l.

(** A whitespace-delimited token that does not hold the marker: what
    [split_ws] returns for text before a ['!'], and what a number prints as. *)
Definition token_char (c : ascii) : bool :=
  negb (is_space c) && negb (Ascii.eqb c bang).

Definition is_token (s : pystr) : bool :=
  truthy s && forallb token_char s.

End PyStr.
Import PyStr.

(** ** The template parser *)

(** [param_map]: parameter name to [(line_index, field_index)].  Both
    indices come from [enumerate] and are natural numbers. *)
Abbreviation param_map := (gmap pystr (nat * nat)).

(** The names listed on a line: [line.split('!')[1].split('(')[0]], split on
    [','], blanks dropped, each name stripped. *)
Definition line_names (line : pystr) : list pystr :=
  let comment := hd [] (split_on lparen (nth 1 (split_on bang line) [])) in
  map (fun n => strip_comma (strip n))
      (filter (fun n => truthy (strip n) = true) (split_on comma comment)).

(** The fields of a line: [line.split('!')[0].split()]. *)
Definition line_values (line : pystr) : list pystr :=
  split_ws (hd [] (split_on bang line)).

(** The test of line 42: ['!' in line and ',' in line.split('!')[1]]. *)
Definition annotated (line : pystr) : bool :=
  py_in bang line && py_in comma (nth 1 (split_on bang line) []).

(** Lines 50-52: the inner loop over [enumerate(names)]. *)
Definition record_names (idx : nat) (values names : list pystr)
    (pm : param_map) : param_map :=
  fold_left
    (fun (pm : param_map) (pn : nat * pystr) =>
       if (fst pn <? length values)%nat
       then <[snd pn := (idx, fst pn)]> pm
       else pm)
    (enumerate names) pm.

(** Lines 40-52: the body of the loop over [enumerate(lines)]. *)
Definition parse_line (pm : param_map) (il : nat * pystr) : param_map :=
  let idx := fst il in
  let line := snd il in
  if annotated line
  then record_names idx (line_values line) (line_names line) pm
  else pm.

(** Lines 38-53 of [parse_input_file], on the lines already read. *)
Definition parse_lines (lines : list pystr) : param_map :=
  fold_left parse_line (enumerate lines) ∅.

(** [parse_input_file], from the text of the file. *)
Definition parse_input_file (content : pystr) : list pystr * param_map :=
  let lines := readlines content in
  (lines, parse_lines lines).

(** ** Exceptions *)

Inductive exn := KeyError | IndexError | ValueError | OverflowError.

(** The outcome of a call that may raise. *)
Inductive result (A : Type) : Type :=
  | Ok (a : A)
  | Raise (e : exn).
Arguments Ok {A} a.
Arguments Raise {A} e.

Definition result_bind {A B : Type} (f : A -> result B) (r : result A) : result B :=
  match r with
  | Ok a => f a
  | Raise e => Raise e
  end.

#[global] Instance result_ret : MRet result := fun _ a => Ok a.
#[global] Instance result_mbind : MBind result := fun _ _ f r => result_bind f r.
#[global] Instance result_fmap : FMap result :=
  fun _ _ f r => match r with Ok a => Ok (f a) | Raise e => Raise e end.

(** ** Python numbers *)

Module PyNum.

(** Python's [float] is IEEE binary64. *)
Definition prec : Z := 53.
Definition emax : Z := 1024.
Abbreviation float := spec_float.

(** The numbers of the program: [int] (unbounded) and [float]. *)
Inductive value : Type :=
  | VInt (n : Z)
  | VFloat (x : float).

Definition is_int (v : value) : bool :=
  match v with VInt _ => true | VFloat _ => false end.

Definition fadd : float -> float -> float := SFadd prec emax.

(** The float nearest to [p/q] (ties to even), with sign [s]: what a decimal
    literal or [float("...")] denotes. *)
Definition float_of_ratio (s : bool) (p q : positive) : float :=
  SFdiv prec emax (S754_finite s p 0) (S754_finite false q 0).

(** [float(n)] for an integer: nearest float, [OverflowError] beyond the
    finite range. *)
Definition float_of_int (n : Z) : result float :=
  match binary_normalize prec emax n 0 false with
  | S754_infinity _ => Raise OverflowError
  | x => Ok x
  end.

(** Comparison of an integer with a float is exact in Python. *)
Definition cmp_int_float (n : Z) (x : float) : option comparison :=
  match x with
  | S754_nan => None
  | S754_infinity s => Some (if s then Gt else Lt)
  | S754_zero _ => Some (n ?= 0)
  | S754_finite s m e =>
      let mz := cond_Zopp s (Zpos m) in
      Some (if 0 <=? e then n ?= mz * 2 ^ e else n * 2 ^ (- e) ?= mz)
  end.

Definition py_compare (a b : value) : option comparison :=
  match a, b with
  | VInt m, VInt n => Some (m ?= n)
  | VFloat x, VFloat y => SFcompare x y
  | VInt m, VFloat y => cmp_int_float m y
  | VFloat x, VInt n => option_map CompOpp (cmp_int_float n x)
  end.

(** [a <= b]. *)
Definition py_le (a b : value) : bool :=
  match py_compare a b with
  | Some (Lt | Eq) => true
  | _ => false
  end.

(** [a == b]. *)
Definition py_eq (a b : value) : bool :=
  match py_compare a b with
  | Some Eq => true
  | _ => false
  end.

(** [a + b]. *)
Definition py_add (a b : value) : result value :=
  match a, b with
  | VInt m, VInt n => Ok (VInt (m + n))
  | VFloat x, VFloat y => Ok (VFloat (fadd x y))
  | VInt m, VFloat y => x ← float_of_int m; Ok (VFloat (fadd x y))
  | VFloat x, VInt n => y ← float_of_int n; Ok (VFloat (fadd x y))
  end.

(** [a / b] for [0 <= a], [0 < b], rounded to the nearest integer, ties to
    even. *)
Definition div_half_even (a b : Z) : Z :=
  let q := a / b in
  match 2 * (a mod b) ?= b with
  | Lt => q
  | Gt => q + 1
  | Eq => if Z.even q then q else q + 1
  end.

(** [round(x, ndigits)] for a float and [0 <= ndigits]: the exact value is
    rounded to [ndigits] decimals (ties to even) and the decimal read back
    as the nearest float; infinities, NaN and zeros are returned as they
    are. *)
Definition float_round (ndigits : Z) (x : float) : float :=
  match x with
  | S754_finite s m e =>
      if 0 <=? e then x
      else
        match div_half_even (Zpos m * 10 ^ ndigits) (2 ^ (- e)) with
        | Zpos p => float_of_ratio s p (Z.to_pos (10 ^ ndigits))
        | _ => S754_zero s
        end
  | _ => x
  end.

(** [round(v, 12)]: an [int] is returned unchanged. *)
Definition py_round12 (v : value) : value :=
  match v with
  | VInt n => VInt n
  | VFloat x => VFloat (float_round 12 x)
  end.

(** The literal [1e-12]. *)
Definition tolerance : float := float_of_ratio false 1 (Z.to_pos (10 ^ 12)).

(** Decimal literals [n / 10^k], as [float("...")] reads them. *)
Definition decimal (n : Z) (k : nat) : float :=
  match n with
  | Z0 => S754_zero false
  | Zpos p => float_of_ratio false p (Z.to_pos (10 ^ Z.of_nat k))
  | Zneg p => float_of_ratio true p (Z.to_pos (10 ^ Z.of_nat k))
  end.

End PyNum.
Import PyNum.

(** ** The range expander *)

(** A scan specification [(name, start, end, step)]. *)
Record scan_spec : Type := {
  sp_name : pystr;
  sp_start : value;
  sp_end : value;
  sp_step : value
}.

(** [len(range(start, stop, step))] for a non-zero step. *)
Definition range_len (start stop step : Z) : Z :=
  if 0 <? step then
    if start <? stop then (stop - start - 1) / step + 1 else 0
  else
    if stop <? start then (start - stop - 1) / (- step) + 1 else 0.

(** [list(range(start, stop, step))]; a zero step raises [ValueError]. *)
Definition py_range (start stop step : Z) : result (list Z) :=
  if step =? 0 then Raise ValueError
  else Ok (map (fun i : nat => start + Z.of_nat i * step)
               (seq 0 (Z.to_nat (range_len start stop step)))).

(** Lines 79-82: the loop [while v <= end + 1e-12], with the list [vals]
    built so far.  [None] is a loop that has not finished within [fuel]
    iterations. *)
Fixpoint accumulate (fuel : nat) (end_ step v : value) (vals : list value)
    : option (result (list value)) :=
  match fuel with
  | O => None
  | S fuel' =>
      match py_add end_ (VFloat tolerance) with
      | Raise e => Some (Raise e)
      | Ok bound =>
          if py_le v bound then
            match py_add v step with
            | Raise e => Some (Raise e)
            | Ok v' => accumulate fuel' end_ step v' (vals ++ [py_round12 v])
            end
          else Some (Ok vals)
      end
  end.

(** Line 74: [all(isinstance(v, int) for v in (start, end, step))]. *)
Definition all_int (sp : scan_spec) : bool :=
  is_int (sp_start sp) && is_int (sp_end sp) && is_int (sp_step sp).

(** Lines 72-82: the value list of one spec. *)
Definition spec_values (fuel : nat) (sp : scan_spec) : option (result (list value)) :=
  match sp_start sp, sp_end sp, sp_step sp with
  | VInt start, VInt end_, VInt step =>
      Some (map VInt <$> py_range start (end_ + (if 0 <? step then 1 else -1)) step)
  | _, _, _ => accumulate fuel (sp_end sp) (sp_step sp) (sp_start sp) []
  end.

(** Lines 70-83: the loop over the specs, appending to [names] and [lists]. *)
Fixpoint expand_specs (fuel : nat) (scan_specs : list scan_spec)
    (names : list pystr) (lists : list (list value))
    : option (result (list pystr * list (list value))) :=
  match scan_specs with
  | [] => Some (Ok (names, lists))
  | sp :: rest =>
      match spec_values fuel sp with
      | None => None
      | Some (Raise e) => Some (Raise e)
      | Some (Ok vals) =>
          expand_specs fuel rest (names ++ [sp_name sp]) (lists ++ [vals])
      end
  end.

(** [itertools.product] over the pools, as its documentation defines it: start from
    the empty tuple and extend every partial tuple by every element of the
    next pool.  Tuples are lists. *)
Definition product {A : Type} (pools : list (list A)) : list (list A) :=
  fold_left
    (fun (result : list (list A)) (pool : list A) =>
       flat_map (fun x => map (fun y => x ++ [y]) pool) result)
    pools [[]].

Definition generate_param_combinations (fuel : nat) (scan_specs : list scan_spec)
    : option (result (list pystr * list (list value))) :=
  match expand_specs fuel scan_specs [] [] with
  | None => None
  | Some (Raise e) => Some (Raise e)
  | Some (Ok (names, lists)) => Some (Ok (names, product lists))
  end.

(** ** The symmetry filter of [main] (lines 190-196) *)

Definition asub1 : pystr := lit "asub1".
Definition asub2 : pystr := lit "asub2".

(** [x in l] for a list of names. *)
Definition name_in (x : pystr) (l : list pystr) : bool :=
  existsb (fun y => bool_decide (x = y)) l.

(** [l.index(x)]: the first position of [x]. *)
Fixpoint index_of (x : pystr) (l : list pystr) : option nat :=
  match l with
  | [] => None
  | y :: l' => if bool_decide (x = y) then Some 0%nat else S <$> index_of x l'
  end.

(** The test [c[i1] <= c[i2]]. *)
Definition keep_combo (i1 i2 : nat) (c : list value) : result bool :=
  match c !! i1, c !! i2 with
  | Some a, Some b => Ok (py_le a b)
  | _, _ => Raise IndexError
  end.

(** [[c for c in combos if c[i1] <= c[i2]]]. *)
Fixpoint filter_combos (i1 i2 : nat) (combos : list (list value))
    : result (list (list value)) :=
  match combos with
  | [] => Ok []
  | c :: cs =>
      b ← keep_combo i1 i2 c;
      rest ← filter_combos i1 i2 cs;
      Ok (if b : bool then c :: rest else rest)
  end.

Definition symmetry_filter (param_names : list pystr) (combos : list (list value))
    : result (list (list value)) :=
  if name_in asub1 param_names && name_in asub2 param_names then
    match index_of asub1 param_names, index_of asub2 param_names with
    | Some i1, Some i2 => filter_combos i1 i2 combos
    | _, _ => Raise ValueError
    end
  else Ok combos.

(** ** Rewriting the template and materialising the tasks *)

(** Lines 109-114: the line with its field [pos] set to [val].  The text
    before the first marker is split into fields, the field replaced
    ([IndexError] when there is none), and the fields joined by one blank
    are followed by a blank and by ['!' + rest[0]], the text between the
    first marker and the next. *)
Definition rewrite_line (line : pystr) (pos : nat) (val : pystr) : result pystr :=
  let parts := split_on bang line in
  let before := hd [] parts in
  let rest := tl parts in
  let nums := split_ws before in
  if (pos <? length nums)%nat then
    let nums' := <[pos := val]> nums in
    let comment :=
      match rest with
      | r0 :: _ => bang :: r0
      | [] => []
      end in
    Ok (join [space] nums' ++ [space] ++ comment)
  else Raise IndexError.

Section Printing.

(** [repr] of a float is the interpreter's; the program only prints it. *)
Variable float_repr : float -> pystr.

(** [str(val)], which is also [sanitize(val)]. *)
Definition str_value (v : value) : pystr :=
  match v with
  | VInt n => str_int n
  | VFloat x => float_repr x
  end.

Definition sanitize (val : value) : pystr := str_value val.

(** Lines 107-108 and 114: one turn of the loop of [modify_input]. *)
Definition modify_step (param_map : param_map) (new : list pystr)
    (nv : pystr * value) : result (list pystr) :=
  match param_map !! fst nv with
  | None => Raise KeyError
  | Some (ln, pos) =>
      match new !! ln with
      | None => Raise IndexError
      | Some line =>
          line' ← rewrite_line line pos (str_value (snd nv));
          Ok (<[ln := line']> new)
      end
  end.

Fixpoint modify_loop (param_map : param_map) (new : list pystr)
    (nvs : list (pystr * value)) : result (list pystr) :=
  match nvs with
  | [] => Ok new
  | nv :: nvs' =>
      new' ← modify_step param_map new nv;
      modify_loop param_map new' nvs'
  end.

Definition modify_input (lines : list pystr) (param_map : param_map)
    (combo : list value) (param_names : list pystr) : result (list pystr) :=
  modify_loop param_map lines (zip param_names combo).

(** What [main] leaves behind: the input file of every task folder, the rows
    of [tasks.csv] (each field as text) and the command lines handed to
    [os.system], in order.  What the shell does with a command line is not
    part of the program. *)
Record world : Type := {
  task_inputs : gmap pystr (list pystr);
  manifest : list (list pystr);
  system_calls : list pystr
}.

(** Line 225, [os.path.join('tasks', folder_name)], and the command line of
    line 241, in which the folder stands as it is, without quotes. *)
Definition task_path (folder_name : pystr) : pystr := lit "tasks/" ++ folder_name.

Definition submit_command (folder : pystr) : pystr :=
  lit "cd " ++ folder ++ lit " && sbatch V-3.sh && cd ..".

(** Lines 223-224. *)
Definition folder_name (idx : nat) (param_names : list pystr) (combo : list value)
    : pystr :=
  let spec_parts :=
    map (fun nv : pystr * value => fst nv ++ [underscore] ++ sanitize (snd nv))
        (zip param_names combo) in
  lit "task_" ++ str_int (Z.of_nat idx) ++ [underscore] ++ join [underscore] spec_parts.

(** The row [[idx, folder_name] + list(combo)], as the writer prints its
    fields. *)
Definition manifest_row (idx : nat) (param_names : list pystr) (combo : list value)
    : list pystr :=
  [str_int (Z.of_nat idx); folder_name idx param_names combo] ++ map str_value combo.

(** Lines 222-241: one task.  The folder becomes a copy of the template,
    its input file is rewritten, the row is written and, when submission is
    asked for, the command line is handed to [os.system].  An exception of
    [modify_input] leaves the copy and ends the run. *)
Definition materialize_task (lines : list pystr) (param_map : param_map)
    (param_names : list pystr) (submit : bool) (w : world)
    (ic : nat * list value) : world * option exn :=
  let idx := fst ic in
  let combo := snd ic in
  let name := folder_name idx param_names combo in
  let copied :=
    {| task_inputs := <[name := lines]> (task_inputs w);
       manifest := manifest w;
       system_calls := system_calls w |} in
  match modify_input lines param_map combo param_names with
  | Raise e => (copied, Some e)
  | Ok new_lines =>
      ({| task_inputs := <[name := new_lines]> (task_inputs copied);
          manifest := manifest copied ++ [manifest_row idx param_names combo];
          system_calls :=
            if submit
            then system_calls copied ++ [submit_command (task_path name)]
            else system_calls copied |},
       None)
  end.

Fixpoint materialize_loop (lines : list pystr) (param_map : param_map)
    (param_names : list pystr) (submit : bool) (w : world)
    (tasks : list (nat * list value)) : world * option exn :=
  match tasks with
  | [] => (w, None)
  | ic :: tasks' =>
      match materialize_task lines param_map param_names submit w ic with
      | (w', None) => materialize_loop lines param_map param_names submit w' tasks'
      | (w', Some e) => (w', Some e)
      end
  end.

(** Lines 215-241: [tasks.csv] is opened for writing (emptied), the header
    is written, then the tasks are made in order. *)
Definition materialize (lines : list pystr) (param_map : param_map)
    (param_names : list pystr) (combos : list (list value)) (submit : bool)
    (w0 : world) : world * option exn :=
  let opened :=
    {| task_inputs := task_inputs w0;
       manifest := [[lit "id"; lit "folder"] ++ param_names];
       system_calls := system_calls w0 |} in
  materialize_loop lines param_map param_names submit opened
    (enumerate_from 1 combos).

End Printing.

(** A printer of floats that stands in for [repr] where a statement is
    instantiated: sign, mantissa, [p], binary exponent, and [0.0], [inf],
    [nan]. *)
Definition float_show (x : float) : pystr :=
  match x with
  | S754_zero s => (if s then lit "-" else []) ++ lit "0.0"
  | S754_infinity s => (if s then lit "-" else []) ++ lit "inf"
  | S754_nan => lit "nan"
  | S754_finite s m e =>
      (if s then lit "-" else []) ++ str_int (Zpos m) ++ lit "p" ++ str_int e
  end.

(** ** Predicates used in the statements *)

(** [name] is the [pos]-th name listed on a line and a field stands at
    [pos]. *)
Definition in_line (values names : list pystr) (name : pystr) (pos : nat) : Prop :=
  names !! pos = Some name /\ (pos < length values)%nat.

(** [name] is listed at field [pos] of the annotated line [idx]. *)
Definition listed (lines : list pystr) (name : pystr) (idx pos : nat) : Prop :=
  exists line, lines !! idx = Some line /\ annotated line = true /\
    in_line (line_values line) (line_names line) name pos.

(** Reading order of the entries: by line, then by position. *)
Definition not_after (idx' pos' idx pos : nat) : Prop :=
  (idx' < idx)%nat \/ (idx' = idx /\ (pos' <= pos)%nat).

(** The text between the first marker of a line and the next marker (or
    the line end): [line.split('!')[1]], empty without a marker. *)
Definition first_comment (line : pystr) : pystr :=
  nth 1 (split_on bang line) [].

(** Two lines that the parser reads alike: annotated or not, with the same
    names, as many fields and the same first comment. *)
Definition line_rel (l' l : pystr) : Prop :=
  annotated l' = annotated l /\ line_names l' = line_names l /\
  length (line_values l') = length (line_values l) /\
  first_comment l' = first_comment l.

(** The field at position [pos] of line [ln]. *)
Definition field (lines : list pystr) (ln pos : nat) : option pystr :=
  lines !! ln ≫= fun line => line_values line !! pos.

(** ** Inputs on which the statements are instantiated *)

Definition ex_lines : list pystr :=
  [lit "10 20 ! a, b (cell sizes)" ++ [newline];
   lit "title line" ++ [newline];
   lit "0.5 7 9 ! c, a, d, e" ++ [newline]].

(** A line whose comment holds a second marker. *)
Definition two_marker_lines : list pystr :=
  [lit "1 2 ! a, b ! note" ++ [newline];
   lit "3 4 ! c, d" ++ [newline]].

(** [start + i * step] has not passed [end_], in the direction of [step]. *)
Definition on_walk (start end_ step : Z) (i : nat) : Prop :=
  (0 < step /\ start + Z.of_nat i * step <= end_) \/
  (step < 0 /\ end_ <= start + Z.of_nat i * step).

(** The product of the lengths of the value lists. *)
Definition prod_lengths {A : Type} (pools : list (list A)) : nat :=
  fold_right Nat.mul 1%nat (map length pools).

Definition int_spec (name : string) (start end_ step : Z) : scan_spec :=
  {| sp_name := lit name; sp_start := VInt start; sp_end := VInt end_;
     sp_step := VInt step |}.

Definition float_spec (name : string) (start end_ step : float) : scan_spec :=
  {| sp_name := lit name; sp_start := VFloat start; sp_end := VFloat end_;
     sp_step := VFloat step |}.

(** An all-integer spec with a non-zero step. *)
Definition int_stepping (sp : scan_spec) : Prop :=
  exists start end_ step,
    sp_start sp = VInt start /\ sp_end sp = VInt end_ /\ sp_step sp = VInt step /\
    step <> 0.

(** Two specs, an integer one of three values and a real one of two. *)
Definition ex_specs : list scan_spec :=
  [int_spec "a" 1 5 2; float_spec "b" (decimal 5 1) (decimal 10 1) (decimal 5 1)].

Definition ex_combos : list (list value) :=
  [[VInt 1; VFloat (decimal 5 1)]; [VInt 1; VFloat (decimal 10 1)];
   [VInt 3; VFloat (decimal 5 1)]; [VInt 3; VFloat (decimal 10 1)];
   [VInt 5; VFloat (decimal 5 1)]; [VInt 5; VFloat (decimal 10 1)]].

(** The running value after [i] additions of [step], from [v]. *)
Fixpoint running (step v : value) (i : nat) : result value :=
  match i with
  | O => Ok v
  | S i' => v' ← py_add v step; running step v' i'
  end.

(** The loop leaves at its [n]-th test: the running values before it pass
    the test [v <= bound], and the [n]-th one fails it or could not be
    computed. *)
Definition exits (bound step start : value) (n : nat) : Prop :=
  (forall i, (i < n)%nat ->
     exists v, running step start i = Ok v /\ py_le v bound = true) /\
  match running step start n with
  | Ok v => py_le v bound = false
  | Raise _ => True
  end.

(** The spec (0.1, 0.3, 0.1) of the specification. *)
Definition tenths_spec : scan_spec :=
  float_spec "x" (decimal 1 1) (decimal 3 1) (decimal 1 1).

(** A spec with the positive step [1e-17], start [1.0] and end [2.0]. *)
Definition stuck_spec : scan_spec :=
  float_spec "x" (decimal 1 0) (decimal 2 0) (float_of_ratio false 1 (Z.to_pos (10 ^ 17))).

#[global] Instance float_eq_dec : EqDecision float.
Proof. solve_decision. Defined.

#[global] Instance value_eq_dec : EqDecision value.
Proof. solve_decision. Defined.

(** The test of the filter on one combination, [false] where a position
    is missing. *)
Definition keeps (i1 i2 : nat) (c : list value) : bool :=
  match c !! i1, c !! i2 with
  | Some a, Some b => py_le a b
  | _, _ => false
  end.

(** The combination with its values at [i1] and [i2] exchanged. *)
Definition swap_combo (i1 i2 : nat) (c : list value) : list value :=
  match c !! i1, c !! i2 with
  | Some a, Some b => <[i1 := b]> (<[i2 := a]> c)
  | _, _ => c
  end.

(** [d] is [c] or [c] with the two values exchanged. *)
Definition same_class (i1 i2 : nat) (c d : list value) : Prop :=
  d = c \/ d = swap_combo i1 i2 c.

(** The retained combinations that stand for the class of [c]. *)
Definition representatives (i1 i2 : nat) (kept : list (list value))
    (c : list value) : list (list value) :=
  List.filter (fun d => bool_decide (same_class i1 i2 c d)) kept.

(** Every class of a listed combination has exactly one retained member. *)
Definition represented_once (i1 i2 : nat) (combos kept : list (list value)) : Prop :=
  forall c, In c combos -> length (representatives i1 i2 kept c) = 1%nat.

(** Values that are equal as numbers are the same value. *)
Definition exact_at (i1 i2 : nat) (c : list value) : Prop :=
  forall a b, c !! i1 = Some a -> c !! i2 = Some b -> py_eq a b = true -> a = b.

Definition ints (l : list Z) : list value := map VInt l.

(** The world before the first run. *)
Definition empty_world : world :=
  {| task_inputs := ∅; manifest := []; system_calls := [] |}.

(** The template line and the combinations of the end-to-end example of the
    specification: [10 20 ! a, b] with a in 10..12 by 2 and b = 20. *)
Definition e2e_lines : list pystr := [lit "10 20 ! a, b" ++ [newline]].
Definition e2e_names : list pystr := [lit "a"; lit "b"].
Definition e2e_combos : list (list value) := [ints [10; 20]; ints [12; 20]].

(** A float of binary64: mantissa below [2^53], exponent between [emin]
    and [emax - prec].  The floats the interpreter holds are such. *)
Definition float_in_range (x : float) : bool :=
  match x with
  | S754_finite _ m e =>
      (Zpos m <? 2 ^ prec) && (emin prec emax <=? e) && (e <=? emax - prec)
  | _ => true
  end.

Definition well_formed (v : value) : bool :=
  match v with
  | VInt _ => true
  | VFloat x => float_in_range x
  end.

(** An integer that grows with the float, in the order of [SFcompare]. *)
Definition float_rank (x : float) : Z :=
  match x with
  | S754_nan => 0
  | S754_zero _ => 0
  | S754_infinity s => cond_Zopp s (2 ^ 64)
  | S754_finite s m e => cond_Zopp s ((e + 1075) * 2 ^ 53 + Zpos m)
  end.

(** Every turn of the loop makes the running value strictly larger: a
    running value that passes the test, after running values that all
    passed it, is increased by the addition of [step]. *)
Definition increasing (bound step start : value) : Prop :=
  forall i v,
    (forall j, (j < i)%nat ->
       exists w, running step start j = Ok w /\ py_le w bound = true) ->
    running step start i = Ok v -> py_le v bound = true ->
    exists v', py_add v step = Ok v' /\ py_compare v v' = Some Lt.

(** An integer that no integer passing the test [v <= b] exceeds, for a
    bound other than [+inf]. *)
Definition ubound (b : value) : Z :=
  match b with
  | VInt n => n
  | VFloat (S754_finite _ m e) => Zpos m * 2 ^ Z.max e 0
  | VFloat _ => 0
  end.

Definition plus_infinity : value := VFloat (S754_infinity false).

(** The specs whose expansion is shown to end: the all-integer ones, those
    whose bound [end + 1e-12] cannot be computed, those whose start fails
    the test, and those on which every turn of the loop increases the
    running value (with a bound other than [+inf] when the running values
    are integers). *)
Definition ends (sp : scan_spec) : Prop :=
  all_int sp = true \/
  (exists e, py_add (sp_end sp) (VFloat tolerance) = Raise e) \/
  exists bound,
    py_add (sp_end sp) (VFloat tolerance) = Ok bound /\
    (py_le (sp_start sp) bound = false \/
     (well_formed (sp_start sp) = true /\ well_formed (sp_step sp) = true /\
      (is_int (sp_start sp) = true -> is_int (sp_step sp) = true ->
       bound <> plus_infinity) /\
      increasing bound (sp_step sp) (sp_start sp))).

(** ** The annotated lines, as the specification describes them *)

(** Whitespace only; a word, which is not empty and holds no whitespace;
    and what may follow a word, nothing or whitespace first. *)
Definition blank (s : pystr) : Prop := Forall (fun c => is_space c = true) s.

Definition word (t : pystr) : Prop :=
  t <> [] /\ Forall (fun c => is_space c = false) t.

Definition after_word (rest : pystr) : Prop :=
  rest = [] \/ exists c r, rest = c :: r /\ is_space c = true.

(** The whitespace-split tokens of a text: the words of the text, in
    order, with whitespace before, between and after them. *)
Inductive tokens_of : pystr -> list pystr -> Prop :=
  | tokens_nil s : blank s -> tokens_of s []
  | tokens_cons ws t rest ts :
      blank ws -> word t -> after_word rest -> tokens_of rest ts ->
      tokens_of (ws ++ t ++ rest) (t :: ts).

(** A name: not empty, with a first and a last character that are no
    whitespace. *)
Definition name_like (n : pystr) : Prop :=
  n <> [] /\
  (forall c r, n = c :: r -> is_space c = false) /\
  (forall c f, n = f ++ [c] -> is_space c = false).

(** A piece of the name list, trimmed: no name for a piece of whitespace
    only, else the name that the whitespace surrounds. *)
Inductive trimmed : pystr -> option pystr -> Prop :=
  | trimmed_blank p : blank p -> trimmed p None
  | trimmed_name ws n ws' :
      blank ws -> name_like n -> blank ws' -> trimmed (ws ++ n ++ ws') (Some n).

(** The names listed in a segment: the segment is cut at its commas, and the
    names are the trimmed pieces that are not blank, in order. *)
Definition names_of (segment : pystr) (names : list pystr) : Prop :=
  exists pieces opts,
    pieces <> [] /\ segment = join [comma] pieces /\
    Forall (fun p => py_in comma p = false) pieces /\
    Forall2 trimmed pieces opts /\
    names = omap id opts.

(** A text cut at the first [c]: [front] holds no [c], and [back] is
    empty or starts with [c]. *)
Definition cut_at (c : ascii) (s front back : pystr) : Prop :=
  s = front ++ back /\ py_in c front = false /\
  (back = [] \/ exists r, back = c :: r).

(** What a line gives the parser.  A line without marker gives nothing.
    Otherwise the comment of the line is what stands between its first
    marker and the next one (or the end of the line); without a comma in the
    comment the line gives nothing; with one, it gives the tokens before the
    marker and the names listed in the comment up to the first
    parenthesis. *)
Inductive described : pystr -> option (list pystr * list pystr) -> Prop :=
  | described_plain line :
      py_in bang line = false -> described line None
  | described_bare before after comment rest :
      py_in bang before = false -> cut_at bang after comment rest ->
      py_in comma comment = false ->
      described (before ++ bang :: after) None
  | described_annotated before after comment rest segment rest' tokens names :
      py_in bang before = false -> cut_at bang after comment rest ->
      py_in comma comment = true ->
      cut_at lparen comment segment rest' ->
      tokens_of before tokens -> names_of segment names ->
      described (before ++ bang :: after) (Some (tokens, names)).

(** The name [name] is the [pos]-th name of line [idx], and a token stands
    at [pos] on that line. *)
Definition entry (lines : list pystr) (name : pystr) (idx pos : nat) : Prop :=
  exists line tokens names,
    lines !! idx = Some line /\ described line (Some (tokens, names)) /\
    names !! pos = Some name /\ (pos < length tokens)%nat.

(** What the parser reads on a line, with the functions of the program. *)
Definition line_reading (line : pystr) : option (list pystr * list pystr) :=
  if annotated line then Some (line_values line, line_names line) else None.

(** ** Lines of a file *)

Definition carriage_return : ascii := "013"%char.

(** At most one marker on the line. *)
Definition one_marker (line : pystr) : Prop :=
  (length (split_on bang line) <= 2)%nat.

(** A line that ends with its only line end, and a non-empty line without
    line end. *)
Definition terminated (line : pystr) : Prop :=
  exists body, line = body ++ [newline] /\ py_in newline body = false.

Definition unterminated (line : pystr) : Prop :=
  line <> [] /\ py_in newline line = false.

(** The lines of a text file: all terminated, but for the last one, which
    may lack its line end. *)
Fixpoint file_lines (lines : list pystr) : Prop :=
  match lines with
  | [] => True
  | l :: ls =>
      match ls with
      | [] => terminated l \/ unterminated l
      | _ :: _ => terminated l /\ file_lines ls
      end
  end.

(** Two lines that the parser reads alike, the first with one marker at
    most, ending as the second does and free of carriage returns when the
    second is. *)
Definition file_rel (l' l : pystr) : Prop :=
  line_rel l' l /\ one_marker l' /\
  (terminated l -> terminated l') /\
  (unterminated l -> unterminated l') /\
  (py_in carriage_return l = false -> py_in carriage_return l' = false).

(** The scan specs of the end-to-end example. *)
Definition e2e_specs : list scan_spec :=
  [int_spec "a" 10 12 2; int_spec "b" 20 20 1].

(** ** The summary of the plots ([process.py]) *)

Definition semicolon : ascii := ";"%char.
Definition equals : ascii := "="%char.

(** Lines 104-107 of [parse_task_info]: the loop over
    [range(0, len(params), 2)], each turn taking a name and the value after
    it (the empty string when there is none). *)
Fixpoint task_pairs (params : list pystr) : list pystr :=
  match params with
  | [] => []
  | [name] => [name ++ [equals] ++ []]
  | name :: val :: rest => (name ++ [equals] ++ val) :: task_pairs rest
  end.

(** [parse_task_info]: the pieces of the folder name between underscores,
    the second as the task id ([IndexError] when there is none), the
    following ones paired. *)
Definition parse_task_info (folder_name : pystr) : result (pystr * pystr) :=
  let parts := split_on underscore folder_name in
  match parts !! 1%nat with
  | None => Raise IndexError
  | Some task_id => Ok (task_id, join [semicolon] (task_pairs (drop 2 parts)))
  end.

(** The planes, in the order of the loops over them. *)
Inductive plane := XY | XZ | YZ.

Definition plane_name (p : plane) : pystr :=
  match p with XY => lit "XY" | XZ => lit "XZ" | YZ => lit "YZ" end.

Definition planes : list plane := [XY; XZ; YZ].

Definition OUTPUT_EXT : pystr := lit "jpg".

(** The summary folders: the text of the summary file of each plane
    ([None] when there is no file) and the plots copied, in order, each
    with its plane and the name of the copy. *)
Record summary : Type := {
  summary_csv : plane -> option pystr;
  copied_plots : list (plane * pystr)
}.

(** The file of plane [p] replaced by [text]. *)
Definition set_csv (s : summary) (p : plane) (text : pystr) : summary :=
  {| summary_csv := fun q =>
       match p, q with
       | XY, XY | XZ, XZ | YZ, YZ => Some text
       | _, _ => summary_csv s q
       end;
     copied_plots := copied_plots s |}.

(** [ensure_summary_setup]: a summary file that does not exist is created
    with the header line. *)
Definition ensure_summary_setup (s : summary) : summary :=
  fold_left
    (fun s p =>
       match summary_csv s p with
       | None => set_csv s p (lit "task_id,parameters,filename" ++ [newline])
       | Some _ => s
       end)
    planes s.

(** The name of the copy of a plot and the line appended for it. *)
Definition dst_name (folder_name : pystr) (p : plane) : pystr :=
  folder_name ++ [underscore] ++ plane_name p ++ lit "." ++ OUTPUT_EXT.

Definition summary_line (task_id param_str folder_name : pystr) (p : plane) : pystr :=
  task_id ++ [comma] ++ param_str ++ [comma] ++ dst_name folder_name p ++ [newline].

(** [summarize_plots]: for each plane whose plot exists in the task folder
    ([has_plot]), the plot is copied and a line appended to the summary
    file of the plane, which is created when missing. *)
Definition summarize_plots (has_plot : plane -> bool) (folder_name : pystr)
    (s : summary) : result summary :=
  info ← parse_task_info folder_name;
  Ok (fold_left
        (fun s p =>
           if has_plot p then
             {| summary_csv :=
                  summary_csv
                    (set_csv s p
                       (default [] (summary_csv s p) ++
                        summary_line (fst info) (snd info) folder_name p));
                copied_plots := copied_plots s ++ [(p, dst_name folder_name p)] |}
           else s)
        planes s).

(** The plots and summary files on which the statements are instantiated:
    no summary file yet, plots for the planes XY and YZ. *)
Definition no_summary : summary :=
  {| summary_csv := fun _ => None; copied_plots := [] |}.

Definition ex_has_plot (p : plane) : bool :=
  match p with XZ => false | _ => true end.

(** ** The choice of a parameter in [main] (lines 154 and 169-175) *)

(** The order of strings: by code points, a prefix first. *)
Fixpoint str_leb (a b : pystr) : bool :=
  match a, b with
  | [], _ => true
  | _ :: _, [] => false
  | c :: a', d :: b' =>
      if Ascii.eqb c d then str_leb a' b'
      else (N_of_ascii c <? N_of_ascii d)%N
  end.

Definition str_le (a b : pystr) : Prop := str_leb a b = true.

#[global] Instance str_le_dec a b : Decision (str_le a b) :=
  decide (str_leb a b = true).

(** [sorted(param_map.keys())]. *)
Definition sorted_names (pm : param_map) : list pystr :=
  merge_sort str_le (fst <$> map_to_list pm).

(** [s.isdigit()] for the code points below 256: a non-empty string of
    digits, the superscripts one, two and three being digits too. *)
Definition digit_char (c : ascii) : bool :=
  let n := N_of_ascii c in
  (((48 <=? n) && (n <=? 57)) || (n =? 178) || (n =? 179) || (n =? 185))%N.

Definition isdigit (s : pystr) : bool := truthy s && forallb digit_char s.

(** [int] of a string of the digits 0 to 9, which stands in for the
    interpreter's where a statement is instantiated. *)
Definition decimal_value (s : pystr) : result Z :=
  fold_left
    (fun (acc : result Z) (c : ascii) =>
       n ← acc;
       let d := N_of_ascii c in
       if ((48 <=? d) && (d <=? 57))%N then Ok (10 * n + Z.of_N d - 48)
       else Raise ValueError)
    s (Ok 0).

Section Choice.

(** [int(choice)] is the interpreter's. *)
Variable int_of_str : pystr -> result Z.

(** Lines 169-175: the name chosen, [None] when the choice is reported as
    invalid. *)
Definition select_param (pm : param_map) (choice : pystr)
    : result (option pystr) :=
  let params := sorted_names pm in
  let by_name :=
    match pm !! choice with
    | Some _ => Some choice
    | None => None
    end in
  if isdigit choice then
    n ← int_of_str choice;
    if (1 <=? n) && (n <=? Z.of_nat (length params)) then
      match params !! Z.to_nat (n - 1) with
      | Some name => Ok (Some name)
      | None => Raise IndexError
      end
    else Ok by_name
  else Ok by_name.

End Choice.

(** The values that [str] prints.  CPython refuses to print an [int] of
    more than 4300 digits ([sys.int_info.default_max_str_digits]) and raises
    [ValueError] instead; [str_int] stands for [str] on the other integers. *)
Definition printable (v : value) : Prop :=
  match v with
  | VInt n => Z.abs n < 10 ^ 4300
  | VFloat _ => True
  end.

(** The layout of a rewritten line: its fields with one blank between
    them, a blank, the marker and the first comment. *)
Definition normal_layout (line : pystr) : Prop :=
  line = join [space] (line_values line) ++ [space] ++ bang :: first_comment line.

(** ** Steps that are not positive *)

(** A value that the interpreter holds: an integer, or a float in the
    canonical form of binary64. *)
Definition valid_value (v : value) : bool :=
  match v with
  | VInt _ => true
  | VFloat x => valid_binary prec emax x
  end.

Definition minus_infinity : value := VFloat (S754_infinity true).

(** The spec (1.0, 2.0, -0.1), with a negative step, and the spec
    (inf, inf, -inf), on which the first addition gives NaN. *)
Definition falling_spec : scan_spec :=
  float_spec "x" (decimal 1 0) (decimal 2 0) (decimal (-1) 1).

Definition corner_spec : scan_spec :=
  {| sp_name := lit "x"; sp_start := plus_infinity; sp_end := plus_infinity;
     sp_step := minus_infinity |}.

(** The spec (10 ** 400, inf, -0.1): the integer start passes the test and
    has no float. *)
Definition overflow_spec : scan_spec :=
  {| sp_name := lit "x"; sp_start := VInt (10 ^ 400); sp_end := plus_infinity;
     sp_step := VFloat (decimal (-1) 1) |}.

(** ** Facts about Python text *)

Section TextFacts.

Lemma split_on_cons sep s : exists p ps, split_on sep s = p :: ps.
Proof.
  destruct s as [|c s]; simpl; [eauto|].
  destruct (Ascii.eqb c sep); [eauto|].
  destruct (split_on sep s); eauto.
Qed.

Lemma py_in_In c s : py_in c s = true <-> In c s.
Proof.
  unfold py_in. rewrite existsb_exists. split.
  - intros (x & Hx & He). apply Ascii.eqb_eq in He. now subst.
  - intros H. exists c. split; [easy|]. apply Ascii.eqb_refl.
Qed.

Lemma py_in_false c s : py_in c s = false <-> ~ In c s.
Proof.
  rewrite <- py_in_In. destruct (py_in c s); split; intros; easy.
Qed.

(** Without the separator there is one piece, the string itself. *)
Lemma split_on_absent sep s : py_in sep s = false -> split_on sep s = [s].
Proof.
  induction s as [|c s IH]; simpl; [easy|].
  rewrite (Ascii.eqb_sym sep c).
  destruct (Ascii.eqb c sep); simpl; [easy|].
  intros H. now rewrite (IH H).
Qed.

(** The first piece ends at the first separator. *)
Lemma split_on_app sep a b :
  py_in sep a = false -> split_on sep (a ++ sep :: b) = a :: split_on sep b.
Proof.
  induction a as [|c a IH]; simpl.
  - now rewrite Ascii.eqb_refl.
  - rewrite (Ascii.eqb_sym sep c).
    destruct (Ascii.eqb c sep); simpl; [easy|].
    intros H. now rewrite (IH H).
Qed.

(** A string is its pieces joined by the separator. *)
Lemma split_on_shape sep s :
  exists p ps, split_on sep s = p :: ps /\ py_in sep p = false /\
    (ps = [] /\ s = p \/ exists s', s = p ++ sep :: s' /\ ps = split_on sep s').
Proof.
  induction s as [|c s IH]; simpl.
  - exists [], []. auto.
  - destruct (Ascii.eqb c sep) eqn:E.
    + apply Ascii.eqb_eq in E. subst c.
      exists [], (split_on sep s). repeat split; [].
      right. now exists s.
    + destruct IH as (p & ps & -> & Hp & Hs).
      exists (c :: p), ps. repeat split.
      * simpl. now rewrite (Ascii.eqb_sym sep c), E.
      * destruct Hs as [[-> ->]|(s' & -> & ->)]; [now left|].
        right. now exists s'.
Qed.

Lemma split_on_pieces_free sep s :
  Forall (fun p => py_in sep p = false) (split_on sep s).
Proof.
  remember (length s) as n eqn:Hn.
  revert s Hn. induction n as [n IH] using lt_wf_ind. intros s Hn.
  destruct (split_on_shape sep s) as (p & ps & E & Hp & Hs).
  rewrite E. constructor; [easy|].
  destruct Hs as [[-> _]|(s' & -> & ->)]; [constructor|].
  apply (IH (length s')); [|easy].
  subst n. rewrite length_app. simpl. lia.
Qed.

Lemma split_on_pieces_sub sep s p c :
  In p (split_on sep s) -> In c p -> In c s.
Proof.
  revert p. induction s as [|a s IH]; simpl; intros p.
  - intros [<-|[]]. easy.
  - destruct (Ascii.eqb a sep).
    + intros [<-|H] Hc; [easy|]. right. eauto.
    + destruct (split_on_cons sep s) as (q & qs & E). rewrite E in *.
      intros [<-|H] Hc.
      * destruct Hc as [->|Hc]; [now left|]. right. apply (IH q); simpl; auto.
      * right. apply (IH p); simpl; auto.
Qed.

(** ['!' in line] is the same as the split having a second piece. *)
Lemma py_in_split sep s :
  py_in sep s = true <-> exists p q qs, split_on sep s = p :: q :: qs.
Proof.
  destruct (split_on_shape sep s) as (p & ps & E & Hp & Hs). split.
  - intros H. destruct Hs as [[-> ->]|(s' & -> & ->)]; [congruence|].
    destruct (split_on_cons sep s') as (q & qs & E').
    exists p, q, qs. now rewrite E, E'.
  - intros (p' & q & qs & E'). rewrite E in E'. injection E' as -> ->.
    destruct Hs as [[? _]|(s' & -> & _)]; [easy|].
    apply py_in_In, in_or_app. right. now left.
Qed.

Lemma is_space_space : is_space space = true.
Proof. reflexivity. Qed.

Lemma is_space_bang : is_space bang = false.
Proof. reflexivity. Qed.

Lemma token_char_spec c :
  token_char c = true <-> is_space c = false /\ c <> bang.
Proof.
  unfold token_char. rewrite andb_true_iff, !negb_true_iff, Ascii.eqb_neq.
  tauto.
Qed.

Lemma is_token_spec t :
  is_token t = true <-> t <> [] /\ Forall (fun c => token_char c = true) t.
Proof.
  unfold is_token. rewrite andb_true_iff, forallb_forall, List.Forall_forall.
  destruct t; simpl; intuition (try congruence; auto).
Qed.

(** A run of non-blank characters followed by a blank is one field. *)
Lemma split_ws_word t r :
  t <> [] -> Forall (fun c => is_space c = false) t ->
  split_ws (t ++ space :: r) = t :: split_ws r.
Proof.
  induction t as [|c t IH]; [easy|]. intros _ H.
  inversion H as [|? ? Hc Ht]; subst.
  destruct t as [|d t].
  - simpl. now rewrite Hc.
  - change ((c :: d :: t) ++ space :: r) with (c :: (d :: t) ++ space :: r).
    cbn [split_ws]. rewrite Hc.
    change ((d :: t) ++ space :: r) with (d :: t ++ space :: r) at 1.
    cbv iota beta.
    inversion Ht as [|? ? Hd _]; subst. rewrite Hd.
    change (d :: t ++ space :: r) with ((d :: t) ++ space :: r).
    now rewrite IH.
Qed.

(** Splitting what [' '.join(fields) + ' '] built gives the fields back. *)
Lemma split_ws_join ts :
  Forall (fun t => t <> [] /\ Forall (fun c => is_space c = false) t) ts ->
  split_ws (join [space] ts ++ [space]) = ts.
Proof.
  induction ts as [|t ts IH]; [easy|]. intros H.
  inversion H as [|? ? [Hne Ht] Hts]; subst.
  destruct ts as [|u ts].
  - simpl. now rewrite split_ws_word.
  - replace (join [space] (t :: u :: ts) ++ [space])
      with (t ++ space :: (join [space] (u :: ts) ++ [space])).
    + rewrite split_ws_word by easy. now rewrite IH.
    + change (join [space] (t :: u :: ts))
        with (t ++ [space] ++ join [space] (u :: ts)).
      now rewrite <- !app_assoc.
Qed.

(** The fields of [split_ws] are non-empty and hold no blank; none is lost
    from the text. *)
Lemma split_ws_fields s :
  Forall (fun t => t <> [] /\ Forall (fun c => is_space c = false) t) (split_ws s).
Proof.
  induction s as [|c s IH]; [constructor|].
  cbn [split_ws]. destruct (is_space c) eqn:Hc; [easy|].
  destruct s as [|d s]; [repeat constructor; easy|].
  destruct (is_space d) eqn:Hd.
  - constructor; [|easy]. split; [easy|]. now repeat constructor.
  - destruct (split_ws (d :: s)) as [|p ps]; [repeat constructor; easy|].
    inversion IH as [|? ? [Hne Hp] Hps]; subst.
    constructor; [|easy]. split; [easy|]. now constructor.
Qed.

Lemma split_ws_sub s t c : In t (split_ws s) -> In c t -> In c s.
Proof.
  revert t. induction s as [|a s IH]; [easy|]. intros t.
  cbn [split_ws]. destruct (is_space a).
  { intros H Hc. right. eauto. }
  destruct s as [|d s].
  { intros [<-|[]] Hc. easy. }
  destruct (is_space d).
  { intros [<-|H] Hc; [destruct Hc as [->|[]]; now left|]. right. eauto. }
  destruct (split_ws (d :: s)) as [|p ps].
  { intros [<-|[]] Hc. destruct Hc as [->|[]]. now left. }
  intros [<-|H] Hc.
  - destruct Hc as [->|Hc]; [now left|]. right. apply (IH p); simpl; auto.
  - right. apply (IH t); simpl; auto.
Qed.

(** The fields before the marker are tokens. *)
Lemma line_values_tokens line :
  Forall (fun t => is_token t = true) (line_values line).
Proof.
  unfold line_values.
  destruct (split_on_shape bang line) as (p & ps & E & Hp & _).
  rewrite E. simpl.
  pose proof (split_ws_fields p) as H.
  rewrite List.Forall_forall in *. intros t Ht.
  destruct (H t Ht) as [Hne Hs].
  apply is_token_spec. split; [easy|].
  rewrite List.Forall_forall in *. intros c Hc.
  apply token_char_spec. split; [auto|].
  intros ->. apply py_in_false in Hp. apply Hp.
  eapply split_ws_sub; eauto.
Qed.

End TextFacts.

(** ** The parser *)

Section ParserFacts.

Lemma enumerate_from_app {A} (l l' : list A) n :
  enumerate_from n (l ++ l') =
  enumerate_from n l ++ enumerate_from (n + length l) l'.
Proof.
  revert n. induction l as [|x l IH]; intros n; simpl.
  - now rewrite Nat.add_0_r.
  - rewrite IH. do 3 f_equal. lia.
Qed.

Lemma enumerate_snoc {A} (l : list A) x :
  enumerate (l ++ [x]) = enumerate l ++ [(length l, x)].
Proof. unfold enumerate. now rewrite enumerate_from_app. Qed.

Lemma record_names_snoc idx values names n pm :
  record_names idx values (names ++ [n]) pm =
  if (length names <? length values)%nat
  then <[n := (idx, length names)]> (record_names idx values names pm)
  else record_names idx values names pm.
Proof.
  unfold record_names. now rewrite enumerate_snoc, fold_left_app.
Qed.

Lemma in_line_snoc values names n name pos :
  in_line values (names ++ [n]) name pos <->
  in_line values names name pos \/
  (pos = length names /\ n = name /\ (length names < length values)%nat).
Proof.
  unfold in_line. split.
  - intros [H Hp]. destruct (decide (pos < length names)%nat) as [Hl|Hl].
    + left. now rewrite lookup_app_l in H.
    + right. rewrite lookup_app_r in H by lia.
      destruct (pos - length names)%nat as [|k] eqn:E; simpl in H; [|easy].
      injection H as ->. repeat split; lia.
  - intros [[H Hp]|(-> & -> & Hp)]; split; try easy.
    + rewrite lookup_app_l; [easy|]. now apply lookup_lt_Some in H.
    + rewrite lookup_app_r by lia. now rewrite Nat.sub_diag.
Qed.

Lemma in_line_lt values names name pos :
  in_line values names name pos -> (pos < length names)%nat.
Proof. intros [H _]. now apply lookup_lt_Some in H. Qed.

(** The inner loop: the last listed position of a name wins, a name that is
    not listed keeps its entry. *)
Lemma record_names_spec idx values names pm name v :
  record_names idx values names pm !! name = Some v <->
  (exists pos, v = (idx, pos) /\ in_line values names name pos /\
     forall pos', in_line values names name pos' -> (pos' <= pos)%nat) \/
  ((forall pos, ~ in_line values names name pos) /\ pm !! name = Some v).
Proof.
  revert v. induction names as [|n names IH] using rev_ind; intros v.
  - unfold record_names, in_line. simpl. split.
    + intros H. right. split; [|easy]. intros pos [E _]. easy.
    + intros [(pos & _ & [E _] & _)|[_ H]]; easy.
  - rewrite record_names_snoc.
    destruct (Nat.ltb_spec (length names) (length values)) as [Hl|Hl].
    + destruct (decide (n = name)) as [->|Hn].
      * rewrite lookup_insert_eq. split.
        -- intros [= <-]. left. exists (length names). split; [easy|]. split.
           ++ apply in_line_snoc. right. easy.
           ++ intros pos' H. apply in_line_lt in H.
              rewrite length_app in H. simpl in H. lia.
        -- intros [(pos & -> & H & Hmax)|[Hno _]].
           ++ assert (in_line values (names ++ [name]) name (length names)) as H'
                by (apply in_line_snoc; right; easy).
              apply Hmax in H'. apply in_line_lt in H.
              rewrite length_app in H. simpl in H.
              f_equal. f_equal. lia.
           ++ exfalso. apply (Hno (length names)), in_line_snoc. right. easy.
      * rewrite lookup_insert_ne by easy. rewrite IH.
        assert (forall pos, in_line values (names ++ [n]) name pos <->
                            in_line values names name pos) as Hiff.
        { intros pos. rewrite in_line_snoc. intuition. }
        split.
        -- intros [(pos & -> & H & Hmax)|[Hno Hpm]].
           ++ left. exists pos. rewrite Hiff. split; [easy|]. split; [easy|].
              intros pos'. rewrite Hiff. auto.
           ++ right. split; [|easy]. intros pos. rewrite Hiff. auto.
        -- intros [(pos & -> & H & Hmax)|[Hno Hpm]].
           ++ left. exists pos. rewrite <- Hiff. split; [easy|]. split; [easy|].
              intros pos'. rewrite <- Hiff. auto.
           ++ right. split; [|easy]. intros pos. rewrite <- Hiff. auto.
    + rewrite IH.
      assert (forall pos, in_line values (names ++ [n]) name pos <->
                          in_line values names name pos) as Hiff.
      { intros pos. rewrite in_line_snoc. intuition lia. }
      split.
      * intros [(pos & -> & H & Hmax)|[Hno Hpm]].
        -- left. exists pos. rewrite Hiff. split; [easy|]. split; [easy|].
           intros pos'. rewrite Hiff. auto.
        -- right. split; [|easy]. intros pos. rewrite Hiff. auto.
      * intros [(pos & -> & H & Hmax)|[Hno Hpm]].
        -- left. exists pos. rewrite <- Hiff. split; [easy|]. split; [easy|].
           intros pos'. rewrite <- Hiff. auto.
        -- right. split; [|easy]. intros pos. rewrite <- Hiff. auto.
Qed.

Lemma parse_lines_snoc lines l :
  parse_lines (lines ++ [l]) = parse_line (parse_lines lines) (length lines, l).
Proof.
  unfold parse_lines. now rewrite enumerate_snoc, fold_left_app.
Qed.

Lemma listed_snoc lines l name idx pos :
  listed (lines ++ [l]) name idx pos <->
  listed lines name idx pos \/
  (idx = length lines /\ annotated l = true /\
   in_line (line_values l) (line_names l) name pos).
Proof.
  unfold listed. split.
  - intros (line & H & Ha & Hin).
    destruct (decide (idx < length lines)%nat) as [Hl|Hl].
    + left. exists line. now rewrite lookup_app_l in H.
    + right. rewrite lookup_app_r in H by lia.
      destruct (idx - length lines)%nat as [|k] eqn:E; simpl in H; [|easy].
      assert (l = line) as -> by congruence.
      split; [lia|]. split; assumption.
  - intros [(line & H & Ha & Hin)|(-> & Ha & Hin)].
    + exists line. split; [|easy]. rewrite lookup_app_l; [easy|].
      now apply lookup_lt_Some in H.
    + exists l. split; [|easy]. rewrite lookup_app_r by lia.
      now rewrite Nat.sub_diag.
Qed.

Lemma listed_lt lines name idx pos :
  listed lines name idx pos -> (idx < length lines)%nat.
Proof. intros (line & H & _). now apply lookup_lt_Some in H. Qed.

(** The field map holds, for each name, its last listed place. *)
Lemma parse_lines_spec lines name idx pos :
  parse_lines lines !! name = Some (idx, pos) <->
  listed lines name idx pos /\
  forall idx' pos', listed lines name idx' pos' -> not_after idx' pos' idx pos.
Proof.
  revert idx pos. induction lines as [|l lines IH] using rev_ind; intros idx pos.
  - unfold parse_lines. simpl. rewrite lookup_empty. split; [easy|].
    intros [(line & H & _) _]. easy.
  - rewrite parse_lines_snoc. unfold parse_line. simpl.
    destruct (annotated l) eqn:Ha.
    + rewrite record_names_spec. split.
      * intros [(p & [= -> ->] & Hin & Hmax)|[Hno Hpm]].
        -- split; [apply listed_snoc; right; easy|].
           intros idx' pos' [H|(-> & _ & H)]%listed_snoc.
           ++ left. now apply listed_lt in H.
           ++ right. split; [easy|]. auto.
        -- apply IH in Hpm as [Hl Hmax].
           split; [apply listed_snoc; left; easy|].
           intros idx' pos' [H|(-> & _ & H)]%listed_snoc; [auto|].
           now apply Hno in H.
      * intros [[Hl|(-> & _ & Hin)]%listed_snoc Hmax].
        -- right. split.
           ++ intros p Hin.
              assert (listed (lines ++ [l]) name (length lines) p) as H
                by (apply listed_snoc; right; easy).
              apply Hmax in H. apply listed_lt in Hl.
              destruct H as [H|[H _]]; lia.
           ++ apply IH. split; [easy|]. intros idx' pos' H.
              apply Hmax, listed_snoc. now left.
        -- left. exists pos. split; [easy|]. split; [easy|].
           intros pos' H.
           assert (listed (lines ++ [l]) name (length lines) pos') as H'
             by (apply listed_snoc; right; easy).
           apply Hmax in H'. destruct H' as [H'|[_ H']]; lia.
    + rewrite IH.
      assert (forall i p, listed (lines ++ [l]) name i p <-> listed lines name i p)
        as Hiff.
      { intros i p. rewrite listed_snoc. intuition congruence. }
      rewrite Hiff. split; intros [H Hmax]; (split; [easy|]);
        intros i p Hi; apply Hmax; now apply Hiff.
Qed.

Lemma record_names_is_Some idx values names pm name :
  is_Some (record_names idx values names pm !! name) <->
  is_Some (pm !! name) \/ exists pos, in_line values names name pos.
Proof.
  induction names as [|n names IH] using rev_ind.
  - unfold record_names. simpl. split; [auto|].
    intros [H|(pos & [H _])]; easy.
  - rewrite record_names_snoc.
    destruct (Nat.ltb_spec (length names) (length values)) as [Hl|Hl].
    + destruct (decide (n = name)) as [->|Hn].
      * rewrite lookup_insert_eq. split; [|eauto].
        intros _. right. exists (length names). apply in_line_snoc. right. easy.
      * rewrite lookup_insert_ne by easy. rewrite IH.
        split; (intros [H|(pos & H)]; [now left|right; exists pos]);
          rewrite in_line_snoc in *; intuition.
    + rewrite IH.
      split; (intros [H|(pos & H)]; [now left|right; exists pos]);
        rewrite in_line_snoc in *; intuition lia.
Qed.

(** A name has an entry exactly when it is listed somewhere. *)
Lemma parse_lines_is_Some lines name :
  is_Some (parse_lines lines !! name) <->
  exists idx pos, listed lines name idx pos.
Proof.
  induction lines as [|l lines IH] using rev_ind.
  - unfold parse_lines. simpl. rewrite lookup_empty. split.
    + intros [? H]. easy.
    + intros (idx & pos & line & H & _). easy.
  - rewrite parse_lines_snoc. unfold parse_line. simpl.
    destruct (annotated l) eqn:Ha.
    + rewrite record_names_is_Some, IH. split.
      * intros [(idx & pos & H)|(pos & H)].
        -- exists idx, pos. apply listed_snoc. now left.
        -- exists (length lines), pos. apply listed_snoc. right. easy.
      * intros (idx & pos & [H|(-> & _ & H)]%listed_snoc); eauto.
    + rewrite IH. split; intros (idx & pos & H); exists idx, pos;
        rewrite listed_snoc in *; intuition congruence.
Qed.

End ParserFacts.

(** ** The rewriter *)

Section RewriterFacts.

Lemma str_int_token n : is_token (str_int n) = true.
Proof.
  assert (forall d, forallb token_char
                      (list_ascii_of_string (NilEmpty.string_of_uint d)) = true)
    as Hd.
  { induction d; cbn [NilEmpty.string_of_uint list_ascii_of_string forallb];
      rewrite ?IHd; reflexivity. }
  assert (forall d, is_token (lit (NilZero.string_of_uint d)) = true) as Hu.
  { intros d. unfold is_token. apply andb_true_intro. split.
    - destruct d; reflexivity.
    - destruct d; try apply Hd. reflexivity. }
  unfold str_int. destruct (Z.to_int n) as [d|d]; unfold NilZero.string_of_int.
  - apply Hu.
  - specialize (Hu d). unfold is_token in *.
    apply andb_prop in Hu as [_ Hu].
    change (lit (String "-" (NilZero.string_of_uint d)))
      with ("-"%char :: lit (NilZero.string_of_uint d)).
    cbn [forallb truthy]. now rewrite Hu.
Qed.

Lemma tokens_fields ts :
  Forall (fun t => is_token t = true) ts ->
  Forall (fun t => t <> [] /\ Forall (fun c => is_space c = false) t) ts.
Proof.
  intros H. eapply Forall_impl; [exact H|].
  intros t [Hne Ht]%is_token_spec. split; [easy|].
  eapply Forall_impl; [exact Ht|]. now intros c [Hc _]%token_char_spec.
Qed.

Lemma join_tokens_free ts :
  Forall (fun t => is_token t = true) ts ->
  py_in bang (join [space] ts ++ [space]) = false.
Proof.
  intros H. apply py_in_false. intros Hin.
  assert (forall c, In c (join [space] ts) -> c = space \/ exists t, In t ts /\ In c t)
    as Hj.
  { clear. induction ts as [|t ts IH]; [easy|]. intros c.
    destruct ts as [|u ts].
    - simpl. intros Hc. right. exists t. auto.
    - change (join [space] (t :: u :: ts))
        with (t ++ [space] ++ join [space] (u :: ts)).
      rewrite !in_app_iff. intros [Hc|[[<-|[]]|Hc]].
      + right. exists t. simpl. auto.
      + now left.
      + destruct (IH c Hc) as [->|(t' & Ht' & Hc')]; [now left|].
        right. exists t'. split; [now right|easy]. }
  apply in_app_iff in Hin as [Hin|[Hin|[]]]; [|discriminate Hin].
  destruct (Hj _ Hin) as [E|(t & Ht & Hc)]; [discriminate E|].
  rewrite List.Forall_forall in H. specialize (H t Ht).
  apply is_token_spec in H as [_ H]. rewrite List.Forall_forall in H.
  specialize (H _ Hc). now apply token_char_spec in H as [_ H].
Qed.

(** Rewriting a field keeps what the parser reads on the line: whether it
    is annotated, its names, and its other fields. *)
Lemma rewrite_line_ok line pos s :
  (pos < length (line_values line))%nat -> is_token s = true ->
  exists line', rewrite_line line pos s = Ok line' /\
    annotated line' = annotated line /\
    line_names line' = line_names line /\
    line_values line' = <[pos := s]> (line_values line) /\
    first_comment line' = first_comment line.
Proof.
  intros Hpos Hs. unfold rewrite_line.
  fold (line_values line).
  apply Nat.ltb_lt in Hpos as Hb. rewrite Hb. eexists. split; [reflexivity|].
  assert (Forall (fun t => is_token t = true) (<[pos := s]> (line_values line)))
    as Htok.
  { apply Forall_insert; [apply line_values_tokens|easy]. }
  set (nums' := <[pos := s]> (line_values line)) in *.
  pose proof (join_tokens_free _ Htok) as Hfree.
  pose proof (split_ws_join _ (tokens_fields _ Htok)) as Hsplit.
  destruct (split_on_shape bang line) as (p & ps & E & Hp & Hs').
  rewrite E. simpl hd. simpl tl.
  destruct Hs' as [[-> ->]|(s' & -> & ->)].
  - (* no marker on the line *)
    rewrite !app_nil_r.
    unfold annotated, line_names, line_values, first_comment.
    rewrite (split_on_absent bang (join [space] nums' ++ [space])) by easy.
    rewrite (split_on_absent bang p) by easy.
    rewrite Hfree, Hp. simpl. now rewrite Hsplit.
  - (* the text up to the next marker follows *)
    destruct (split_on_shape bang s') as (r0 & rs & E' & Hr0 & _).
    rewrite E'.
    assert (split_on bang ((join [space] nums' ++ [space]) ++ bang :: r0) =
            [join [space] nums' ++ [space]; r0]) as Hnew.
    { rewrite split_on_app by easy. now rewrite (split_on_absent bang r0). }
    replace (join [space] nums' ++ [space] ++ bang :: r0)
      with ((join [space] nums' ++ [space]) ++ bang :: r0)
      by now rewrite <- app_assoc.
    unfold annotated, line_names, line_values, first_comment.
    rewrite Hnew, split_on_app, E' by easy. simpl.
    rewrite Hsplit. repeat split.
    f_equal. transitivity true; [|symmetry]; apply py_in_In, in_or_app; right; now left.
Qed.

End RewriterFacts.

Section ModifyFacts.

Variable float_repr : float -> pystr.
Hypothesis float_repr_token : forall x, is_token (float_repr x) = true.

Lemma str_value_token v : is_token (str_value float_repr v) = true.
Proof. destruct v; simpl; [apply str_int_token|apply float_repr_token]. Qed.

Lemma line_rel_refl l : line_rel l l.
Proof. now unfold line_rel. Qed.

Lemma parse_line_rel pm idx l' l :
  line_rel l' l -> parse_line pm (idx, l') = parse_line pm (idx, l).
Proof.
  intros (Ha & Hn & Hv & _). unfold parse_line, record_names. simpl.
  now rewrite Ha, Hn, Hv.
Qed.

(** Lines that read alike give the same field map. *)
Lemma parse_lines_rel new lines :
  Forall2 line_rel new lines -> parse_lines new = parse_lines lines.
Proof.
  unfold parse_lines, enumerate. generalize (∅ : param_map) 0%nat.
  intros pm n H. revert pm n.
  induction H as [|l' l new lines Hl _ IH]; intros pm n; [easy|].
  simpl. rewrite (parse_line_rel _ _ _ _ Hl). apply IH.
Qed.

(** Two names never share a place. *)
Lemma parse_lines_inj lines n1 n2 place :
  parse_lines lines !! n1 = Some place ->
  parse_lines lines !! n2 = Some place -> n1 = n2.
Proof.
  destruct place as [ln pos].
  intros [(l1 & H1 & _ & [E1 _]) _]%parse_lines_spec
         [(l2 & H2 & _ & [E2 _]) _]%parse_lines_spec.
  congruence.
Qed.

Lemma modify_step_ok lines new name v ln pos :
  Forall2 line_rel new lines ->
  parse_lines lines !! name = Some (ln, pos) ->
  exists new',
    modify_step float_repr (parse_lines lines) new (name, v) = Ok new' /\
    Forall2 line_rel new' lines /\
    field new' ln pos = Some (str_value float_repr v) /\
    (forall ln2 pos2, (ln2, pos2) <> (ln, pos) ->
       field new' ln2 pos2 = field new ln2 pos2) /\
    (forall i, i <> ln -> new' !! i = new !! i).
Proof.
  intros Hrel Hpm.
  pose proof Hpm as [(l0 & Hl0 & Ha0 & [_ Hpos]) _]%parse_lines_spec.
  destruct (Forall2_lookup_r _ _ _ _ _ Hrel Hl0) as (l' & Hl' & Hr).
  destruct Hr as (Ha & Hn & Hv & Hc).
  destruct (rewrite_line_ok l' pos (str_value float_repr v))
    as (line' & Hrw & Ha' & Hn' & Hv' & Hc'); [lia|apply str_value_token|].
  exists (<[ln := line']> new).
  assert (ln < length new)%nat as Hlen by now apply lookup_lt_Some in Hl'.
  split; [|split; [|split; [|split]]].
  - unfold modify_step. simpl. rewrite Hpm, Hl', Hrw. reflexivity.
  - rewrite <- (list_insert_id lines ln l0) by easy.
    apply Forall2_insert; [easy|].
    unfold line_rel. rewrite Ha', Hn', Hv', Hc', length_insert. easy.
  - unfold field. rewrite list_lookup_insert_eq by easy. simpl.
    rewrite Hv'. apply list_lookup_insert_eq. lia.
  - intros ln2 pos2 Hne. unfold field.
    destruct (decide (ln2 = ln)) as [->|Hln].
    + rewrite list_lookup_insert_eq, Hl' by easy. simpl.
      rewrite Hv'. apply list_lookup_insert_ne. congruence.
    + now rewrite list_lookup_insert_ne.
  - intros i Hi. now rewrite list_lookup_insert_ne.
Qed.

(** The loop of [modify_input] on names that have an entry: it does not
    raise, the lines still read alike, every place written last for a name
    holds that value, and the other places and lines are as before. *)
Lemma modify_loop_ok lines nvs : forall new,
  Forall2 line_rel new lines ->
  Forall (fun nv => is_Some (parse_lines lines !! fst nv)) nvs ->
  exists final,
    modify_loop float_repr (parse_lines lines) new nvs = Ok final /\
    Forall2 line_rel final lines /\
    (forall k name v ln pos,
       nvs !! k = Some (name, v) ->
       (forall k' v', (k < k')%nat -> nvs !! k' <> Some (name, v')) ->
       parse_lines lines !! name = Some (ln, pos) ->
       field final ln pos = Some (str_value float_repr v)) /\
    (forall ln pos,
       (forall nv, In nv nvs -> parse_lines lines !! fst nv <> Some (ln, pos)) ->
       field final ln pos = field new ln pos) /\
    (forall i,
       (forall nv pos, In nv nvs -> parse_lines lines !! fst nv <> Some (i, pos)) ->
       final !! i = new !! i).
Proof.
  induction nvs as [|[name v] nvs IH]; intros new Hrel Hall.
  - exists new. simpl. repeat split; try easy.
  - inversion Hall as [|? ? [[ln pos] Hpm] Hall']; subst. simpl in Hpm.
    destruct (modify_step_ok lines new name v ln pos Hrel Hpm)
      as (new' & Hstep & Hrel' & Hset & Hframe & Hlines).
    destruct (IH new' Hrel' Hall') as (final & Hloop & Hrelf & Hvals & Hkeep & Hkeepl).
    exists final. split; [|split; [|split; [|split]]].
    + simpl. rewrite Hstep. exact Hloop.
    + exact Hrelf.
    + intros k name' v' ln' pos' Hk Hlast Hpm'.
      destruct k as [|k]; simpl in Hk.
      * injection Hk as <- <-.
        assert ((ln', pos') = (ln, pos)) as [= -> ->] by congruence.
        rewrite Hkeep; [easy|].
        intros [n2 v2] [j Hj]%list_elem_of_In%list_elem_of_lookup Hpm2.
        simpl in Hpm2.
        assert (n2 = name) as -> by (eapply parse_lines_inj; eauto).
        apply (Hlast (S j) v2); [lia|easy].
      * apply (Hvals k name' v'); [easy| |easy].
        intros k' v2 Hlt. apply (Hlast (S k') v2). lia.
    + intros ln' pos' Hno. rewrite Hkeep.
      * apply Hframe. intros [= -> ->]. apply (Hno (name, v)); [now left|easy].
      * intros nv Hin. apply Hno. now right.
    + intros i Hno. rewrite Hkeepl.
      * apply Hlines. intros ->. apply (Hno (name, v) pos); [now left|easy].
      * intros nv pos' Hin. apply Hno. now right.
Qed.

End ModifyFacts.

(** ** More on text *)

Lemma py_in_cons c d s : py_in c (d :: s) = Ascii.eqb d c || py_in c s.
Proof. unfold py_in. simpl. now rewrite (Ascii.eqb_sym c d). Qed.

Lemma py_in_app c a b : py_in c (a ++ b) = py_in c a || py_in c b.
Proof. unfold py_in. apply existsb_app. Qed.

(** The pieces of a joined list of pieces without the separator. *)
Lemma split_on_join sep xs :
  xs <> [] -> Forall (fun x => py_in sep x = false) xs ->
  split_on sep (join [sep] xs) = xs.
Proof.
  induction xs as [|x xs IH]; [easy|]. intros _ H.
  inversion H as [|? ? Hx Hxs]; subst.
  destruct xs as [|y xs]; [now apply split_on_absent|].
  change (join [sep] (x :: y :: xs)) with (x ++ sep :: join [sep] (y :: xs)).
  rewrite split_on_app by easy. now rewrite IH.
Qed.

Lemma lstrip_by_split p s :
  (exists pre, s = pre ++ lstrip_by p s) /\
  (forall c r, lstrip_by p s = c :: r -> p c = false).
Proof.
  induction s as [|a s [[pre IH1] IH2]]; simpl.
  - split; [now exists []|easy].
  - destruct (p a) eqn:E.
    + split; [|easy]. exists (a :: pre). simpl. now f_equal.
    + split; [now exists []|]. now intros c r [= <- _].
Qed.

(** What [strip] leaves starts and ends with a character it keeps, and is
    made of characters of the string. *)
Lemma strip_by_ends p s :
  (forall c r, strip_by p s = c :: r -> p c = false) /\
  (forall c f, strip_by p s = f ++ [c] -> p c = false) /\
  (forall c, In c (strip_by p s) -> In c s).
Proof.
  unfold strip_by.
  destruct (lstrip_by_split p s) as [[pre1 E1] H1].
  destruct (lstrip_by_split p (rev (lstrip_by p s))) as [[pre2 E2] H2].
  set (u := lstrip_by p s) in *.
  set (x := lstrip_by p (rev u)) in *.
  split; [|split].
  - intros c r E. apply (f_equal (@rev ascii)) in E.
    rewrite rev_involutive in E. simpl in E.
    rewrite E in E2. apply (f_equal (@rev ascii)) in E2.
    rewrite rev_involutive, app_assoc, rev_app_distr in E2. simpl in E2.
    exact (H1 c _ E2).
  - intros c f E. apply (f_equal (@rev ascii)) in E.
    rewrite rev_involutive, rev_app_distr in E. simpl in E.
    exact (H2 c _ E).
  - intros c Hin. apply in_rev in Hin.
    rewrite E1. apply in_or_app. right.
    apply in_rev. rewrite E2. apply in_or_app. now right.
Qed.

(** Nothing is stripped from a string without characters to strip. *)
Lemma strip_by_id p s :
  (forall c, In c s -> p c = false) -> strip_by p s = s.
Proof.
  intros H. unfold strip_by.
  assert (forall t, (forall c, In c t -> p c = false) -> lstrip_by p t = t) as Hl.
  { intros [|a t] Ht; [easy|]. simpl. now rewrite (Ht a) by now left. }
  rewrite (Hl s H), Hl, rev_involutive; [easy|].
  intros c Hc. apply H. now apply in_rev.
Qed.


(** ** The description of the lines and the parser *)

Lemma split_ws_blank ws s : blank ws -> split_ws (ws ++ s) = split_ws s.
Proof.
  induction 1 as [|c ws Hc _ IH]; [reflexivity|].
  change ((c :: ws) ++ s) with (c :: (ws ++ s)). cbn [split_ws]. now rewrite Hc.
Qed.

Lemma split_ws_blank_nil s : blank s -> split_ws s = [].
Proof.
  intros H. rewrite <- (app_nil_r s). now rewrite split_ws_blank.
Qed.

(** A word followed by nothing or by whitespace is one token. *)
Lemma split_ws_word_after t rest :
  word t -> after_word rest -> split_ws (t ++ rest) = t :: split_ws rest.
Proof.
  intros [Hne Ht] Hrest. revert Hne Ht.
  induction t as [|c t IH]; [easy|]. intros _ Ht.
  inversion Ht as [|? ? Hc Ht']; subst.
  destruct t as [|d t].
  - change ([c] ++ rest) with (c :: rest). cbn [split_ws]. rewrite Hc.
    destruct Hrest as [->|(d & r & -> & Hd)]; [reflexivity|]. now rewrite Hd.
  - change ((c :: d :: t) ++ rest) with (c :: (d :: t) ++ rest).
    cbn [split_ws]. rewrite Hc.
    change ((d :: t) ++ rest) with (d :: t ++ rest) at 1.
    cbv iota beta.
    inversion Ht' as [|? ? Hd _]; subst. rewrite Hd.
    change (d :: t ++ rest) with ((d :: t) ++ rest).
    now rewrite IH.
Qed.

Lemma tokens_of_split s ts : tokens_of s ts -> split_ws s = ts.
Proof.
  induction 1 as [s Hs|ws t rest ts Hws Ht Hrest _ IH].
  - now apply split_ws_blank_nil.
  - rewrite split_ws_blank, split_ws_word_after by easy. now rewrite IH.
Qed.

(** The longest front of a text whose characters all pass a test. *)
Lemma span (p : ascii -> bool) s :
  exists a b, s = a ++ b /\ Forall (fun c => p c = true) a /\
    (b = [] \/ exists c r, b = c :: r /\ p c = false).
Proof.
  induction s as [|c s (a & b & -> & Ha & Hb)].
  - exists [], []. repeat split; auto.
  - destruct (p c) eqn:E.
    + exists (c :: a), b. repeat split; auto.
    + exists [], (c :: a ++ b). repeat split; eauto.
Qed.

Lemma tokens_of_total s : exists ts, tokens_of s ts.
Proof.
  remember (length s) as n eqn:Hn. revert s Hn.
  induction n as [n IH] using lt_wf_ind. intros s ->.
  destruct (span is_space s) as (ws & b & -> & Hws & [->|(c & r & -> & Hc)]).
  - exists []. constructor. now rewrite app_nil_r.
  - destruct (span (fun c => negb (is_space c)) (c :: r))
      as (t & rest & E & Ht & Hrest).
    assert (word t) as Hword.
    { split.
      - intros ->. simpl in E. subst rest.
        destruct Hrest as [Hr|(c' & r' & [= <- <-] & Hc')]; [easy|].
        rewrite Hc in Hc'. discriminate Hc'.
      - eapply Forall_impl; [exact Ht|]. intros x Hx. simpl in Hx.
        now apply negb_true_iff in Hx. }
    assert (after_word rest) as Hafter.
    { destruct Hrest as [->|(c' & r' & -> & Hc')]; [now left|].
      right. exists c', r'. split; [easy|]. now apply negb_false_iff in Hc'. }
    destruct (IH (length rest)) with (s := rest) as [ts Hts]; [|easy|].
    { rewrite length_app, E, length_app. destruct Hword as [Hne _].
      destruct t; [easy|]. simpl. lia. }
    exists (t :: ts). rewrite E. now constructor.
Qed.

Lemma lstrip_blank ws s :
  blank ws -> lstrip_by is_space (ws ++ s) = lstrip_by is_space s.
Proof.
  induction 1 as [|c ws Hc _ IH]; [reflexivity|]. simpl. now rewrite Hc.
Qed.

(** What [strip] makes of a trimmed piece. *)
Lemma trimmed_strip p o :
  trimmed p o -> strip p = default [] o.
Proof.
  intros [q Hq|ws n ws' Hws (Hne & Hhd & Hlast) Hws']; simpl; unfold strip, strip_by.
  - rewrite <- (app_nil_r q), lstrip_blank by easy. reflexivity.
  - rewrite lstrip_blank by easy.
    destruct n as [|c r]; [easy|].
    change ((c :: r) ++ ws') with (c :: (r ++ ws')). cbn [lstrip_by].
    rewrite (Hhd c r eq_refl).
    change (c :: r ++ ws') with ((c :: r) ++ ws').
    rewrite rev_app_distr, lstrip_blank.
    + destruct (exists_last (l := c :: r)) as (f & d & E); [easy|].
      rewrite E, rev_app_distr. simpl. rewrite (Hlast d f E).
      simpl. now rewrite rev_involutive.
    + apply Forall_rev in Hws'. exact Hws'.
Qed.

Lemma trimmed_total p : exists o, trimmed p o.
Proof.
  destruct (span is_space p) as (ws & b & -> & Hws & [->|(c & r & -> & Hc)]).
  - exists None. constructor. now rewrite app_nil_r.
  - destruct (span is_space (rev (c :: r))) as (wr & nr & E & Hwr & Hnr).
    assert (c :: r = rev nr ++ rev wr) as Eb.
    { rewrite <- rev_app_distr, <- E. now rewrite rev_involutive. }
    destruct Hnr as [->|(d & r' & -> & Hd)].
    { rewrite app_nil_r in E. exfalso.
      assert (In c (rev (c :: r))) as Hin by (apply in_rev; rewrite rev_involutive; now left).
      rewrite E in Hin. unfold blank in *.
      rewrite List.Forall_forall in Hwr. apply Hwr in Hin. congruence. }
    exists (Some (rev (d :: r'))). rewrite Eb.
    constructor; [easy| |now apply Forall_rev].
    split; [|split].
    + simpl. now destruct (rev r').
    + intros c0 r0 E0. rewrite E0 in Eb. injection Eb as <- _. exact Hc.
    + intros c0 f E0. simpl in E0. apply app_inj_tail in E0 as [_ <-]. exact Hd.
Qed.

Lemma join_split_on sep s : join [sep] (split_on sep s) = s.
Proof.
  induction s as [|c s IH]; [reflexivity|]. simpl.
  destruct (split_on_cons sep s) as (p & ps & E). rewrite E in *.
  destruct (Ascii.eqb c sep) eqn:Ec.
  - apply Ascii.eqb_eq in Ec. subst c.
    change (join [sep] ([] :: p :: ps)) with ([] ++ [sep] ++ join [sep] (p :: ps)).
    now rewrite IH.
  - destruct ps as [|q ps].
    + simpl in *. now rewrite IH.
    + change (join [sep] ((c :: p) :: q :: ps))
        with (c :: (p ++ [sep] ++ join [sep] (q :: ps))).
      change (join [sep] (p :: q :: ps))
        with (p ++ [sep] ++ join [sep] (q :: ps)) in IH.
      now rewrite IH.
Qed.

(** The names that the program reads in a segment are the names listed in
    it. *)
Lemma names_of_code segment names :
  names_of segment names ->
  map (fun n => strip_comma (strip n))
      (filter (fun n => truthy (strip n) = true) (split_on comma segment))
  = names.
Proof.
  intros (pieces & opts & Hne & -> & Hfree & Htrim & ->).
  rewrite split_on_join by easy. clear Hne.
  induction Htrim as [|p o pieces opts Hp _ IH]; [reflexivity|].
  inversion Hfree as [|? ? Hfp Hfree']; subst.
  pose proof (trimmed_strip p o Hp) as Hs.
  destruct Hp as [q Hq|ws n ws' Hws (Hn & Hhd & Hlast) Hws'].
  - simpl in Hs. rewrite filter_cons_False by (rewrite Hs; easy).
    simpl. now apply IH.
  - simpl in Hs. rewrite filter_cons_True by (rewrite Hs; now destruct n).
    simpl. rewrite Hs. f_equal; [|now apply IH].
    apply strip_by_id. intros c Hc. apply Ascii.eqb_neq. intros <-.
    apply py_in_false in Hfp. apply Hfp.
    apply in_or_app. right. apply in_or_app. now left.
Qed.

Lemma names_of_total segment : exists names, names_of segment names.
Proof.
  assert (forall pieces : list pystr, exists opts, Forall2 trimmed pieces opts) as Hall.
  { induction pieces as [|p pieces [opts IH]]; [exists []; constructor|].
    destruct (trimmed_total p) as [o Ho]. exists (o :: opts). now constructor. }
  destruct (Hall (split_on comma segment)) as [opts Hopts].
  exists (omap id opts), (split_on comma segment), opts.
  split; [|split; [|split; [|split]]]; try easy.
  - destruct (split_on_cons comma segment) as (p & ps & ->). easy.
  - symmetry. apply join_split_on.
  - apply split_on_pieces_free.
Qed.

Lemma cut_at_hd c s front back :
  cut_at c s front back -> hd [] (split_on c s) = front.
Proof.
  intros (-> & Hf & [->|(r & ->)]).
  - rewrite app_nil_r. now rewrite split_on_absent.
  - now rewrite split_on_app.
Qed.

Lemma cut_at_total c s : exists front back, cut_at c s front back.
Proof.
  destruct (split_on_shape c s) as (p & ps & _ & Hp & [[_ ->]|(s' & -> & _)]).
  - exists p, []. split; [now rewrite app_nil_r|]. split; [easy|now left].
  - exists p, (c :: s'). split; [easy|]. split; [easy|]. right. eauto.
Qed.

Lemma described_parts before after comment rest :
  py_in bang before = false -> cut_at bang after comment rest ->
  py_in bang (before ++ bang :: after) = true /\
  hd [] (split_on bang (before ++ bang :: after)) = before /\
  nth 1 (split_on bang (before ++ bang :: after)) [] = comment.
Proof.
  intros Hb Hcut. rewrite split_on_app by easy. split; [|split; [reflexivity|]].
  - rewrite py_in_app, py_in_cons, Ascii.eqb_refl. apply orb_true_r.
  - apply cut_at_hd in Hcut.
    destruct (split_on_cons bang after) as (p & ps & E). rewrite E in *.
    exact Hcut.
Qed.

(** The description of a line is what the functions of the program read
    on it, and every line has one. *)
Lemma described_reading line d :
  described line d <-> d = line_reading line.
Proof.
  assert (forall l d', described l d' -> d' = line_reading l) as Hsound.
  { intros l d' [l' Hl|before after comment rest Hb Hcut Hc
                 |before after comment rest segment rest' tokens names
                    Hb Hcut Hc Hseg Htok Hnames]; unfold line_reading, annotated.
    - now rewrite Hl.
    - destruct (described_parts before after comment rest Hb Hcut) as (-> & _ & ->).
      now rewrite Hc.
    - destruct (described_parts before after comment rest Hb Hcut) as (H1 & H2 & H3).
      rewrite H1, H3, Hc. simpl. unfold line_values, line_names.
      rewrite H2, H3, (tokens_of_split _ _ Htok), (cut_at_hd _ _ _ _ Hseg).
      now rewrite (names_of_code _ _ Hnames). }
  split; [apply Hsound|]. intros ->.
  assert (exists d', described line d') as [d' Hd'].
  { destruct (py_in bang line) eqn:Hbang; [|exists None; now constructor].
    destruct (split_on_shape bang line) as (before & ps & _ & Hb & [[_ ->]|(after & -> & _)]).
    { congruence. }
    destruct (cut_at_total bang after) as (comment & rest & Hcut).
    destruct (py_in comma comment) eqn:Hc.
    - destruct (cut_at_total lparen comment) as (segment & rest' & Hseg).
      destruct (tokens_of_total before) as [tokens Htok].
      destruct (names_of_total segment) as [names Hnames].
      exists (Some (tokens, names)). econstructor; eassumption.
    - exists None. econstructor; eassumption. }
  now rewrite <- (Hsound _ _ Hd').
Qed.

Lemma entry_listed lines name idx pos :
  entry lines name idx pos <-> listed lines name idx pos.
Proof.
  unfold entry, listed, in_line. split.
  - intros (line & tokens & names & Hl & Hd & Hn & Hp).
    apply described_reading in Hd. unfold line_reading in Hd.
    destruct (annotated line) eqn:Ha; [|easy]. injection Hd as -> ->.
    exists line. easy.
  - intros (line & Hl & Ha & Hn & Hp).
    exists line, (line_values line), (line_names line).
    split; [easy|]. split; [|easy].
    apply described_reading. unfold line_reading. now rewrite Ha.
Qed.

(** ** The claims about the parser and the rewriter *)

Lemma annotated_lacking line :
  py_in bang line = false \/ py_in comma line = false -> annotated line = false.
Proof.
  unfold annotated. intros [H|H]; [now rewrite H|].
  apply andb_false_intro2. apply py_in_false. intros Hin.
  apply py_in_false in H. apply H.
  destruct (nth_in_or_default 1 (split_on bang line) []) as [Hn|Hn].
  - eapply split_on_pieces_sub; eauto.
  - rewrite Hn in Hin. easy.
Qed.

(** C7. [parse_input_file] parses the lines it read, and what it makes of
    them is told by the description of the lines: every line has exactly
    one description.  The field map gives a name the place [(idx, pos)]
    exactly when the name is the [pos]-th name listed in the comment of
    line [idx], a token stands at [pos] before the marker (names listed
    beyond the tokens are ignored), and no later entry lists the same name
    (last wins); a name listed nowhere has no entry; the field at the place
    of a name is the token of that position; a line without the marker or
    without the separator leaves the map as it is.  On the three lines
    [10 20 ! a, b (cell sizes)], [title line] and [0.5 7 9 ! c, a, d, e]
    the map is: [a] at (2, 1), its later place, [b] at (0, 1), [c] at
    (2, 0), [d] at (2, 2), and nothing for [e], the fourth name of a line
    of three tokens. *)
Theorem parse_positional_last_wins (lines : list pystr) :
  (forall content,
     parse_input_file content = (readlines content, parse_lines (readlines content))) /\
  (forall line,
     exists d, described line d /\ forall d', described line d' -> d' = d) /\
  (forall name idx pos,
     parse_lines lines !! name = Some (idx, pos) <->
     entry lines name idx pos /\
     forall idx' pos', entry lines name idx' pos' -> not_after idx' pos' idx pos) /\
  (forall name,
     parse_lines lines !! name = None <->
     forall idx pos, ~ entry lines name idx pos) /\
  (forall name idx pos line tokens names,
     lines !! idx = Some line -> described line (Some (tokens, names)) ->
     names !! pos = Some name -> (pos < length tokens)%nat ->
     is_Some (tokens !! pos) /\ field lines idx pos = tokens !! pos) /\
  (forall pm idx line,
     described line None -> parse_line pm (idx, line) = pm) /\
  (forall pm idx line,
     py_in bang line = false \/ py_in comma line = false ->
     parse_line pm (idx, line) = pm) /\
  (described (lit "10 20 ! a, b (cell sizes)" ++ [newline])
     (Some ([lit "10"; lit "20"], [lit "a"; lit "b"])) /\
   described (lit "title line" ++ [newline]) None /\
   described (lit "0.5 7 9 ! c, a, d, e" ++ [newline])
     (Some ([lit "0.5"; lit "7"; lit "9"], [lit "c"; lit "a"; lit "d"; lit "e"])) /\
   parse_lines ex_lines !! lit "a" = Some (2%nat, 1%nat) /\
   parse_lines ex_lines !! lit "b" = Some (0%nat, 1%nat) /\
   parse_lines ex_lines !! lit "c" = Some (2%nat, 0%nat) /\
   parse_lines ex_lines !! lit "d" = Some (2%nat, 2%nat) /\
   parse_lines ex_lines !! lit "e" = None).
Proof.
  split; [reflexivity|]. split; [|split; [|split; [|split; [|split; [|split]]]]].
  - intros line. exists (line_reading line). split; [now apply described_reading|].
    intros d' Hd'. now apply described_reading.
  - intros name idx pos. rewrite parse_lines_spec, entry_listed.
    split; intros [H1 H2]; (split; [exact H1|]); intros idx' pos' H;
      apply H2; now apply entry_listed.
  - intros name. rewrite eq_None_not_Some, parse_lines_is_Some. split.
    + intros H idx pos Hl. apply H. exists idx, pos. now apply entry_listed.
    + intros H (idx & pos & Hl). apply (H idx pos). now apply entry_listed.
  - intros name idx pos line tokens names Hl Hd Hn Hp.
    apply described_reading in Hd. unfold line_reading in Hd.
    destruct (annotated line); [|easy]. injection Hd as -> ->.
    split; [now apply lookup_lt_is_Some|]. unfold field. now rewrite Hl.
  - intros pm idx line Hd. apply described_reading in Hd.
    unfold line_reading in Hd. unfold parse_line. simpl.
    now destruct (annotated line).
  - intros pm idx line H. unfold parse_line. simpl.
    now rewrite (annotated_lacking line H).
  - repeat split; try (apply described_reading); vm_compute; reflexivity.
Qed.

Lemma float_show_token x : is_token (float_show x) = true.
Proof.
  assert (forall a b, is_token a = true -> forallb token_char b = true ->
                      is_token (a ++ b) = true) as Happ.
  { intros a b [Ha Hf]%andb_prop Hb. unfold is_token.
    rewrite forallb_app, Hf, Hb. destruct a; [easy|reflexivity]. }
  assert (forall s : bool, forall b, is_token b = true ->
            is_token ((if s then lit "-" else []) ++ b) = true) as Hsign.
  { intros [] b Hb; [|easy]. unfold is_token in *.
    apply andb_prop in Hb as [_ Hb]. simpl. exact Hb. }
  destruct x as [s|s| |s m e]; try (destruct s; reflexivity); [reflexivity|].
  unfold float_show. apply Hsign. apply Happ; [apply str_int_token|].
  pose proof (str_int_token e) as [_ He]%andb_prop. simpl. exact He.
Qed.

Lemma zip_entries lines (names : list pystr) (combo : list value) :
  Forall (fun n => is_Some (parse_lines lines !! n)) names ->
  Forall (fun nv => is_Some (parse_lines lines !! fst nv)) (zip names combo).
Proof.
  intros H. revert combo. induction H as [|n names Hn _ IH]; intros [|v combo];
    simpl; constructor; auto.
Qed.

(** The round trip on the lines in memory.  Let the field map be the one
    parsed from the lines, and let every scanned name have an entry.  Then
    [modify_input] returns lines on which the loop of the parser, run on
    them as they are, gives the same field map (the same place for every
    name), and the field at the place of each scanned name is [str] of its
    value in the combination (of the value given last, should a name be
    scanned twice).  What [parse_input_file] reads once the lines are
    written to a file is another matter, see below. *)
Theorem modify_then_parse_roundtrip
    (float_repr : float -> pystr)
    (float_repr_token : forall x, is_token (float_repr x) = true)
    (lines : list pystr) (param_names : list pystr) (combo : list value) :
  Forall (fun n => is_Some (parse_lines lines !! n)) param_names ->
  exists new,
    modify_input float_repr lines (parse_lines lines) combo param_names = Ok new /\
    parse_lines new = parse_lines lines /\
    (forall k name v ln pos,
       param_names !! k = Some name -> combo !! k = Some v ->
       (forall k', (k < k')%nat -> (k' < length combo)%nat ->
                   param_names !! k' <> Some name) ->
       parse_lines lines !! name = Some (ln, pos) ->
       field new ln pos = Some (str_value float_repr v)).
Proof.
  intros Hall.
  destruct (modify_loop_ok float_repr float_repr_token lines
              (zip param_names combo) lines)
    as (new & Hloop & Hrel & Hvals & _).
  { apply Forall2_same_length_lookup. split; [easy|].
    intros i l l' H1 H2. assert (l = l') as -> by congruence.
    apply line_rel_refl. }
  { now apply zip_entries. }
  exists new. split; [exact Hloop|]. split; [now apply parse_lines_rel|].
  intros k name v ln pos Hn Hv Hlast Hpm.
  apply (Hvals k name v); [|  |easy].
  - apply lookup_zip_with_Some. eauto.
  - intros k' v' Hlt (x & y & [= <- <-] & Hx & Hy)%lookup_zip_with_Some.
    apply (Hlast k'); [easy| |easy]. now apply lookup_lt_Some in Hy.
Qed.

(** The round trip on a template of three lines, two scanned names, an
    integer and a float value. *)
Lemma modify_then_parse_roundtrip_witness :
  exists new,
    modify_input float_show ex_lines (parse_lines ex_lines)
      [VInt 12; VFloat (decimal 25 2)] [lit "b"; lit "c"] = Ok new /\
    parse_lines new = parse_lines ex_lines /\
    (forall k name v ln pos,
       [lit "b"; lit "c"] !! k = Some name ->
       [VInt 12; VFloat (decimal 25 2)] !! k = Some v ->
       (forall k', (k < k')%nat ->
                   (k' < length [VInt 12; VFloat (decimal 25 2)])%nat ->
                   [lit "b"; lit "c"] !! k' <> Some name) ->
       parse_lines ex_lines !! name = Some (ln, pos) ->
       field new ln pos = Some (str_value float_show v)).
Proof.
  apply (modify_then_parse_roundtrip float_show float_show_token ex_lines).
  repeat constructor; apply (bool_decide_unpack _); vm_compute; exact I.
Defined.

(** C1, at a template with a second marker on its first line.  The lines
    and the field map are those that [parse_input_file] reads from the
    template.  The lines that [modify_input] returns still give the same
    map to the loop of the parser run on them as they are; but written with
    [writelines] and parsed again by [parse_input_file], which is the only
    way to re-parse, the first two lines are one line, the names [b], [c]
    and [d] have lost their places, and a name [b 3 4] has appeared. *)
Theorem file_roundtrip_loses_names_at_second_marker (float_repr : float -> pystr) :
  parse_input_file (concat two_marker_lines)
  = (two_marker_lines, parse_lines two_marker_lines) /\
  parse_lines two_marker_lines !! lit "a" = Some (0%nat, 0%nat) /\
  parse_lines two_marker_lines !! lit "b" = Some (0%nat, 1%nat) /\
  parse_lines two_marker_lines !! lit "c" = Some (1%nat, 0%nat) /\
  parse_lines two_marker_lines !! lit "d" = Some (1%nat, 1%nat) /\
  exists new,
    modify_input float_repr two_marker_lines (parse_lines two_marker_lines)
      [VInt 9] [lit "a"] = Ok new /\
    parse_lines new = parse_lines two_marker_lines /\
    fst (parse_input_file (writelines new))
    = [lit "9 2 ! a, b 3 4 ! c, d" ++ [newline]] /\
    snd (parse_input_file (writelines new)) !! lit "a" = Some (0%nat, 0%nat) /\
    snd (parse_input_file (writelines new)) !! lit "b" = None /\
    snd (parse_input_file (writelines new)) !! lit "c" = None /\
    snd (parse_input_file (writelines new)) !! lit "d" = None /\
    snd (parse_input_file (writelines new)) !! lit "b 3 4" = Some (0%nat, 1%nat).
Proof.
  split; [vm_compute; reflexivity|].
  repeat (split; [vm_compute; reflexivity|]).
  exists [lit "9 2 ! a, b "; lit "3 4 ! c, d" ++ [newline]].
  split; [vm_compute; reflexivity|].
  split.
  { apply parse_lines_rel. repeat constructor. }
  repeat split; vm_compute; reflexivity.
Qed.

(** C8, at a line whose comment holds a second marker.  The fields are
    rewritten, but only the text between the first and the second marker is
    put back: the rest of the comment and the line end are lost, and the
    next line follows on the same line of the written file. *)
Theorem modify_input_drops_after_second_marker (float_repr : float -> pystr) :
  modify_input float_repr two_marker_lines (parse_lines two_marker_lines)
    [VInt 9] [lit "a"]
  = Ok [lit "9 2 ! a, b "; lit "3 4 ! c, d" ++ [newline]] /\
  lit "9 2 ! a, b " <> lit "9 2 ! a, b ! note" ++ [newline] /\
  readlines (writelines [lit "9 2 ! a, b "; lit "3 4 ! c, d" ++ [newline]])
  = [lit "9 2 ! a, b 3 4 ! c, d" ++ [newline]].
Proof.
  split; [|split].
  - vm_compute. reflexivity.
  - discriminate.
  - vm_compute. reflexivity.
Qed.

(** What [modify_input] leaves alone.  With the field map parsed from the
    lines and every scanned name in it, the result has as many lines; a
    line that holds no place of a scanned name is unchanged; every field
    that is not the place of a scanned name is unchanged; and on every line
    the parser reads the same names and finds the same text between the
    first marker and the next. *)
Theorem modify_input_frame
    (float_repr : float -> pystr)
    (float_repr_token : forall x, is_token (float_repr x) = true)
    (lines : list pystr) (param_names : list pystr) (combo : list value) :
  Forall (fun n => is_Some (parse_lines lines !! n)) param_names ->
  exists new,
    modify_input float_repr lines (parse_lines lines) combo param_names = Ok new /\
    length new = length lines /\
    (forall i,
       (forall name pos, In name param_names ->
          parse_lines lines !! name <> Some (i, pos)) ->
       new !! i = lines !! i) /\
    (forall ln pos,
       (forall name, In name param_names ->
          parse_lines lines !! name <> Some (ln, pos)) ->
       field new ln pos = field lines ln pos) /\
    (forall i l l', lines !! i = Some l -> new !! i = Some l' ->
       line_names l' = line_names l /\
       length (line_values l') = length (line_values l) /\
       first_comment l' = first_comment l).
Proof.
  intros Hall.
  destruct (modify_loop_ok float_repr float_repr_token lines
              (zip param_names combo) lines)
    as (new & Hloop & Hrel & _ & Hfield & Hline).
  { apply Forall2_same_length_lookup. split; [easy|].
    intros i l l' H1 H2. assert (l = l') as -> by congruence.
    apply line_rel_refl. }
  { now apply zip_entries. }
  assert (forall nv, In nv (zip param_names combo) -> In (fst nv) param_names)
    as Hzip.
  { intros [n v] [k Hk]%list_elem_of_In%list_elem_of_lookup.
    apply lookup_zip_with_Some in Hk as (x & y & [= <- <-] & Hx & _).
    simpl. eapply list_elem_of_In, list_elem_of_lookup_2, Hx. }
  exists new. split; [exact Hloop|].
  split; [now apply Forall2_length in Hrel|]. split; [|split].
  - intros i Hno. apply Hline. intros nv pos Hin. apply Hno. now apply Hzip.
  - intros ln pos Hno. apply Hfield. intros nv Hin. apply Hno. now apply Hzip.
  - intros i l l' Hl Hl'.
    destruct (Forall2_lookup_lr _ _ _ _ _ _ Hrel Hl' Hl) as (_ & Hn & Hv & Hc).
    easy.
Qed.

(** The frame on the template of three lines. *)
Lemma modify_input_frame_witness :
  Forall (fun n => is_Some (parse_lines ex_lines !! n)) [lit "b"; lit "c"] /\
  exists new,
    modify_input float_show ex_lines (parse_lines ex_lines)
      [VInt 12; VFloat (decimal 25 2)] [lit "b"; lit "c"] = Ok new /\
    length new = length ex_lines /\
    (forall i,
       (forall name pos, In name [lit "b"; lit "c"] ->
          parse_lines ex_lines !! name <> Some (i, pos)) ->
       new !! i = ex_lines !! i) /\
    (forall ln pos,
       (forall name, In name [lit "b"; lit "c"] ->
          parse_lines ex_lines !! name <> Some (ln, pos)) ->
       field new ln pos = field ex_lines ln pos) /\
    (forall i l l', ex_lines !! i = Some l -> new !! i = Some l' ->
       line_names l' = line_names l /\
       length (line_values l') = length (line_values l) /\
       first_comment l' = first_comment l).
Proof.
  assert (Forall (fun n => is_Some (parse_lines ex_lines !! n)) [lit "b"; lit "c"])
    as H by (repeat constructor; apply (bool_decide_unpack _); vm_compute; exact I).
  split; [exact H|].
  apply (modify_input_frame float_show float_show_token ex_lines _ _ H).
Defined.

(** ** The range expander: integer ranges and the product *)

Section ExpanderFacts.

Lemma range_len_nonneg start stop step : step <> 0 -> 0 <= range_len start stop step.
Proof.
  intros Hs. unfold range_len.
  destruct (Z.ltb_spec 0 step); [destruct (Z.ltb_spec start stop)|
                                  destruct (Z.ltb_spec stop start)]; try lia.
  - assert (0 <= (stop - start - 1) / step) by (apply Z.div_pos; lia). lia.
  - assert (0 <= (start - stop - 1) / - step) by (apply Z.div_pos; lia). lia.
Qed.

Lemma div_bound a b q : 0 < b -> (q <= a / b <-> q * b <= a).
Proof.
  intros Hb. split; intros H.
  - pose proof (Z.mul_div_le a b Hb). nia.
  - apply Z.div_le_lower_bound; lia.
Qed.

(** The length of the inclusive range. *)
Lemma range_len_walk start end_ step (i : nat) :
  step <> 0 ->
  (Z.of_nat i < range_len start (end_ + (if 0 <? step then 1 else -1)) step
   <-> on_walk start end_ step i).
Proof.
  intros Hs. unfold range_len, on_walk.
  destruct (Z.ltb_spec 0 step) as [Hpos|Hneg].
  - destruct (Z.ltb_spec start (end_ + 1)) as [Hlt|Hge].
    + replace (end_ + 1 - start - 1) with (end_ - start) by lia.
      pose proof (div_bound (end_ - start) step (Z.of_nat i) Hpos). lia.
    + split; [lia|]. intros [[_ H]|[H _]]; nia.
  - destruct (Z.ltb_spec (end_ + -1) start) as [Hlt|Hge].
    + replace (start - (end_ + -1) - 1) with (start - end_) by lia.
      pose proof (div_bound (start - end_) (- step) (Z.of_nat i)). lia.
    + split; [lia|]. intros [[H _]|[_ H]]; nia.
Qed.

Lemma product_snoc {A} (pools : list (list A)) pool :
  product (pools ++ [pool]) =
  flat_map (fun x => map (fun y => x ++ [y]) pool) (product pools).
Proof. unfold product. now rewrite fold_left_app. Qed.

Lemma flat_map_block_length {A B} (f : A -> list B) n l :
  (forall x, length (f x) = n) -> length (flat_map f l) = (length l * n)%nat.
Proof.
  intros Hf. induction l as [|x l IH]; simpl; [easy|].
  now rewrite length_app, Hf, IH.
Qed.

Lemma flat_map_block_lookup {A B} (f : A -> list B) n l i j x y :
  (forall x, length (f x) = n) ->
  l !! i = Some x -> f x !! j = Some y ->
  flat_map f l !! (i * n + j)%nat = Some y.
Proof.
  intros Hf. revert i. induction l as [|a l IH]; intros i Hi Hj; [easy|].
  simpl. destruct i as [|i]; simpl in Hi.
  - injection Hi as ->. simpl. rewrite lookup_app_l; [easy|].
    now apply lookup_lt_Some in Hj.
  - rewrite lookup_app_r; rewrite Hf; [|lia].
    replace (S i * n + j - n)%nat with (i * n + j)%nat by lia. now apply IH.
Qed.

Lemma prod_lengths_snoc {A} (pools : list (list A)) pool :
  prod_lengths (pools ++ [pool]) = (prod_lengths pools * length pool)%nat.
Proof.
  unfold prod_lengths. induction pools as [|p pools IH]; simpl; [lia|].
  rewrite IH. lia.
Qed.

(** The size of the product is the product of the sizes. *)
Lemma product_length {A} (pools : list (list A)) :
  length (product pools) = prod_lengths pools.
Proof.
  induction pools as [|pool pools IH] using rev_ind; [easy|].
  rewrite product_snoc, prod_lengths_snoc, <- IH.
  apply flat_map_block_length. intros x. apply length_map.
Qed.

(** Every tuple has one component per pool. *)
Lemma product_width {A} (pools : list (list A)) c :
  In c (product pools) -> length c = length pools.
Proof.
  revert c. induction pools as [|pool pools IH] using rev_ind; intros c.
  - intros [<-|[]]. easy.
  - rewrite product_snoc, in_flat_map. intros (x & Hx & Hc).
    apply in_map_iff in Hc as (y & <- & _).
    rewrite !length_app, (IH x Hx). easy.
Qed.

(** The last pool varies fastest. *)
Lemma product_last_fastest {A} (pools : list (list A)) pool i j c y :
  product pools !! i = Some c -> pool !! j = Some y ->
  product (pools ++ [pool]) !! (i * length pool + j)%nat = Some (c ++ [y]).
Proof.
  intros Hi Hj. rewrite product_snoc.
  apply flat_map_block_lookup with (x := c); [|easy|].
  - intros x. apply length_map.
  - now rewrite list_lookup_fmap, Hj.
Qed.

Lemma expand_specs_spec fuel specs : forall names lists names' lists',
  expand_specs fuel specs names lists = Some (Ok (names', lists')) ->
  names' = names ++ map sp_name specs /\
  exists vs, lists' = lists ++ vs /\
    Forall2 (fun sp vals => spec_values fuel sp = Some (Ok vals)) specs vs.
Proof.
  induction specs as [|sp specs IH]; intros names lists names' lists'; simpl.
  - intros [= <- <-]. rewrite !app_nil_r. split; [easy|].
    exists []. rewrite app_nil_r. split; [easy|constructor].
  - destruct (spec_values fuel sp) as [[vals|e]|] eqn:E; try easy.
    intros H. apply IH in H as (-> & vs & -> & Hvs).
    rewrite <- !app_assoc. split; [easy|].
    exists (vals :: vs). split; [easy|]. now constructor.
Qed.

Lemma spec_values_int fuel sp :
  int_stepping sp -> exists vals, spec_values fuel sp = Some (Ok vals).
Proof.
  intros (start & end_ & step & Hs & He & Hst & Hne).
  unfold spec_values, py_range. rewrite Hs, He, Hst.
  apply Z.eqb_neq in Hne. rewrite Hne. simpl. eauto.
Qed.

Lemma expand_specs_int fuel specs : forall names lists,
  Forall int_stepping specs ->
  exists r, expand_specs fuel specs names lists = Some (Ok r).
Proof.
  induction specs as [|sp specs IH]; intros names lists H; simpl; [eauto|].
  inversion H as [|? ? Hsp Hrest]; subst.
  destruct (spec_values_int fuel sp Hsp) as (vals & ->). now apply IH.
Qed.

End ExpanderFacts.

Lemma flat_map_NoDup {A B} (f : A -> list B) l :
  NoDup l -> (forall x, In x l -> NoDup (f x)) ->
  (forall x x' y, In x l -> In x' l -> In y (f x) -> In y (f x') -> x = x') ->
  NoDup (flat_map f l).
Proof.
  induction 1 as [|a l Ha Hl IH]; intros Hf Hinj; simpl; [constructor|].
  apply NoDup_app. split; [|split].
  - apply Hf. now left.
  - intros y Hy Hy'. apply list_elem_of_In in Hy, Hy'.
    apply in_flat_map in Hy' as (x & Hx & Hyx). apply Ha.
    assert (a = x) as -> by (apply (Hinj a x y); simpl; auto).
    now apply list_elem_of_In.
  - apply IH.
    + intros x Hx. apply Hf. now right.
    + intros x x' y Hx Hx'. apply Hinj; now right.
Qed.

(** The product of duplicate-free value lists holds no combination twice. *)
Lemma product_NoDup {A} (pools : list (list A)) :
  Forall NoDup pools -> NoDup (product pools).
Proof.
  induction pools as [|pool pools IH] using rev_ind; intros H.
  - repeat constructor. now intros ?%elem_of_nil.
  - apply Forall_app in H as [Hpools Hpool].
    inversion Hpool as [|? ? Hp _]; subst.
    rewrite product_snoc. apply flat_map_NoDup.
    + now apply IH.
    + intros x _. apply NoDup_fmap_2; [|easy].
      intros y y' E. now apply app_inj_tail in E.
    + intros x x' z _ _ (y & <- & _)%in_map_iff (y' & E & _)%in_map_iff.
      now apply app_inj_tail in E.
Qed.

(** ** The claims about integer ranges and the product *)

(** C9. For an all-integer spec with a non-zero step the value list is the
    inclusive walk: the values [start + i * step], in order, for exactly
    those [i] at which the value has not passed [end] in the direction of
    [step]; [end] itself is in the list when the walk reaches it exactly.
    The spec (1, 5, 2) gives [1, 3, 5]. *)
Theorem integer_range_inclusive_walk
    (fuel : nat) (name : pystr) (start end_ step : Z) :
  step <> 0 ->
  exists walk,
    spec_values fuel {| sp_name := name; sp_start := VInt start;
                        sp_end := VInt end_; sp_step := VInt step |}
      = Some (Ok (map VInt walk)) /\
    walk = map (fun i : nat => start + Z.of_nat i * step) (seq 0 (length walk)) /\
    (forall i : nat, (i < length walk)%nat <-> on_walk start end_ step i) /\
    (In end_ walk <-> exists i : nat, end_ = start + Z.of_nat i * step) /\
    generate_param_combinations fuel [int_spec "n" 1 5 2]
      = Some (Ok ([lit "n"], [[VInt 1]; [VInt 3]; [VInt 5]])).
Proof.
  intros Hs.
  set (stop := end_ + (if 0 <? step then 1 else -1)).
  set (n := Z.to_nat (range_len start stop step)).
  exists (map (fun i : nat => start + Z.of_nat i * step) (seq 0 n)).
  assert (forall i : nat, (i < n)%nat <-> on_walk start end_ step i) as Hwalk.
  { intros i. rewrite <- (range_len_walk start end_ step i Hs).
    fold stop. pose proof (range_len_nonneg start stop step Hs). lia. }
  rewrite length_map, length_seq.
  split; [|split; [|split; [|split]]].
  - unfold spec_values, py_range. simpl. fold stop.
    apply Z.eqb_neq in Hs. now rewrite Hs.
  - reflexivity.
  - exact Hwalk.
  - rewrite in_map_iff. split.
    + intros (i & <- & _). now exists i.
    + intros (i & ->). exists i. split; [easy|].
      apply in_seq. split; [lia|]. simpl. apply Hwalk.
      unfold on_walk. lia.
  - reflexivity.
Qed.

(** The walk of the spec (5, 0, -2): 5, 3, 1. *)
Lemma integer_range_inclusive_walk_witness :
  (-2) <> 0 /\
  exists walk,
    spec_values 0 {| sp_name := lit "n"; sp_start := VInt 5;
                     sp_end := VInt 0; sp_step := VInt (-2) |}
      = Some (Ok (map VInt walk)) /\
    walk = map (fun i : nat => 5 + Z.of_nat i * (-2)) (seq 0 (length walk)) /\
    (forall i : nat, (i < length walk)%nat <-> on_walk 5 0 (-2) i) /\
    (In 0 walk <-> exists i : nat, 0 = 5 + Z.of_nat i * (-2)) /\
    generate_param_combinations 0 [int_spec "n" 1 5 2]
      = Some (Ok ([lit "n"], [[VInt 1]; [VInt 3]; [VInt 5]])).
Proof.
  split; [lia|]. apply (integer_range_inclusive_walk 0 (lit "n") 5 0 (-2)). lia.
Defined.

(** C5. When [generate_param_combinations] returns, the names are those of
    the specs in order and the combinations are the product of the value
    lists of the specs: as many as the product of the lengths of the lists,
    each with one value per spec, and ordered so that the last spec varies
    fastest (the combination at [i * n + j] extends the [i]-th combination
    of the earlier specs by the [j]-th of the [n] values of the last spec).
    For two lists of lengths [m] and [n] the size is [m * n].  On
    all-integer specs with non-zero steps it always returns. *)
Theorem combinations_are_nested_product (fuel : nat) (scan_specs : list scan_spec) :
  (Forall int_stepping scan_specs ->
   exists r, generate_param_combinations fuel scan_specs = Some (Ok r)) /\
  (forall names combos,
     generate_param_combinations fuel scan_specs = Some (Ok (names, combos)) ->
     names = map sp_name scan_specs /\
     exists lists,
       Forall2 (fun sp vals => spec_values fuel sp = Some (Ok vals)) scan_specs lists /\
       combos = product lists /\
       length combos = prod_lengths lists /\
       (forall c, In c combos -> length c = length scan_specs) /\
       (forall init last i j c y,
          lists = init ++ [last] ->
          product init !! i = Some c -> last !! j = Some y ->
          combos !! (i * length last + j)%nat = Some (c ++ [y])) /\
       (forall l1 l2, lists = [l1; l2] ->
          length combos = (length l1 * length l2)%nat)).
Proof.
  unfold generate_param_combinations. split.
  - intros H. destruct (expand_specs_int fuel scan_specs [] [] H) as ([n l] & ->).
    eauto.
  - intros names combos.
    destruct (expand_specs fuel scan_specs [] []) as [[[n l]|e]|] eqn:E; try easy.
    intros [= <- <-]. apply expand_specs_spec in E as (-> & vs & -> & Hvs).
    simpl. split; [easy|]. exists vs. split; [easy|]. split; [easy|].
    split; [apply product_length|]. split; [|split].
    + intros c Hc. rewrite (product_width _ _ Hc).
      symmetry. eapply Forall2_length, Hvs.
    + intros init last i j c y ->. apply product_last_fastest.
    + intros l1 l2 ->. rewrite product_length. unfold prod_lengths. simpl. lia.
Qed.

(** The six combinations of [ex_specs]. *)
Lemma combinations_are_nested_product_witness :
  generate_param_combinations 5 ex_specs
    = Some (Ok ([lit "a"; lit "b"], ex_combos)) /\
  [lit "a"; lit "b"] = map sp_name ex_specs /\
  exists lists,
    Forall2 (fun sp vals => spec_values 5 sp = Some (Ok vals)) ex_specs lists /\
    ex_combos = product lists /\
    length ex_combos = prod_lengths lists /\
    (forall c, In c ex_combos -> length c = length ex_specs) /\
    (forall init last i j c y,
       lists = init ++ [last] ->
       product init !! i = Some c -> last !! j = Some y ->
       ex_combos !! (i * length last + j)%nat = Some (c ++ [y])) /\
    (forall l1 l2, lists = [l1; l2] ->
       length ex_combos = (length l1 * length l2)%nat).
Proof.
  split; [vm_compute; reflexivity|].
  apply (proj2 (combinations_are_nested_product 5 ex_specs)).
  vm_compute. reflexivity.
Defined.

(** ** The range expander: real ranges *)

(** More fuel does not change a finished loop. *)
Lemma accumulate_more end_ step fuel k : forall v vals r,
  accumulate fuel end_ step v vals = Some r ->
  accumulate (fuel + k) end_ step v vals = Some r.
Proof.
  induction fuel as [|fuel IH]; intros v vals r; simpl; [easy|].
  destruct (py_add end_ (VFloat tolerance)); [|easy].
  destruct (py_le v _); [|easy].
  destruct (py_add v step); [|easy]. apply IH.
Qed.

Section AccumulateFacts.

Variables end_ step bound : value.
Hypothesis bound_ok : py_add end_ (VFloat tolerance) = Ok bound.

Lemma running_S_ok v v' i :
  py_add v step = Ok v' -> running step v (S i) = running step v' i.
Proof. intros H. cbn [running]. now rewrite H. Qed.

Lemma running_S_raise v e i :
  py_add v step = Raise e -> running step v (S i) = Raise e.
Proof. intros H. cbn [running]. now rewrite H. Qed.

Lemma running_S_back v i :
  running step v (S i) = w ← running step v i; py_add w step.
Proof.
  revert v. induction i as [|i IH]; intros v.
  - cbn [running]. unfold mbind, result_mbind, result_bind.
    destruct (py_add v step); reflexivity.
  - destruct (py_add v step) as [v'|e] eqn:E.
    + rewrite (running_S_ok v v' (S i) E), (running_S_ok v v' i E). apply IH.
    + now rewrite (running_S_raise v e (S i) E), (running_S_raise v e i E).
Qed.

(** A loop that returns has gone through the running values that pass the
    test and appended each of them, rounded. *)
Lemma accumulate_sound fuel : forall v vals out,
  accumulate fuel end_ step v vals = Some (Ok out) ->
  exists vs,
    out = vals ++ map py_round12 vs /\ (length vs < fuel)%nat /\
    (forall i w, vs !! i = Some w ->
       running step v i = Ok w /\ py_le w bound = true) /\
    (exists w, running step v (length vs) = Ok w /\ py_le w bound = false).
Proof.
  induction fuel as [|fuel IH]; intros v vals out; simpl; [easy|].
  rewrite bound_ok. destruct (py_le v bound) eqn:Hle.
  - destruct (py_add v step) as [v'|e] eqn:Hadd; [|easy].
    intros H. apply IH in H as (vs & -> & Hlen & Hrun & w & Hw & Hstop).
    exists (v :: vs). rewrite <- app_assoc.
    split; [easy|]. split; [simpl; lia|]. split.
    + intros [|i] x Hx; simpl in Hx.
      * injection Hx as <-. easy.
      * rewrite (running_S_ok v v' i Hadd). now apply Hrun.
    + exists w. simpl length. now rewrite (running_S_ok v v' _ Hadd).
  - intros [= <-]. exists []. rewrite app_nil_r. simpl.
    split; [easy|]. split; [lia|]. split; [easy|]. eauto.
Qed.

Lemma accumulate_complete vs : forall v vals fuel,
  (forall i w, vs !! i = Some w ->
     running step v i = Ok w /\ py_le w bound = true) ->
  (exists w, running step v (length vs) = Ok w /\ py_le w bound = false) ->
  (length vs < fuel)%nat ->
  accumulate fuel end_ step v vals = Some (Ok (vals ++ map py_round12 vs)).
Proof.
  induction vs as [|x vs IH]; intros v vals fuel Hrun (w & Hw & Hstop) Hlen;
    (destruct fuel as [|fuel]; [simpl in Hlen; lia|]); simpl; rewrite bound_ok.
  - simpl in Hw. injection Hw as ->. rewrite Hstop. now rewrite app_nil_r.
  - destruct (Hrun 0%nat x eq_refl) as [[= ->] Hle]. rewrite Hle.
    simpl length in Hw.
    destruct (py_add x step) as [v'|e] eqn:Hadd;
      [|now rewrite (running_S_raise x e _ Hadd) in Hw].
    rewrite (running_S_ok x v' _ Hadd) in Hw.
    rewrite (IH v' (vals ++ [py_round12 x]) fuel).
    + now rewrite <- app_assoc.
    + intros i y Hy. specialize (Hrun (S i) y Hy).
      now rewrite (running_S_ok x v' _ Hadd) in Hrun.
    + eauto.
    + simpl in Hlen. lia.
Qed.

(** A loop that ends, in a list or in an exception, has an exit. *)
Lemma accumulate_exit fuel : forall v vals r,
  accumulate fuel end_ step v vals = Some r ->
  exists n, exits bound step v n.
Proof.
  induction fuel as [|fuel IH]; intros v vals r; simpl; [easy|].
  rewrite bound_ok. destruct (py_le v bound) eqn:Hle.
  - destruct (py_add v step) as [v'|e] eqn:Hadd.
    + intros H. apply IH in H as (n & Hbefore & Hat).
      exists (S n). split.
      * intros [|i] Hi; [simpl; eauto|].
        rewrite (running_S_ok v v' i Hadd). apply Hbefore. lia.
      * now rewrite (running_S_ok v v' n Hadd).
    + intros _. exists 1%nat. split.
      * intros i Hi. assert (i = 0)%nat as -> by lia. simpl. eauto.
      * now rewrite (running_S_raise v e 0 Hadd).
  - intros _. exists 0%nat. split; [intros i; lia|].
    simpl. exact Hle.
Qed.

(** A loop that has an exit ends, given fuel beyond the exit. *)
Lemma exit_accumulate n : forall v vals fuel,
  exits bound step v n -> (n < fuel)%nat ->
  exists r, accumulate fuel end_ step v vals = Some r.
Proof.
  induction n as [|n IH]; intros v vals fuel [Hbefore Hat] Hlt;
    (destruct fuel as [|fuel]; [lia|]); simpl; rewrite bound_ok.
  - simpl in Hat. rewrite Hat. eauto.
  - destruct (Hbefore 0%nat) as (w & [= <-] & Hle); [lia|]. rewrite Hle.
    destruct (py_add v step) as [v'|e] eqn:Hadd; [|eauto].
    destruct fuel as [|fuel].
    + destruct n as [|n]; [|lia]. exfalso. lia.
    + apply IH; [|lia]. split.
      * intros i Hi. specialize (Hbefore (S i)).
        rewrite (running_S_ok v v' i Hadd) in Hbefore. apply Hbefore. lia.
      * now rewrite (running_S_ok v v' n Hadd) in Hat.
Qed.

(** A running value that passes the test and is left unchanged by the
    addition keeps the loop going for ever. *)
Lemma stuck_no_exit start n v :
  (forall i, (i <= n)%nat ->
     exists w, running step start i = Ok w /\ py_le w bound = true) ->
  running step start n = Ok v -> py_add v step = Ok v ->
  forall m, ~ exits bound step start m.
Proof.
  intros Hbefore Hn Hfix.
  assert (forall k, running step start (n + k) = Ok v) as Hlater.
  { induction k as [|k IHk]; [now rewrite Nat.add_0_r|].
    rewrite Nat.add_succ_r, running_S_back, IHk. exact Hfix. }
  assert (py_le v bound = true) as Hv.
  { destruct (Hbefore n) as (w & Hw & Hle); [lia|]. congruence. }
  intros m [_ Hat].
  destruct (le_lt_dec m n) as [Hm|Hm].
  - destruct (Hbefore m Hm) as (w & Hw & Hle). rewrite Hw in Hat. congruence.
  - replace m with (n + (m - n))%nat in Hat by lia.
    rewrite Hlater in Hat. congruence.
Qed.

End AccumulateFacts.

Lemma spec_values_real fuel sp :
  all_int sp = false ->
  spec_values fuel sp = accumulate fuel (sp_end sp) (sp_step sp) (sp_start sp) [].
Proof.
  unfold all_int, spec_values.
  destruct (sp_start sp), (sp_end sp), (sp_step sp); easy.
Qed.

(** ** Rounding stays within binary64 *)

Section RoundingRange.

Variables prec emax : Z.

Lemma iter_pos_nat {A} (f : A -> A) p : forall x,
  SpecFloat.iter_pos f p x = Nat.iter (Pos.to_nat p) f x.
Proof.
  induction p as [p IH|p IH|]; intros x; cbn [SpecFloat.iter_pos].
  - rewrite !IH, Pos2Nat.inj_xI.
    replace (S (2 * Pos.to_nat p)) with (Pos.to_nat p + Pos.to_nat p + 1)%nat by lia.
    rewrite !Nat.iter_add. reflexivity.
  - rewrite !IH, Pos2Nat.inj_xO.
    replace (2 * Pos.to_nat p)%nat with (Pos.to_nat p + Pos.to_nat p)%nat by lia.
    now rewrite Nat.iter_add.
  - reflexivity.
Qed.

Lemma shr_1_half mrs :
  0 <= shr_m mrs -> shr_m (shr_1 mrs) = shr_m mrs / 2.
Proof.
  destruct mrs as [m r s]. simpl. intros Hm.
  destruct m as [|[p|p|]|p]; simpl; try reflexivity; try lia.
  - apply (Z.div_unique _ _ _ 1); lia.
  - apply (Z.div_unique _ _ _ 0); lia.
Qed.

Lemma shr_iter_half n mrs :
  0 <= shr_m mrs ->
  shr_m (Nat.iter n shr_1 mrs) = shr_m mrs / 2 ^ Z.of_nat n.
Proof.
  intros Hm. induction n as [|n IH].
  - simpl. now rewrite Z.div_1_r.
  - rewrite Nat.iter_succ, shr_1_half.
    + rewrite IH, Z.div_div by lia.
      now rewrite Nat2Z.inj_succ, Z.pow_succ_r, Z.mul_comm by lia.
    + rewrite IH. apply Z.div_pos; lia.
Qed.

Lemma digits2_gt m : 0 <= m -> m < 2 ^ Zdigits2 m.
Proof.
  destruct m as [|p|p]; simpl; [lia| |lia]. intros _.
  induction p as [p IH|p IH|]; cbn [digits2_pos];
    rewrite ?Pos2Z.inj_succ, ?Z.pow_succ_r by lia; lia.
Qed.

Lemma digits2_nonneg m : 0 <= Zdigits2 m.
Proof. destruct m; simpl; lia. Qed.

(** After the shift of [shr_fexp] the mantissa is below [2^prec] and the
    exponent at least [emin]. *)
Lemma shr_fexp_range m e l :
  0 <= prec -> 0 <= m ->
  0 <= shr_m (fst (shr_fexp prec emax m e l)) < 2 ^ prec /\
  emin prec emax <= snd (shr_fexp prec emax m e l).
Proof.
  intros Hprec Hm. unfold shr_fexp, shr.
  pose proof (digits2_gt m Hm) as Hd. pose proof (digits2_nonneg m) as Hd0.
  assert (shr_m (shr_record_of_loc m l) = m) as Hrec
    by (destruct l as [|[]]; reflexivity).
  set (f := fexp prec emax (Zdigits2 m + e)).
  assert (Zdigits2 m + e - prec <= f /\ emin prec emax <= f) as [Hf1 Hf2]
    by (unfold f, fexp; lia).
  destruct (f - e) as [|n|n] eqn:En; simpl.
  - rewrite Hrec. split; [|lia]. split; [lia|].
    apply Z.lt_le_trans with (1 := Hd). apply Z.pow_le_mono_r; lia.
  - rewrite iter_pos_nat, shr_iter_half, Hrec, positive_nat_Z by now rewrite Hrec.
    split; [|lia]. split; [apply Z.div_pos; lia|].
    apply Z.div_lt_upper_bound; [lia|].
    rewrite <- Z.pow_add_r by lia.
    apply Z.lt_le_trans with (1 := Hd). apply Z.pow_le_mono_r; lia.
  - rewrite Hrec. split; [|lia]. split; [lia|].
    apply Z.lt_le_trans with (1 := Hd). apply Z.pow_le_mono_r; lia.
Qed.

Lemma round_nearest_even_nonneg m l : 0 <= m -> 0 <= round_nearest_even m l.
Proof.
  intros Hm. destruct l as [|[]]; simpl; try lia. destruct (Z.even m); lia.
Qed.

(** What rounding returns is a float of the format. *)
Lemma binary_round_aux_range sx mx ex lx :
  0 <= prec -> 0 <= mx ->
  match binary_round_aux prec emax sx mx ex lx with
  | S754_finite _ m e =>
      Zpos m < 2 ^ prec /\ emin prec emax <= e /\ e <= emax - prec
  | _ => True
  end.
Proof.
  intros Hprec Hmx. unfold binary_round_aux.
  destruct (shr_fexp prec emax mx ex lx) as [mrs' e'] eqn:E1.
  pose proof (shr_fexp_range mx ex lx Hprec Hmx) as [[H0 _] _].
  rewrite E1 in H0. simpl in H0.
  set (mr := round_nearest_even (shr_m mrs') (loc_of_shr_record mrs')).
  assert (0 <= mr) as Hmr by now apply round_nearest_even_nonneg.
  pose proof (shr_fexp_range mr e' loc_Exact Hprec Hmr) as [[_ H1] H2].
  destruct (shr_fexp prec emax mr e' loc_Exact) as [mrs'' e''] eqn:E2.
  simpl in H1, H2.
  destruct (shr_m mrs'') as [|m|m]; [easy| |easy].
  destruct (Z.leb_spec e'' (emax - prec)); [|easy]. lia.
Qed.

Lemma binary_normalize_range m e szero :
  0 <= prec ->
  match binary_normalize prec emax m e szero with
  | S754_finite _ m' e' =>
      Zpos m' < 2 ^ prec /\ emin prec emax <= e' /\ e' <= emax - prec
  | _ => True
  end.
Proof.
  intros Hprec. unfold binary_normalize, binary_round.
  destruct m as [|p|p]; [easy| |];
    destruct (shl_align _ _ _) as [mz ez];
    apply binary_round_aux_range; lia.
Qed.

End RoundingRange.

Lemma float_in_range_spec x :
  float_in_range x = true <->
  match x with
  | S754_finite _ m e =>
      Zpos m < 2 ^ prec /\ emin prec emax <= e /\ e <= emax - prec
  | _ => True
  end.
Proof.
  destruct x as [s|s| |s m e]; simpl; try easy.
  rewrite !andb_true_iff, Z.ltb_lt, !Z.leb_le. tauto.
Qed.

Lemma valid_in_range x : valid_binary prec emax x = true -> float_in_range x = true.
Proof.
  intros H. apply float_in_range_spec. destruct x as [s|s| |s m e]; try easy.
  simpl in H. unfold bounded, canonical_mantissa in H.
  apply andb_prop in H as [Hc He]. apply Z.eqb_eq in Hc. apply Z.leb_le in He.
  pose proof (digits2_gt (Zpos m) ltac:(lia)) as Hd. simpl in Hd.
  unfold fexp in Hc.
  split; [|split; [|exact He]].
  - apply Z.lt_le_trans with (1 := Hd). apply Z.pow_le_mono_r; lia.
  - lia.
Qed.

Lemma fadd_in_range x y :
  float_in_range x = true -> float_in_range y = true ->
  float_in_range (fadd x y) = true.
Proof.
  intros Hx Hy. unfold fadd.
  destruct x as [sx|sx| |sx mx ex], y as [sy|sy| |sy my ey];
    try easy; try (destruct sx, sy; easy).
  unfold SFadd. apply float_in_range_spec.
  apply (binary_normalize_range prec emax). easy.
Qed.

Lemma float_of_int_in_range n x :
  float_of_int n = Ok x -> float_in_range x = true.
Proof.
  unfold float_of_int. intros H. apply float_in_range_spec.
  pose proof (binary_normalize_range prec emax n 0 false ltac:(easy)) as Hr.
  destruct (binary_normalize prec emax n 0 false); try easy;
    injection H as <-; easy.
Qed.

(** Adding to a well-formed value gives a well-formed value. *)
Lemma py_add_well_formed a b c :
  well_formed a = true -> well_formed b = true -> py_add a b = Ok c ->
  well_formed c = true.
Proof.
  destruct a as [m|x], b as [n|y]; simpl; intros Ha Hb.
  - now intros [= <-].
  - destruct (float_of_int m) as [x|] eqn:E; simpl; [|easy].
    intros [= <-]. simpl. apply fadd_in_range; [|easy].
    now apply float_of_int_in_range in E.
  - destruct (float_of_int n) as [y|] eqn:E; simpl; [|easy].
    intros [= <-]. simpl. apply fadd_in_range; [easy|].
    now apply float_of_int_in_range in E.
  - intros [= <-]. simpl. now apply fadd_in_range.
Qed.

(** The rank grows with the float and is bounded. *)
Lemma float_rank_lt x y :
  float_in_range x = true -> float_in_range y = true ->
  SFcompare x y = Some Lt -> float_rank x < float_rank y.
Proof.
  intros Hx%float_in_range_spec Hy%float_in_range_spec.
  unfold float_rank.
  change (emin prec emax) with (-1074) in Hx, Hy.
  change (emax - prec) with 971 in Hx, Hy.
  change (2 ^ prec) with (2 ^ 53) in Hx, Hy.
  change (2 ^ 64) with (2048 * 2 ^ 53).
  assert (0 < 2 ^ 53) as HP by reflexivity.
  revert Hx Hy HP. generalize (2 ^ 53). intros P Hx Hy HP.
  destruct x as [[]|[]| |[] mx ex], y as [[]|[]| |[] my ey]; simpl;
    intros H; try discriminate H; try nia;
    destruct (Z.compare_spec ex ey) as [->|Hlt|Hgt];
    try discriminate H; try nia;
    change (PosDef.Pos.compare_cont Eq mx my) with (Pos.compare mx my) in H;
    destruct (Pos.compare_spec mx my); simpl in H; try discriminate H; nia.
Qed.

Lemma float_rank_bound x : float_in_range x = true -> float_rank x <= 2 ^ 64.
Proof.
  intros Hx%float_in_range_spec.
  unfold float_rank.
  change (emin prec emax) with (-1074) in Hx.
  change (emax - prec) with 971 in Hx.
  change (2 ^ prec) with (2 ^ 53) in Hx.
  change (2 ^ 64) with (2048 * 2 ^ 53).
  assert (0 < 2 ^ 53) as HP by reflexivity.
  revert Hx HP. generalize (2 ^ 53). intros P Hx HP.
  destruct x as [s|s| |s m e]; simpl; try (destruct s; simpl; lia); try nia.
  destruct s; simpl; nia.
Qed.

(** ** Termination of the accumulation *)

Lemma int_le_ubound a b :
  b <> plus_infinity -> py_le (VInt a) b = true -> a <= ubound b.
Proof.
  unfold py_le, plus_infinity. destruct b as [n|[s|s| |s m e]]; simpl.
  - intros _. destruct (Z.compare_spec a n); try easy; lia.
  - intros _. destruct (Z.compare_spec a 0); try easy; lia.
  - destruct s; [easy|]. intros H. now contradiction H.
  - easy.
  - intros _. destruct (Z.leb_spec 0 e) as [He|He].
    + rewrite Z.max_l by lia.
      assert (0 < 2 ^ e) by (apply Z.pow_pos_nonneg; lia).
      destruct (Z.compare_spec a (cond_Zopp s (Z.pos m) * 2 ^ e)); try easy;
        destruct s; simpl in *; nia.
    + rewrite Z.max_r by lia. simpl (2 ^ 0).
      assert (0 < 2 ^ (- e)) by (apply Z.pow_pos_nonneg; lia).
      destruct (Z.compare_spec (a * 2 ^ (- e)) (cond_Zopp s (Z.pos m)));
        try easy; destruct s; simpl in *; nia.
Qed.

Lemma py_add_float_l x b v :
  py_add (VFloat x) b = Ok v -> exists y, v = VFloat y.
Proof.
  destruct b as [n|y]; simpl.
  - destruct (float_of_int n); simpl; [|easy]. intros [= <-]. eauto.
  - intros [= <-]. eauto.
Qed.

Section Termination.

Variables end_ step bound : value.
Hypothesis bound_ok : py_add end_ (VFloat tolerance) = Ok bound.
Hypothesis step_wf : well_formed step = true.

Lemma increasing_next v v' :
  increasing bound step v -> py_le v bound = true -> py_add v step = Ok v' ->
  increasing bound step v'.
Proof.
  intros H Hle Hadd i w Hbefore Hi Hw. apply (H (S i)); [| |easy].
  - intros [|j] Hj; [simpl; eauto|].
    rewrite (running_S_ok step v v' j Hadd). apply Hbefore. lia.
  - now rewrite (running_S_ok step v v' i Hadd).
Qed.

Lemma accumulate_turn fuel v v' vals out :
  py_le v bound = true -> py_add v step = Ok v' ->
  accumulate fuel end_ step v' (vals ++ [py_round12 v]) = Some (Ok out) ->
  accumulate (S fuel) end_ step v vals = Some (Ok out).
Proof. intros Hle Hadd H. simpl. now rewrite bound_ok, Hle, Hadd. Qed.

Lemma accumulate_leave v vals :
  py_le v bound = false ->
  accumulate 1 end_ step v vals = Some (Ok vals).
Proof. intros Hle. simpl. now rewrite bound_ok, Hle. Qed.

(** Floats that keep growing leave the loop: there are finitely many. *)
Lemma accumulate_floats k : forall x vals,
  float_in_range x = true -> 2 ^ 64 - float_rank x < Z.of_nat k ->
  increasing bound step (VFloat x) ->
  exists fuel out, accumulate fuel end_ step (VFloat x) vals = Some (Ok out).
Proof.
  induction k as [|k IH]; intros x vals Hx Hk Hinc.
  - pose proof (float_rank_bound x Hx). lia.
  - destruct (py_le (VFloat x) bound) eqn:Hle;
      [|exists 1%nat, vals; now apply accumulate_leave].
    destruct (Hinc 0%nat (VFloat x)) as (v' & Hadd & Hlt);
      [intros j Hj; lia|easy|easy|].
    destruct (py_add_float_l _ _ _ Hadd) as (x' & ->).
    assert (float_in_range x' = true) as Hx'
      by (apply (py_add_well_formed (VFloat x) step (VFloat x')); easy).
    pose proof (float_rank_lt x x' Hx Hx' Hlt) as Hrank.
    destruct (IH x' (vals ++ [py_round12 (VFloat x)]) Hx') as (fuel & out & Hacc).
    + lia.
    + now apply (increasing_next (VFloat x)).
    + exists (S fuel), out. now apply (accumulate_turn fuel (VFloat x) (VFloat x')).
Qed.

(** Integers that keep growing leave the loop, under a bound that is not
    [+inf]. *)
Lemma accumulate_ints k : forall a vals,
  is_int step = true -> bound <> plus_infinity ->
  ubound bound - a < Z.of_nat k ->
  increasing bound step (VInt a) ->
  exists fuel out, accumulate fuel end_ step (VInt a) vals = Some (Ok out).
Proof.
  induction k as [|k IH]; intros a vals Hstep Hb Hk Hinc;
    (destruct (py_le (VInt a) bound) eqn:Hle;
      [|exists 1%nat, vals; now apply accumulate_leave]);
    pose proof (int_le_ubound a bound Hb Hle) as Hub; [lia|].
  destruct (Hinc 0%nat (VInt a)) as (v' & Hadd & Hlt);
    [intros j Hj; lia|easy|easy|].
  assert (exists b, step = VInt b) as (b & Eb)
    by (destruct step as [b|y]; [eauto|easy]).
  assert (v' = VInt (a + b)) as -> by (rewrite Eb in Hadd; now injection Hadd).
  simpl in Hlt. injection Hlt as Hlt.
  pose proof (proj1 (Z.compare_lt_iff _ _) Hlt) as Hlt'.
  destruct (IH (a + b) (vals ++ [py_round12 (VInt a)]) Hstep Hb)
    as (fuel & out & Hacc).
  - lia.
  - now apply (increasing_next (VInt a)).
  - exists (S fuel), out. now apply (accumulate_turn fuel (VInt a) (VInt (a + b))).
Qed.

(** A loop whose every turn increases the running value ends. *)
Lemma accumulate_increasing start vals :
  well_formed start = true ->
  (is_int start = true -> is_int step = true -> bound <> plus_infinity) ->
  increasing bound step start ->
  exists fuel out, accumulate fuel end_ step start vals = Some (Ok out).
Proof.
  intros Hwf Hb Hinc. destruct start as [a|x].
  - destruct (is_int step) eqn:Hstep.
    + apply (accumulate_ints (S (Z.to_nat (ubound bound - a)))); try easy;
        [now apply Hb|lia].
    + destruct (py_le (VInt a) bound) eqn:Hle;
        [|exists 1%nat, vals; now apply accumulate_leave].
      destruct (Hinc 0%nat (VInt a)) as (v' & Hadd & Hlt);
        [intros j Hj; lia|easy|easy|].
      assert (exists x', v' = VFloat x') as (x' & ->).
      { clear -Hadd Hstep. destruct step as [b|y]; [easy|]. simpl in Hadd.
        destruct (float_of_int a); simpl in Hadd; [|easy].
        injection Hadd as <-. eauto. }
      assert (float_in_range x' = true) as Hx'
        by (apply (py_add_well_formed (VInt a) step (VFloat x')); easy).
      destruct (accumulate_floats (S (Z.to_nat (2 ^ 64 - float_rank x'))) x'
                  (vals ++ [py_round12 (VInt a)]) Hx')
        as (fuel & out & Hacc); [lia|now apply (increasing_next (VInt a))|].
      exists (S fuel), out. now apply (accumulate_turn fuel (VInt a) (VFloat x')).
  - apply (accumulate_floats (S (Z.to_nat (2 ^ 64 - float_rank x)))); try easy. lia.
Qed.

End Termination.

Lemma spec_values_all_int fuel sp :
  all_int sp = true -> exists r, spec_values fuel sp = Some r.
Proof.
  unfold all_int, spec_values.
  destruct (sp_start sp), (sp_end sp), (sp_step sp); try easy. eauto.
Qed.

Lemma spec_values_more sp fuel k r :
  spec_values fuel sp = Some r -> spec_values (fuel + k) sp = Some r.
Proof.
  unfold spec_values.
  destruct (sp_start sp), (sp_end sp), (sp_step sp); try easy;
    apply accumulate_more.
Qed.

Lemma expand_specs_more k specs : forall fuel names lists r,
  expand_specs fuel specs names lists = Some r ->
  expand_specs (fuel + k) specs names lists = Some r.
Proof.
  induction specs as [|sp specs IH]; intros fuel names lists r; simpl; [easy|].
  destruct (spec_values fuel sp) as [[vals|e]|] eqn:E; [| |easy];
    rewrite (spec_values_more sp fuel k _ E); [apply IH|easy].
Qed.

(** A spec of the kinds of [ends] has a value list or an exception. *)
Lemma ends_spec_values sp :
  ends sp -> exists fuel r, spec_values fuel sp = Some r.
Proof.
  intros [Hint|H].
  { destruct (spec_values_all_int 0 sp Hint) as (r & Hr). eauto. }
  destruct (all_int sp) eqn:Hreal.
  { destruct (spec_values_all_int 0 sp Hreal) as (r & Hr). eauto. }
  destruct H as [(e & He)|(bound & Hbound & [Hle|(Hs & Hst & Hb & Hinc)])].
  - exists 1%nat, (Raise e). rewrite spec_values_real by easy. simpl.
    now rewrite He.
  - exists 1%nat, (Ok []). rewrite spec_values_real by easy. simpl.
    now rewrite Hbound, Hle.
  - destruct (accumulate_increasing _ _ _ Hbound Hst (sp_start sp) [] Hs Hb Hinc)
      as (fuel & out & Hacc).
    exists fuel, (Ok out). now rewrite spec_values_real.
Qed.

(** The generation ends when the expansion of every spec does. *)
Lemma generate_ends specs :
  Forall (fun sp => exists fuel r, spec_values fuel sp = Some r) specs ->
  exists fuel r, generate_param_combinations fuel specs = Some r.
Proof.
  intros H.
  assert (forall names lists,
            exists fuel r, expand_specs fuel specs names lists = Some r) as Hex.
  { induction H as [|sp specs (f1 & r1 & H1) _ IH]; intros names lists.
    - exists 0%nat. simpl. eauto.
    - destruct r1 as [vals|e].
      + destruct (IH (names ++ [sp_name sp]) (lists ++ [vals])) as (f2 & r2 & H2).
        exists (f1 + f2)%nat, r2. simpl.
        rewrite (spec_values_more sp f1 f2 _ H1).
        rewrite Nat.add_comm. now apply expand_specs_more.
      + exists f1, (Raise e). simpl. now rewrite H1. }
  destruct (Hex [] []) as (fuel & r & Hr).
  unfold generate_param_combinations. exists fuel. rewrite Hr.
  destruct r as [[names lists]|e]; eauto.
Qed.

(** ** Rounding and the order of the floats *)

Section RoundingOrder.

Variables prec emax : Z.
Hypothesis Hprec : 0 < prec.

Lemma digits2_le m : 0 < m -> 2 ^ (Zdigits2 m - 1) <= m.
Proof.
  destruct m as [|p|p]; simpl; [lia| |lia]. intros _.
  induction p as [p IH|p IH|]; cbn [digits2_pos];
    rewrite ?Pos2Z.inj_succ; try reflexivity;
    replace (Z.succ (Z.pos (digits2_pos p)) - 1)
      with (Z.succ (Z.pos (digits2_pos p) - 1)) by lia;
    rewrite Z.pow_succ_r by lia; lia.
Qed.

Lemma pow2_lt_inv a b : 2 ^ a < 2 ^ b -> 0 <= a -> a < b.
Proof.
  intros H Ha. destruct (Z.lt_ge_cases a b) as [|Hge]; [easy|]. exfalso.
  assert (2 ^ b <= 2 ^ a); [|lia].
  destruct (Z.lt_ge_cases b 0) as [Hb|Hb].
  - rewrite (Z.pow_neg_r 2 b Hb). apply Z.pow_nonneg. lia.
  - apply Z.pow_le_mono_r; lia.
Qed.

(** The number of digits of a positive integer between two powers. *)
Lemma digits2_unique m d :
  0 < m -> 2 ^ (d - 1) <= m < 2 ^ d -> Zdigits2 m = d.
Proof.
  intros Hm [Hlo Hhi].
  pose proof (digits2_le m Hm) as H1.
  pose proof (digits2_gt m ltac:(lia)) as H2.
  assert (0 < Zdigits2 m) as HD by (destruct m; simpl; lia).
  assert (0 < d) as Hd.
  { destruct (Z.lt_ge_cases 0 d) as [|Hle]; [easy|]. exfalso.
    assert (2 ^ d <= 1); [|lia].
    destruct (Z.eq_dec d 0) as [->|]; [reflexivity|].
    rewrite Z.pow_neg_r; lia. }
  assert (Zdigits2 m - 1 < d) by (apply pow2_lt_inv; lia).
  assert (d - 1 < Zdigits2 m) by (apply pow2_lt_inv; lia).
  lia.
Qed.

Lemma pos_iter_xO m d : Z.pos (Pos.iter xO m d) = Z.pos m * 2 ^ Z.pos d.
Proof.
  induction d as [|d IH] using Pos.peano_ind.
  - simpl. lia.
  - rewrite Pos.iter_succ, Pos2Z.inj_xO, IH, Pos2Z.inj_succ, Z.pow_succ_r by lia.
    lia.
Qed.

(** A shift that drops only zeros is exact. *)
Lemma shr_iter_exact n m :
  0 <= m -> m mod 2 ^ Z.of_nat n = 0 ->
  loc_of_shr_record
    (Nat.iter n shr_1 {| shr_m := m; shr_r := false; shr_s := false |})
  = loc_Exact.
Proof.
  intros Hm.
  assert (forall k, (k <= n)%nat ->
            m mod 2 ^ Z.of_nat k = 0 ->
            let r := Nat.iter k shr_1 {| shr_m := m; shr_r := false; shr_s := false |} in
            shr_r r = false /\ shr_s r = false) as Hk.
  { induction k as [|k IH]; intros Hle Hmod; [easy|].
    assert (m mod 2 ^ Z.of_nat k = 0) as Hmod'.
    { rewrite Nat2Z.inj_succ, Z.pow_succ_r in Hmod by lia.
      apply Z.mod_divide in Hmod; [|lia]. destruct Hmod as [q Hq].
      apply Z.mod_divide; [lia|]. exists (q * 2). lia. }
    destruct (IH ltac:(lia) Hmod') as [Hr Hs].
    cbn zeta. rewrite Nat.iter_succ.
    pose proof (shr_iter_half k {| shr_m := m; shr_r := false; shr_s := false |} Hm)
      as Hhalf. simpl shr_m in Hhalf at 2.
    destruct (Nat.iter k shr_1 {| shr_m := m; shr_r := false; shr_s := false |})
      as [mk rk sk]. simpl in Hr, Hs, Hhalf. subst rk sk.
    assert (mk mod 2 = 0) as Heven.
    { subst mk. rewrite Nat2Z.inj_succ, Z.pow_succ_r in Hmod by lia.
      apply Z.mod_divide in Hmod; [|lia]. destruct Hmod as [q Hq].
      rewrite Hq. replace (q * (2 * 2 ^ Z.of_nat k)) with ((q * 2) * 2 ^ Z.of_nat k) by lia.
      rewrite Z.div_mul by lia. apply Z.mod_divide; [lia|]. now exists q. }
    assert (0 <= mk) as Hmk by (subst mk; apply Z.div_pos; lia).
    destruct mk as [|[p|p|]|p]; simpl; try easy; try lia.
    exfalso. rewrite Pos2Z.inj_xI in Heven.
    replace (2 * Z.pos p + 1) with (1 + Z.pos p * 2) in Heven by lia.
    rewrite Z.mod_add in Heven by lia. discriminate Heven. }
  intros Hmod. destruct (Hk n (le_n n) Hmod) as [Hr Hs].
  destruct (Nat.iter n shr_1 _) as [mn rn sn]. simpl in *. now subst.
Qed.

Lemma round_nearest_even_bounds m l :
  m <= round_nearest_even m l <= m + 1.
Proof. destruct l as [|[]]; simpl; try lia. destruct (Z.even m); lia. Qed.

(** What [shr_fexp] makes of an exact mantissa. *)
Lemma shr_fexp_exact m e :
  0 <= m ->
  let n := fexp prec emax (Zdigits2 m + e) - e in
  (n <= 0 ->
   shr_fexp prec emax m e loc_Exact
   = ({| shr_m := m; shr_r := false; shr_s := false |}, e)) /\
  (0 < n ->
   exists mrs,
     shr_fexp prec emax m e loc_Exact = (mrs, e + n) /\
     shr_m mrs = m / 2 ^ n /\
     (m mod 2 ^ n = 0 -> loc_of_shr_record mrs = loc_Exact)).
Proof.
  intros Hm n. unfold shr_fexp, shr. fold n. split; intros Hn.
  - destruct n; try lia; reflexivity.
  - destruct n as [|p|p]; try lia. simpl shr_record_of_loc.
    eexists. split; [reflexivity|].
    rewrite iter_pos_nat. split.
    + rewrite shr_iter_half by easy. simpl shr_m. now rewrite positive_nat_Z.
    + intros Hmod. apply shr_iter_exact; [easy|]. now rewrite positive_nat_Z.
Qed.

(** The end of a rounding: the rounded mantissa [mr], which is the
    truncated one [m'] or the next integer, at the exponent [f] of the
    format, is made canonical. *)
Lemma round_finish (s : bool) D mr m' :
  (D - fexp prec emax D <= 0 -> m' = 0) ->
  (0 <= D - fexp prec emax D -> m' < 2 ^ (D - fexp prec emax D)) ->
  (1 <= D - fexp prec emax D -> 2 ^ (D - fexp prec emax D - 1) <= m') ->
  m' <= mr <= m' + 1 -> 0 <= m' ->
  (mr = 0 ->
   (let '(mrs, e2) := shr_fexp prec emax mr (fexp prec emax D) loc_Exact in
    match shr_m mrs with
    | 0 => S754_zero s
    | Z.pos m => if e2 <=? emax - prec then S754_finite s m e2 else S754_infinity s
    | Z.neg _ => S754_nan
    end) = S754_zero s) /\
  (0 < mr ->
   exists m2 e2,
     (let '(mrs, e2) := shr_fexp prec emax mr (fexp prec emax D) loc_Exact in
      match shr_m mrs with
      | 0 => S754_zero s
      | Z.pos m => if e2 <=? emax - prec then S754_finite s m e2 else S754_infinity s
      | Z.neg _ => S754_nan
      end)
     = (if e2 <=? emax - prec then S754_finite s m2 e2 else S754_infinity s) /\
     Z.pos m2 * 2 ^ (e2 - fexp prec emax D) = mr /\
     fexp prec emax D <= e2 <= fexp prec emax D + 1 /\
     canonical_mantissa prec emax m2 e2 = true).
Proof.
  set (f := fexp prec emax D). intros Hzero Hhi Hlo Hmr Hm'.
  assert (emin prec emax <= f /\ D - prec <= f /\
          (f = D - prec \/ f = emin prec emax)) as (Hf1 & Hf2 & Hf3)
    by (unfold f, fexp; lia).
  split.
  - intros ->.
    destruct (shr_fexp_exact 0 f ltac:(lia)) as [Hno _].
    rewrite Hno; [reflexivity|]. simpl. unfold fexp. lia.
  - intros Hpos.
    (* no shift: the mantissa stays *)
    assert (forall p, mr = Z.pos p ->
              fexp prec emax (Zdigits2 mr + f) = f ->
              exists m2 e2,
                (let '(mrs, e2) := shr_fexp prec emax mr f loc_Exact in
                 match shr_m mrs with
                 | 0 => S754_zero s
                 | Z.pos m =>
                     if e2 <=? emax - prec then S754_finite s m e2
                     else S754_infinity s
                 | Z.neg _ => S754_nan
                 end)
                = (if e2 <=? emax - prec then S754_finite s m2 e2
                   else S754_infinity s) /\
                Z.pos m2 * 2 ^ (e2 - f) = mr /\ f <= e2 <= f + 1 /\
                canonical_mantissa prec emax m2 e2 = true) as Hstay.
    { intros p -> Hcan.
      destruct (shr_fexp_exact (Z.pos p) f ltac:(lia)) as [Hno _].
      rewrite Hno by lia. exists p, f. simpl shr_m.
      split; [reflexivity|]. rewrite Z.sub_diag. split; [simpl; lia|].
      split; [lia|]. unfold canonical_mantissa. simpl in Hcan.
      now apply Z.eqb_eq. }
    destruct mr as [|p|p]; try lia.
    destruct (Z.lt_ge_cases (D - f) 0) as [Hneg|Hnn].
    + (* below the format: the mantissa is 1 *)
      assert (m' = 0) as -> by (apply Hzero; lia).
      assert (p = 1%positive) as -> by lia.
      apply (Hstay 1%positive eq_refl). simpl. unfold fexp. lia.
    + specialize (Hhi Hnn).
      destruct (Z.lt_ge_cases (Z.pos p) (2 ^ (D - f))) as [Hlt|Hge].
      * (* the number of digits has not changed *)
        assert (1 <= D - f) as H1.
        { destruct (Z.eq_dec (D - f) 0) as [E|]; [|lia].
          rewrite E in Hlt. simpl in Hlt. lia. }
        specialize (Hlo H1).
        apply (Hstay p eq_refl).
        rewrite (digits2_unique (Z.pos p) (D - f)) by lia.
        now replace (D - f + f) with D by lia.
      * (* the mantissa is the next power of two *)
        assert (Z.pos p = 2 ^ (D - f)) as Hp by lia.
        assert (Zdigits2 (Z.pos p) = D - f + 1) as Hd.
        { apply digits2_unique; [lia|].
          replace (D - f + 1 - 1) with (D - f) by lia.
          replace (D - f + 1) with (Z.succ (D - f)) by lia.
          rewrite Z.pow_succ_r by lia. lia. }
        destruct (Z.lt_ge_cases (D - prec) (emin prec emax)) as [Hsub|Hnorm].
        -- apply (Hstay p eq_refl). rewrite Hd. unfold fexp. lia.
        -- assert (f = D - prec) as Ef by lia.
           destruct (shr_fexp_exact (Z.pos p) f ltac:(lia)) as [_ Hshift].
           destruct Hshift as (mrs & Hmrs & Hm & _).
           { rewrite Hd. unfold fexp. lia. }
           assert (fexp prec emax (Zdigits2 (Z.pos p) + f) - f = 1) as En
             by (rewrite Hd; unfold fexp; lia).
           rewrite En in Hmrs, Hm. rewrite Hmrs, Hm.
           assert (Z.pos p / 2 ^ 1 = 2 ^ (prec - 1)) as Ehalf.
           { rewrite Hp, Ef. replace (D - (D - prec)) with (Z.succ (prec - 1)) by lia.
             rewrite Z.pow_succ_r by lia. rewrite Z.mul_comm, Z.div_mul; lia. }
           rewrite Ehalf.
           assert (0 < 2 ^ (prec - 1)) as Hpow by (apply Z.pow_pos_nonneg; lia).
           destruct (2 ^ (prec - 1)) as [|q|q] eqn:Eq; try lia.
           exists q, (f + 1). split; [reflexivity|].
           split; [|split; [lia|]].
           ++ replace (f + 1 - f) with 1 by lia. rewrite Hp, Ef.
              replace (D - (D - prec)) with (Z.succ (prec - 1)) by lia.
              rewrite Z.pow_succ_r, Eq by lia. lia.
           ++ unfold canonical_mantissa. apply Z.eqb_eq.
              change (Z.pos (digits2_pos q)) with (Zdigits2 (Z.pos q)).
              rewrite (digits2_unique (Z.pos q) prec).
              ** unfold fexp. lia.
              ** lia.
              ** rewrite <- Eq. split; [lia|].
                 apply Z.pow_lt_mono_r; lia.
Qed.

Lemma digits2_mul_pow m k :
  0 < m -> 0 <= k -> Zdigits2 (m * 2 ^ k) = Zdigits2 m + k.
Proof.
  intros Hm Hk.
  pose proof (digits2_le m Hm) as H1.
  pose proof (digits2_gt m ltac:(lia)) as H2.
  assert (0 < Zdigits2 m) as HD by (destruct m; simpl; lia).
  assert (0 < 2 ^ k) as Hpow by (apply Z.pow_pos_nonneg; lia).
  apply digits2_unique; [nia|].
  replace (Zdigits2 m + k - 1) with (Zdigits2 m - 1 + k) by lia.
  rewrite !Z.pow_add_r by lia. nia.
Qed.

(** Rounding a positive mantissa: it is brought to the exponent [f] of
    the format, truncated there to [m'], rounded to [mr], which is [m'] or
    the next integer ([m'] when nothing was cut off), and made canonical. *)
Lemma binary_round_spec (s : bool) (mx : positive) (ex : Z) D f e0 m0 m' :
  D = Z.pos (digits2_pos mx) + ex -> f = fexp prec emax D -> e0 = Z.min ex f ->
  m0 = Z.pos mx * 2 ^ (ex - e0) -> m' = m0 / 2 ^ (f - e0) ->
  (1 <= D - f -> 2 ^ (D - f - 1) <= m') /\
  exists mr,
    m' <= mr <= m' + 1 /\
    (m0 mod 2 ^ (f - e0) = 0 -> mr = m') /\
    (mr = 0 -> binary_round prec emax s mx ex = S754_zero s) /\
    (0 < mr ->
     exists m2 e2,
       binary_round prec emax s mx ex
       = (if e2 <=? emax - prec then S754_finite s m2 e2 else S754_infinity s) /\
       Z.pos m2 * 2 ^ (e2 - f) = mr /\ f <= e2 <= f + 1 /\
       canonical_mantissa prec emax m2 e2 = true).
Proof.
  intros HD Hf He0 Hm0 Hm'.
  assert (0 <= ex - e0 /\ 0 <= f - e0) as [Hk Hn] by lia.
  assert (0 < 2 ^ (ex - e0)) as Hpow by (apply Z.pow_pos_nonneg; lia).
  assert (0 < m0) as Hm0pos by (subst m0; lia).
  assert (Zdigits2 m0 + e0 = D) as Hdig.
  { subst m0. rewrite digits2_mul_pow by lia. simpl. lia. }
  assert (exists mz, shl_align mx ex (fexp prec emax (Z.pos (digits2_pos mx) + ex))
                     = (mz, e0) /\ Z.pos mz = m0) as (mz & Halign & Hmz).
  { rewrite <- HD, <- Hf. unfold shl_align.
    destruct (f - ex) as [|d|d] eqn:Ed.
    - exists mx. split; [f_equal; lia|].
      subst m0. replace (ex - e0) with 0 by lia. simpl. lia.
    - exists mx. split; [f_equal; lia|].
      subst m0. replace (ex - e0) with 0 by lia. simpl. lia.
    - exists (Pos.iter xO mx d). split; [f_equal; lia|].
      rewrite pos_iter_xO. subst m0. f_equal. f_equal. lia. }
  unfold binary_round. rewrite Halign. unfold binary_round_aux. rewrite Hmz.
  assert (0 < 2 ^ (f - e0)) as Hpow' by (apply Z.pow_pos_nonneg; lia).
  pose proof (digits2_le m0 Hm0pos) as Hlo0.
  pose proof (digits2_gt m0 ltac:(lia)) as Hhi0.
  assert (0 < Zdigits2 m0) as Hd0 by (destruct m0; simpl; lia).
  assert (0 <= m') as Hm'0 by (subst m'; apply Z.div_pos; lia).
  assert (D - f <= 0 -> m' = 0) as F1.
  { intros H. subst m'. apply Z.div_small. split; [lia|].
    apply Z.lt_le_trans with (1 := Hhi0). apply Z.pow_le_mono_r; lia. }
  assert (0 <= D - f -> m' < 2 ^ (D - f)) as F2.
  { intros H. subst m'. apply Z.div_lt_upper_bound; [lia|].
    rewrite <- Z.pow_add_r by lia.
    now replace (f - e0 + (D - f)) with (Zdigits2 m0) by lia. }
  assert (1 <= D - f -> 2 ^ (D - f - 1) <= m') as F3.
  { intros H. subst m'. apply Z.div_le_lower_bound; [lia|].
    rewrite <- Z.pow_add_r by lia.
    now replace (f - e0 + (D - f - 1)) with (Zdigits2 m0 - 1) by lia. }
  split; [exact F3|].
  destruct (shr_fexp_exact m0 e0 ltac:(lia)) as [Hno Hshift].
  rewrite Hdig, <- Hf in Hno, Hshift.
  destruct (Z.eq_dec (f - e0) 0) as [Ez|Ez].
  - (* the mantissa fits: nothing is cut off *)
    rewrite Hno by lia. simpl shr_m. simpl loc_of_shr_record.
    simpl round_nearest_even.
    assert (m' = m0) as Em.
    { subst m'. rewrite Ez. simpl. apply Z.div_1_r. }
    assert (e0 = f) as -> by lia.
    exists m0. split; [lia|]. split; [lia|].
    rewrite Hf. rewrite Hf in F1, F2, F3.
    apply (round_finish s D m0 m'); auto; lia.
  - destruct Hshift as (mrs & Hmrs & Hm & Hexact); [lia|].
    rewrite Hmrs. replace (e0 + (f - e0)) with f by lia.
    rewrite <- Hm' in Hm. rewrite Hm.
    pose proof (round_nearest_even_bounds m' (loc_of_shr_record mrs)) as Hb.
    exists (round_nearest_even m' (loc_of_shr_record mrs)).
    split; [exact Hb|]. split.
    + intros Hmod. rewrite (Hexact Hmod). reflexivity.
    + rewrite Hf. rewrite Hf in F1, F2, F3.
      apply (round_finish s D _ m'); auto.
Qed.

(** Canonical floats are ordered by exponent, then by mantissa. *)
Lemma canonical_le m1 e1 m2 e2 c :
  canonical_mantissa prec emax m1 e1 = true ->
  canonical_mantissa prec emax m2 e2 = true ->
  c <= e1 -> c <= e2 ->
  Z.pos m1 * 2 ^ (e1 - c) <= Z.pos m2 * 2 ^ (e2 - c) ->
  e1 < e2 \/ (e1 = e2 /\ (m1 <= m2)%positive).
Proof.
  unfold canonical_mantissa. intros H1%Z.eqb_eq H2%Z.eqb_eq Hc1 Hc2 Hle.
  destruct (Z.lt_trichotomy e1 e2) as [Hlt|[->|Hgt]]; [now left| |].
  - right. split; [easy|].
    assert (0 < 2 ^ (e2 - c)) by (apply Z.pow_pos_nonneg; lia).
    assert (Z.pos m1 <= Z.pos m2) by nia. lia.
  - exfalso.
    change (Z.pos (digits2_pos m1)) with (Zdigits2 (Z.pos m1)) in H1.
    change (Z.pos (digits2_pos m2)) with (Zdigits2 (Z.pos m2)) in H2.
    pose proof (digits2_le (Z.pos m1) ltac:(lia)) as Hlo.
    pose proof (digits2_gt (Z.pos m2) ltac:(lia)) as Hhi.
    assert (Zdigits2 (Z.pos m1) = prec) as E1 by (unfold fexp in *; lia).
    assert (Zdigits2 (Z.pos m2) <= prec) as E2 by (unfold fexp in *; lia).
    rewrite E1 in Hlo.
    assert (Z.pos m2 < 2 ^ prec) as Hhi'.
    { apply Z.lt_le_trans with (1 := Hhi). apply Z.pow_le_mono_r; lia. }
    assert (2 ^ (prec - 1) * 2 ^ (e1 - c) <= Z.pos m1 * 2 ^ (e1 - c)) as Ha.
    { apply Z.mul_le_mono_nonneg_r; [apply Z.pow_nonneg|]; lia. }
    assert (Z.pos m2 * 2 ^ (e2 - c) < 2 ^ prec * 2 ^ (e2 - c)) as Hb.
    { apply Z.mul_lt_mono_pos_r; [apply Z.pow_pos_nonneg|]; lia. }
    rewrite <- Z.pow_add_r in Ha, Hb by lia.
    assert (2 ^ (prec + (e2 - c)) <= 2 ^ (prec - 1 + (e1 - c)))
      by (apply Z.pow_le_mono_r; lia).
    lia.
Qed.

(** Rounding gives a zero, an infinity or a canonical float of the format,
    with the sign that was given. *)
Lemma binary_round_valid (s : bool) (mx : positive) (ex : Z) :
  binary_round prec emax s mx ex = S754_zero s \/
  binary_round prec emax s mx ex = S754_infinity s \/
  exists m2 e2,
    binary_round prec emax s mx ex = S754_finite s m2 e2 /\
    canonical_mantissa prec emax m2 e2 = true /\ e2 <= emax - prec.
Proof.
  destruct (binary_round_spec s mx ex _ _ _ _ _ eq_refl eq_refl eq_refl eq_refl eq_refl)
    as (_ & mr & [Hmr _] & _ & Hz & Hp).
  destruct (Z.eq_dec mr 0) as [E|E]; [left; now apply Hz|].
  right. destruct Hp as (m2 & e2 & -> & _ & _ & Hcan).
  { assert (0 <= Z.pos mx * 2 ^ (ex - Z.min ex (fexp prec emax (Z.pos (digits2_pos mx) + ex)))
                 / 2 ^ (fexp prec emax (Z.pos (digits2_pos mx) + ex)
                        - Z.min ex (fexp prec emax (Z.pos (digits2_pos mx) + ex)))).
    { apply Z.div_pos; [|apply Z.pow_pos_nonneg; lia].
      apply Z.mul_nonneg_nonneg; [lia|apply Z.pow_nonneg; lia]. }
    lia. }
  destruct (Z.leb_spec e2 (emax - prec)); [right|left; reflexivity].
  exists m2, e2. easy.
Qed.

(** Rounding a value that is at most the value of a float of the format
    gives at most that float. *)
Lemma binary_round_le (s : bool) (S : positive) (e : Z) (mb : positive) (eb : Z) :
  canonical_mantissa prec emax mb eb = true -> eb <= emax - prec ->
  Z.pos S * 2 ^ (e - Z.min e eb) <= Z.pos mb * 2 ^ (eb - Z.min e eb) ->
  binary_round prec emax s S e = S754_zero s \/
  exists m2 e2,
    binary_round prec emax s S e = S754_finite s m2 e2 /\
    canonical_mantissa prec emax m2 e2 = true /\ e2 <= emax - prec /\
    (e2 < eb \/ (e2 = eb /\ (m2 <= mb)%positive)).
Proof.
  intros Hcan Hbound Hle.
  set (c := Z.min e eb) in *.
  set (D := Z.pos (digits2_pos S) + e).
  set (f := fexp prec emax D).
  set (e0 := Z.min e f).
  set (m0 := Z.pos S * 2 ^ (e - e0)).
  set (m' := m0 / 2 ^ (f - e0)).
  destruct (binary_round_spec s S e D f e0 m0 m' eq_refl eq_refl eq_refl eq_refl eq_refl)
    as (_ & mr & [Hmr1 Hmr2] & Hexact & Hz & Hp).
  pose proof Hcan as Hcan'. unfold canonical_mantissa in Hcan'.
  apply Z.eqb_eq in Hcan'.
  change (Z.pos (digits2_pos mb)) with (Zdigits2 (Z.pos mb)) in Hcan'.
  pose proof (digits2_le (Z.pos S) ltac:(lia)) as HloS.
  pose proof (digits2_gt (Z.pos mb) ltac:(lia)) as Hhib.
  assert (0 < Zdigits2 (Z.pos S)) as HdS by (simpl; lia).
  assert (0 < Zdigits2 (Z.pos mb)) as Hdb by (simpl; lia).
  (* the magnitude of the value is at most that of the float *)
  assert (D <= Zdigits2 (Z.pos mb) + eb) as HD.
  { assert (2 ^ (Zdigits2 (Z.pos S) - 1 + (e - c))
            < 2 ^ (Zdigits2 (Z.pos mb) + (eb - c))) as Hpow.
    { rewrite !Z.pow_add_r by lia.
      assert (0 < 2 ^ (e - c)) by (apply Z.pow_pos_nonneg; lia).
      assert (0 < 2 ^ (eb - c)) by (apply Z.pow_pos_nonneg; lia).
      nia. }
    apply pow2_lt_inv in Hpow; [|lia]. unfold D. simpl Zdigits2 in *. lia. }
  assert (f <= eb) as Hfeb by (unfold f, fexp in *; lia).
  assert (e0 <= c) as He0c by lia.
  assert (0 <= f - e0 /\ 0 <= eb - f /\ 0 <= e - e0) as (Hn & Hbf & Hee) by lia.
  set (Xf := Z.pos mb * 2 ^ (eb - f)).
  assert (0 < 2 ^ (f - e0)) as Hpn by (apply Z.pow_pos_nonneg; lia).
  assert (m0 <= Xf * 2 ^ (f - e0)) as Hm0.
  { unfold m0, Xf. rewrite <- Z.mul_assoc, <- Z.pow_add_r by lia.
    replace (e - e0) with ((e - c) + (c - e0)) by lia.
    replace (eb - f + (f - e0)) with ((eb - c) + (c - e0)) by lia.
    rewrite !Z.pow_add_r, !Z.mul_assoc by lia.
    apply Z.mul_le_mono_nonneg_r; [apply Z.pow_nonneg; lia|exact Hle]. }
  assert (mr <= Xf) as Hmr.
  { assert (m' <= Xf) as Hm'.
    { unfold m'. apply Z.div_le_upper_bound; lia. }
    destruct (Z.eq_dec m' Xf) as [E|E]; [|lia].
    rewrite Hexact; [lia|].
    pose proof (Z.mul_div_le m0 (2 ^ (f - e0)) Hpn) as Hdiv. fold m' in Hdiv.
    assert (m0 = Xf * 2 ^ (f - e0)) as -> by nia.
    apply Z.mod_mul. lia. }
  destruct (Z.eq_dec mr 0) as [E|E]; [left; now apply Hz|].
  assert (0 <= m').
  { unfold m', m0. apply Z.div_pos; [|lia].
    apply Z.mul_nonneg_nonneg; [lia|apply Z.pow_nonneg; lia]. }
  right. destruct Hp as (m2 & e2 & Hr & Hval & He2 & Hcan2); [lia|].
  assert (Z.pos m2 * 2 ^ (e2 - f) <= Z.pos mb * 2 ^ (eb - f)) as Hvle
    by (rewrite Hval; exact Hmr).
  destruct (canonical_le m2 e2 mb eb f Hcan2 Hcan ltac:(lia) ltac:(lia) Hvle)
    as [Hlt|[-> Hm]].
  - exists m2, e2. rewrite Hr.
    destruct (Z.leb_spec e2 (emax - prec)); [|lia].
    split; [reflexivity|]. split; [easy|]. split; [lia|]. now left.
  - exists m2, eb. rewrite Hr.
    destruct (Z.leb_spec eb (emax - prec)); [|lia].
    split; [reflexivity|]. split; [easy|]. split; [lia|]. right. easy.
Qed.

(** Rounding a value that is at least the value of a float of the format
    gives at least that float, or overflows. *)
Lemma binary_round_ge (s : bool) (S : positive) (e : Z) (mb : positive) (eb : Z) :
  canonical_mantissa prec emax mb eb = true ->
  Z.pos mb * 2 ^ (eb - Z.min e eb) <= Z.pos S * 2 ^ (e - Z.min e eb) ->
  binary_round prec emax s S e = S754_infinity s \/
  exists m2 e2,
    binary_round prec emax s S e = S754_finite s m2 e2 /\
    canonical_mantissa prec emax m2 e2 = true /\ e2 <= emax - prec /\
    (eb < e2 \/ (e2 = eb /\ (mb <= m2)%positive)).
Proof.
  intros Hcan Hle.
  set (c := Z.min e eb) in *.
  set (D := Z.pos (digits2_pos S) + e).
  set (f := fexp prec emax D).
  set (e0 := Z.min e f).
  set (m0 := Z.pos S * 2 ^ (e - e0)).
  set (m' := m0 / 2 ^ (f - e0)).
  destruct (binary_round_spec s S e D f e0 m0 m' eq_refl eq_refl eq_refl eq_refl eq_refl)
    as (Hlo' & mr & [Hmr1 Hmr2] & Hexact & Hz & Hp).
  pose proof Hcan as Hcan'. unfold canonical_mantissa in Hcan'.
  apply Z.eqb_eq in Hcan'.
  change (Z.pos (digits2_pos mb)) with (Zdigits2 (Z.pos mb)) in Hcan'.
  pose proof (digits2_gt (Z.pos S) ltac:(lia)) as HhiS.
  pose proof (digits2_le (Z.pos mb) ltac:(lia)) as Hlob.
  assert (0 < Zdigits2 (Z.pos S)) as HdS by (simpl; lia).
  assert (0 < Zdigits2 (Z.pos mb)) as Hdb by (simpl; lia).
  assert (Zdigits2 (Z.pos mb) + eb <= D) as HD.
  { assert (2 ^ (Zdigits2 (Z.pos mb) - 1 + (eb - c))
            < 2 ^ (Zdigits2 (Z.pos S) + (e - c))) as Hpow.
    { rewrite !Z.pow_add_r by lia.
      assert (0 < 2 ^ (e - c)) by (apply Z.pow_pos_nonneg; lia).
      assert (0 < 2 ^ (eb - c)) by (apply Z.pow_pos_nonneg; lia).
      nia. }
    apply pow2_lt_inv in Hpow; [|lia]. unfold D. simpl Zdigits2 in *. lia. }
  assert (eb <= f) as Hfeb by (unfold f, fexp in *; lia).
  assert (emin prec emax <= eb) as Hemin by (unfold fexp in *; lia).
  assert (0 <= f - e0) as Hn by lia.
  assert (0 < 2 ^ (f - e0)) as Hpn by (apply Z.pow_pos_nonneg; lia).
  assert (0 < m' /\ (f = eb -> Z.pos mb <= m')) as [Hm'pos Hm'].
  { destruct (Z.eq_dec f eb) as [E|E].
    - assert (Z.pos mb <= m'); [|lia].
      unfold m'. apply Z.div_le_lower_bound; [lia|].
      unfold m0. assert (e0 = c) as -> by lia. rewrite E.
      rewrite Z.mul_comm. exact Hle.
    - split; [|lia].
      assert (f = D - prec) as Ef by (unfold f, fexp in *; lia).
      assert (0 < 2 ^ (D - f - 1)) by (apply Z.pow_pos_nonneg; lia).
      assert (2 ^ (D - f - 1) <= m') by (apply Hlo'; lia). lia. }
  destruct Hp as (m2 & e2 & Hr & Hval & He2 & Hcan2); [lia|].
  rewrite Hr. destruct (Z.leb_spec e2 (emax - prec)); [right|now left].
  exists m2, e2. split; [easy|]. split; [easy|]. split; [easy|].
  destruct (Z.eq_dec e2 eb) as [->|]; [right|left; lia].
  split; [easy|].
  assert (f = eb) as Ef by lia. rewrite Ef, Z.sub_diag in Hval. simpl in Hval.
  specialize (Hm' Ef). lia.
Qed.

Lemma shl_align_fst mx ex ez :
  ez <= ex -> Z.pos (fst (shl_align mx ex ez)) = Z.pos mx * 2 ^ (ex - ez).
Proof.
  intros H. unfold shl_align. destruct (ez - ex) as [|d|d] eqn:E; simpl.
  - replace (ex - ez) with 0 by lia. simpl. lia.
  - lia.
  - rewrite pos_iter_xO. f_equal. f_equal. lia.
Qed.

Lemma SFcompare_refl x : x <> S754_nan -> SFcompare x x = Some Eq.
Proof.
  destruct x as [s|s| |s m e]; try easy; simpl; try (destruct s; reflexivity).
  intros _. rewrite Z.compare_refl.
  change (PosDef.Pos.compare_cont Eq m m) with (Pos.compare m m).
  rewrite Pos.compare_refl. now destruct s.
Qed.

Lemma valid_finite s m e :
  valid_binary prec emax (S754_finite s m e) = true <->
  canonical_mantissa prec emax m e = true /\ e <= emax - prec.
Proof.
  simpl. unfold bounded. rewrite andb_true_iff, Z.leb_le. tauto.
Qed.

(** Adding a negative float to a float does not make it larger. *)
Lemma SFadd_finite_neg_le sx mx ex my ey :
  valid_binary prec emax (S754_finite sx mx ex) = true ->
  valid_binary prec emax
    (SFadd prec emax (S754_finite sx mx ex) (S754_finite true my ey)) = true /\
  (SFcompare (SFadd prec emax (S754_finite sx mx ex) (S754_finite true my ey))
     (S754_finite sx mx ex) = Some Lt \/
   SFcompare (SFadd prec emax (S754_finite sx mx ex) (S754_finite true my ey))
     (S754_finite sx mx ex) = Some Eq).
Proof.
  intros [Hcan Hbound]%valid_finite. unfold SFadd.
  change (IntDef.Z.min ex ey) with (Z.min ex ey).
  set (ez := Z.min ex ey).
  pose proof (shl_align_fst mx ex ez ltac:(lia)) as HX.
  pose proof (shl_align_fst my ey ez ltac:(lia)) as HY.
  set (X := fst (shl_align mx ex ez)) in *.
  set (Y := fst (shl_align my ey ez)) in *.
  assert (Z.min ez ex = ez) as Hmin by lia.
  destruct sx; simpl cond_Zopp.
  - (* a negative float: the sum is farther from zero *)
    change (- Z.pos X + - Z.pos Y) with (Z.neg (X + Y)).
    unfold binary_normalize.
    destruct (binary_round_ge true (X + Y) ez mx ex Hcan) as [->|(m2 & e2 & -> & Hc2 & Hb2 & Hord)].
    + rewrite Hmin, Z.sub_diag, <- HX, Pos2Z.inj_add. simpl (2 ^ 0). lia.
    + split; [reflexivity|]. now left.
    + split; [now apply valid_finite|]. simpl.
      destruct Hord as [Hlt|[-> Hm]].
      * apply Z.compare_gt_iff in Hlt. rewrite Hlt. now left.
      * rewrite Z.compare_refl.
        change (PosDef.Pos.compare_cont Eq m2 mx) with (Pos.compare m2 mx).
        destruct (Pos.compare_spec m2 mx); simpl; auto. lia.
  - (* a positive float *)
    destruct (Z.pos X + - Z.pos Y) as [|p|p] eqn:Esum; unfold binary_normalize.
    + split; [reflexivity|]. now left.
    + destruct (binary_round_le false p ez mx ex Hcan Hbound)
        as [->|(m2 & e2 & -> & Hc2 & Hb2 & Hord)].
      * rewrite Hmin, Z.sub_diag, <- HX. simpl (2 ^ 0). lia.
      * split; [reflexivity|]. now left.
      * split; [now apply valid_finite|]. simpl.
        destruct Hord as [Hlt|[-> Hm]].
        -- apply Z.compare_lt_iff in Hlt. rewrite Hlt. now left.
        -- rewrite Z.compare_refl.
           change (PosDef.Pos.compare_cont Eq m2 mx) with (Pos.compare m2 mx).
           destruct (Pos.compare_spec m2 mx); simpl; auto. lia.
    + destruct (binary_round_valid true p ez) as [->|[->|(m2 & e2 & -> & Hc2 & Hb2)]].
      * split; [reflexivity|]. now left.
      * split; [reflexivity|]. now left.
      * split; [now apply valid_finite|]. now left.
Qed.

Lemma SFadd_nonpos_le x y :
  valid_binary prec emax x = true -> valid_binary prec emax y = true ->
  x <> S754_nan ->
  (exists s, y = S754_zero s) \/ (exists m e, y = S754_finite true m e) ->
  valid_binary prec emax (SFadd prec emax x y) = true /\
  (SFcompare (SFadd prec emax x y) x = Some Lt \/
   SFcompare (SFadd prec emax x y) x = Some Eq).
Proof.
  intros Hx Hy Hnan [[s ->]|(m & e & ->)].
  - destruct x as [sx|sx| |sx mx ex]; try easy.
    + split; [now destruct sx, s|]. right. now destruct sx, s.
    + split; [reflexivity|]. right. now destruct sx.
    + split; [exact Hx|]. right. now apply SFcompare_refl.
  - destruct x as [sx|sx| |sx mx ex]; try easy.
    + split; [exact Hy|]. now left.
    + split; [reflexivity|]. right. now destruct sx.
    + now apply SFadd_finite_neg_le.
Qed.

(** The float of an integer: at most a float that the integer does not
    exceed. *)
Lemma binary_normalize_int_le n mb eb (sb : bool) :
  valid_binary prec emax (S754_finite sb mb eb) = true ->
  (if 0 <=? eb then n <= cond_Zopp sb (Z.pos mb) * 2 ^ eb
   else n * 2 ^ (- eb) <= cond_Zopp sb (Z.pos mb)) ->
  binary_normalize prec emax n 0 false = S754_infinity true \/
  (valid_binary prec emax (binary_normalize prec emax n 0 false) = true /\
   (SFcompare (binary_normalize prec emax n 0 false) (S754_finite sb mb eb)
    = Some Lt \/
    SFcompare (binary_normalize prec emax n 0 false) (S754_finite sb mb eb)
    = Some Eq)).
Proof.
  intros [Hcan Hbound]%valid_finite Hle.
  assert (0 < 2 ^ eb \/ eb < 0) as Hpe.
  { destruct (Z.lt_ge_cases eb 0); [now right|left; apply Z.pow_pos_nonneg; lia]. }
  assert (0 < 2 ^ (- eb) \/ 0 <= eb) as Hpe'.
  { destruct (Z.lt_ge_cases eb 0); [left; apply Z.pow_pos_nonneg; lia|now right]. }
  (* the integer and the float, at the smaller of the two exponents *)
  assert (n * 2 ^ (0 - Z.min 0 eb)
          <= cond_Zopp sb (Z.pos mb) * 2 ^ (eb - Z.min 0 eb)) as Hle'.
  { destruct (Z.leb_spec 0 eb).
    - replace (Z.min 0 eb) with 0 by lia. rewrite !Z.sub_0_r, Z.pow_0_r. lia.
    - replace (Z.min 0 eb) with eb by lia.
      rewrite Z.sub_diag, Z.sub_0_l, Z.pow_0_r. lia. }
  clear Hle.
  assert (0 < 2 ^ (0 - Z.min 0 eb)) as Hp1 by (apply Z.pow_pos_nonneg; lia).
  assert (0 < 2 ^ (eb - Z.min 0 eb)) as Hp2 by (apply Z.pow_pos_nonneg; lia).
  destruct n as [|p|p]; unfold binary_normalize.
  - right. split; [reflexivity|]. simpl.
    destruct sb; simpl in Hle'; [nia|now left].
  - destruct sb; simpl in Hle'; [nia|].
    destruct (binary_round_le false p 0 mb eb Hcan Hbound Hle')
      as [->|(m2 & e2 & -> & Hc2 & Hb2 & Hord)]; right.
    + split; [reflexivity|]. now left.
    + split; [now apply valid_finite|]. simpl.
      destruct Hord as [Hlt|[-> Hm]].
      * apply Z.compare_lt_iff in Hlt. rewrite Hlt. now left.
      * rewrite Z.compare_refl.
        change (PosDef.Pos.compare_cont Eq m2 mb) with (Pos.compare m2 mb).
        destruct (Pos.compare_spec m2 mb); simpl; auto. lia.
  - destruct sb; simpl in Hle'.
    + destruct (binary_round_ge true p 0 mb eb Hcan)
        as [->|(m2 & e2 & -> & Hc2 & Hb2 & Hord)]; [lia|now left|right].
      split; [now apply valid_finite|]. simpl.
      destruct Hord as [Hlt|[-> Hm]].
      * apply Z.compare_gt_iff in Hlt. rewrite Hlt. now left.
      * rewrite Z.compare_refl.
        change (PosDef.Pos.compare_cont Eq m2 mb) with (Pos.compare m2 mb).
        destruct (Pos.compare_spec m2 mb); simpl; auto. lia.
    + destruct (binary_round_valid true p 0) as [->|[->|(m2 & e2 & -> & Hc2 & Hb2)]].
      * right. split; [reflexivity|]. now left.
      * now left.
      * right. split; [now apply valid_finite|]. now left.
Qed.

(** The float of an integer is valid, and not positive when the integer is
    not. *)
Lemma binary_normalize_int_valid n :
  valid_binary prec emax (binary_normalize prec emax n 0 false) = true /\
  binary_normalize prec emax n 0 false <> S754_nan /\
  (n <= 0 ->
   binary_normalize prec emax n 0 false = S754_infinity true \/
   (exists s, binary_normalize prec emax n 0 false = S754_zero s) \/
   (exists m e, binary_normalize prec emax n 0 false = S754_finite true m e)).
Proof.
  destruct n as [|p|p]; unfold binary_normalize.
  - split; [reflexivity|]. split; [easy|]. intros _. right. left. eauto.
  - destruct (binary_round_valid false p 0) as [->|[->|(m2 & e2 & -> & Hc2 & Hb2)]];
      (split; [try reflexivity; now apply valid_finite|]); (split; [easy|]); lia.
  - destruct (binary_round_valid true p 0) as [->|[->|(m2 & e2 & -> & Hc2 & Hb2)]];
      (split; [try reflexivity; now apply valid_finite|]); (split; [easy|]);
      intros _; eauto.
Qed.

Lemma binary_normalize_valid m e (szero : bool) :
  valid_binary prec emax (binary_normalize prec emax m e szero) = true.
Proof.
  destruct m as [|p|p]; unfold binary_normalize; [reflexivity| |].
  - destruct (binary_round_valid false p e) as [->|[->|(m2 & e2 & -> & Hc2 & Hb2)]];
      try reflexivity. now apply valid_finite.
  - destruct (binary_round_valid true p e) as [->|[->|(m2 & e2 & -> & Hc2 & Hb2)]];
      try reflexivity. now apply valid_finite.
Qed.

(** The sum of two floats of the format is a float of the format. *)
Lemma SFadd_valid x y :
  valid_binary prec emax x = true -> valid_binary prec emax y = true ->
  valid_binary prec emax (SFadd prec emax x y) = true.
Proof.
  intros Hx Hy.
  destruct x as [[]|[]| |sx mx ex], y as [[]|[]| |sy my ey];
    try reflexivity; try assumption.
  unfold SFadd. apply binary_normalize_valid.
Qed.

End RoundingOrder.

(** ** A step that is not positive *)

Lemma prec_pos : 0 < prec.
Proof. reflexivity. Qed.

(** The rank tells the order of the floats of the format. *)
Lemma float_rank_le x y :
  float_in_range x = true -> float_in_range y = true ->
  (SFcompare x y = Some Lt \/ SFcompare x y = Some Eq) ->
  float_rank x <= float_rank y.
Proof.
  intros Hx%float_in_range_spec Hy%float_in_range_spec.
  unfold float_rank.
  change (emin prec emax) with (-1074) in Hx, Hy.
  change (emax - prec) with 971 in Hx, Hy.
  change (2 ^ prec) with (2 ^ 53) in Hx, Hy.
  change (2 ^ 64) with (2048 * 2 ^ 53).
  assert (0 < 2 ^ 53) as HP by reflexivity.
  revert Hx Hy HP. generalize (2 ^ 53). intros P Hx Hy HP.
  destruct x as [[]|[]| |[] mx ex], y as [[]|[]| |[] my ey]; simpl;
    intros [H|H]; try discriminate H; try nia;
    destruct (Z.compare_spec ex ey) as [->|Hlt|Hgt];
    try discriminate H; try nia;
    change (PosDef.Pos.compare_cont Eq mx my) with (Pos.compare mx my) in H;
    destruct (Pos.compare_spec mx my); simpl in H; try discriminate H; nia.
Qed.

Lemma float_rank_le_inv x y :
  float_in_range x = true -> float_in_range y = true ->
  x <> S754_nan -> y <> S754_nan ->
  float_rank x <= float_rank y ->
  SFcompare x y = Some Lt \/ SFcompare x y = Some Eq.
Proof.
  intros Hx%float_in_range_spec Hy%float_in_range_spec.
  unfold float_rank.
  change (emin prec emax) with (-1074) in Hx, Hy.
  change (emax - prec) with 971 in Hx, Hy.
  change (2 ^ prec) with (2 ^ 53) in Hx, Hy.
  change (2 ^ 64) with (2048 * 2 ^ 53).
  assert (0 < 2 ^ 53) as HP by reflexivity.
  revert Hx Hy HP. generalize (2 ^ 53). intros P Hx Hy HP.
  destruct x as [[]|[]| |[] mx ex], y as [[]|[]| |[] my ey]; simpl;
    intros Hnx Hny H; try easy; auto; try nia;
    destruct (Z.compare_spec ex ey) as [->|Hlt|Hgt]; auto; try nia;
    change (PosDef.Pos.compare_cont Eq mx my) with (Pos.compare mx my);
    destruct (Pos.compare_spec mx my); simpl; auto; nia.
Qed.

(** The order of the floats is transitive. *)
Lemma float_le_trans x y z :
  valid_binary prec emax x = true -> valid_binary prec emax y = true ->
  valid_binary prec emax z = true ->
  (SFcompare x y = Some Lt \/ SFcompare x y = Some Eq) ->
  py_le (VFloat y) (VFloat z) = true ->
  py_le (VFloat x) (VFloat z) = true.
Proof.
  intros Hx%valid_in_range Hy%valid_in_range Hz%valid_in_range Hxy Hyz.
  unfold py_le in *. simpl in *.
  assert (SFcompare y z = Some Lt \/ SFcompare y z = Some Eq) as Hyz'.
  { destruct (SFcompare y z) as [[]|]; auto; discriminate Hyz. }
  pose proof (float_rank_le x y Hx Hy Hxy) as H1.
  pose proof (float_rank_le y z Hy Hz Hyz') as H2.
  destruct (float_rank_le_inv x z Hx Hz) as [->| ->]; try reflexivity; try lia.
  - intros ->. destruct Hxy as [H|H]; discriminate H.
  - intros ->. destruct y; destruct Hyz' as [H|H]; try discriminate H.
Qed.

Lemma nonpos_float_shape y :
  py_le (VFloat y) (VInt 0) = true ->
  y = S754_infinity true \/ (exists s, y = S754_zero s) \/
  (exists m e, y = S754_finite true m e).
Proof.
  unfold py_le. destruct y as [s|[]| |[] m e]; eauto; try easy.
  cbn [py_compare cmp_int_float option_map cond_Zopp].
  destruct (Z.leb_spec 0 e) as [He|He].
  - assert (0 < 2 ^ e) as Hp by (apply Z.pow_pos_nonneg; lia).
    assert (0 < Z.pos m * 2 ^ e) as ->%Z.compare_lt_iff by nia. easy.
  - easy.
Qed.

Lemma float_of_int_valid n x :
  float_of_int n = Ok x ->
  valid_binary prec emax x = true /\ x <> S754_nan /\
  (forall s, x <> S754_infinity s) /\
  (n <= 0 ->
   (exists s, x = S754_zero s) \/ (exists m e, x = S754_finite true m e)).
Proof.
  unfold float_of_int.
  destruct (binary_normalize_int_valid prec emax prec_pos n) as (Hv & Hn & Hs).
  destruct (binary_normalize prec emax n 0 false) as [s|s| |s m e] eqn:E;
    intros [= <-]; (split; [exact Hv|]); (split; [easy|]); (split; [easy|]);
    intros Hk; destruct (Hs Hk) as [H|H]; try discriminate H; exact H.
Qed.

(** An integer that is at most a float converts to a float that is at most
    that float. *)
Lemma float_of_int_le n x b :
  valid_binary prec emax b = true ->
  py_le (VInt n) (VFloat b) = true -> float_of_int n = Ok x ->
  py_le (VFloat x) (VFloat b) = true.
Proof.
  intros Hb Hle Hx.
  destruct (float_of_int_valid n x Hx) as (Hv & Hnan & Hinf & Hneg).
  unfold py_le in *. simpl in *.
  destruct b as [sb|sb| |sb mb eb]; simpl in Hle.
  - destruct (Z.compare_spec n 0) as [->|Hlt|Hgt]; try discriminate Hle;
      (destruct Hneg as [[s ->]|(m & e & ->)]; [lia| |]; reflexivity).
  - destruct sb; [discriminate Hle|].
    destruct x as [s|s| |[] m e]; try reflexivity; [now destruct (Hinf s)|easy].
  - discriminate Hle.
  - unfold float_of_int in Hx.
    destruct (binary_normalize_int_le prec emax prec_pos n mb eb sb Hb)
      as [E|(_ & Hord)].
    + destruct (0 <=? eb).
      * destruct (Z.compare_spec n (cond_Zopp sb (Z.pos mb) * 2 ^ eb));
          try discriminate Hle; lia.
      * destruct (Z.compare_spec (n * 2 ^ (- eb)) (cond_Zopp sb (Z.pos mb)));
          try discriminate Hle; lia.
    + rewrite E in Hx. discriminate Hx.
    + destruct (binary_normalize prec emax n 0 false) eqn:E;
        try discriminate Hx; injection Hx as <-;
        destruct Hord as [-> | ->]; reflexivity.
Qed.

(** A smaller integer passes the test that an integer passes. *)
Lemma int_le_float_mono n n' b :
  n' <= n -> py_le (VInt n) (VFloat b) = true -> py_le (VInt n') (VFloat b) = true.
Proof.
  intros Hn. unfold py_le. simpl.
  destruct b as [sb|sb| |sb mb eb]; simpl; try easy.
  - destruct (Z.compare_spec n 0); try easy;
      destruct (Z.compare_spec n' 0); try easy; lia.
  - destruct (0 <=? eb).
    + destruct (Z.compare_spec n (cond_Zopp sb (Z.pos mb) * 2 ^ eb)); try easy;
        destruct (Z.compare_spec n' (cond_Zopp sb (Z.pos mb) * 2 ^ eb)); try easy; lia.
    + assert (0 <= 2 ^ (- eb)) by apply Z.pow_nonneg, Z.lt_le_incl, Z.lt_0_2.
      destruct (Z.compare_spec (n * 2 ^ (- eb)) (cond_Zopp sb (Z.pos mb))); try easy;
        destruct (Z.compare_spec (n' * 2 ^ (- eb)) (cond_Zopp sb (Z.pos mb)));
        try easy; nia.
Qed.

(** One turn of the loop with a step that is zero or negative: the running
    value still passes the test. *)
Lemma nonpos_add_float x y b :
  valid_binary prec emax x = true -> valid_binary prec emax y = true ->
  valid_binary prec emax b = true ->
  py_le (VFloat x) (VFloat b) = true ->
  (exists s, y = S754_zero s) \/ (exists m e, y = S754_finite true m e) ->
  valid_binary prec emax (fadd x y) = true /\
  py_le (VFloat (fadd x y)) (VFloat b) = true.
Proof.
  intros Hx Hy Hb Hle Hshape.
  assert (x <> S754_nan) as Hnan by (intros ->; discriminate Hle).
  destruct (SFadd_nonpos_le prec emax prec_pos x y Hx Hy Hnan Hshape) as [Hv Hord].
  split; [exact Hv|].
  now apply (float_le_trans (fadd x y) x b).
Qed.

Lemma nonpos_running_float step y b x0 :
  (forall x, py_add (VFloat x) step = Ok (VFloat (fadd x y))) ->
  valid_binary prec emax y = true ->
  (exists s, y = S754_zero s) \/ (exists m e, y = S754_finite true m e) ->
  valid_binary prec emax b = true ->
  valid_binary prec emax x0 = true -> py_le (VFloat x0) (VFloat b) = true ->
  forall i, exists x,
    running step (VFloat x0) i = Ok (VFloat x) /\
    valid_binary prec emax x = true /\ py_le (VFloat x) (VFloat b) = true.
Proof.
  intros Hadd Hy Hshape Hb Hx0 Hle0.
  induction i as [|i (x & Hrun & Hx & Hle)].
  - exists x0. easy.
  - exists (fadd x y). rewrite running_S_back, Hrun. split; [apply Hadd|].
    now apply nonpos_add_float.
Qed.

Lemma nonpos_running_int k b n0 :
  k <= 0 -> py_le (VInt n0) (VFloat b) = true ->
  forall i, exists n,
    running (VInt k) (VInt n0) i = Ok (VInt n) /\ py_le (VInt n) (VFloat b) = true.
Proof.
  intros Hk Hle0. induction i as [|i (n & Hrun & Hle)].
  - exists n0. easy.
  - exists (n + k). rewrite running_S_back, Hrun. split; [reflexivity|].
    apply (int_le_float_mono n); [lia|exact Hle].
Qed.

Lemma minus_infinity_running b i :
  b <> S754_nan ->
  exists v, running minus_infinity minus_infinity i = Ok v /\
            py_le v (VFloat b) = true.
Proof.
  intros Hb. exists minus_infinity. split.
  - induction i as [|i IH]; [reflexivity|]. now rewrite running_S_back, IH.
  - now destruct b as [[]|[]| |[] m e].
Qed.

(** With a step that is zero or negative, every running value passes the
    test that the start passes, once the first addition gives a value and
    unless it is [inf + -inf]. *)
Lemma nonpos_step_passes start step b v1 :
  valid_value start = true -> valid_value step = true ->
  valid_binary prec emax b = true ->
  py_le start (VFloat b) = true -> py_le step (VInt 0) = true ->
  ~ (start = plus_infinity /\ step = minus_infinity) ->
  py_add start step = Ok v1 ->
  forall i, exists v, running step start i = Ok v /\ py_le v (VFloat b) = true.
Proof.
  intros Hstart Hstep Hb Hle Hneg Hcorner Hadd i.
  assert (b <> S754_nan) as Hbn.
  { intros ->. now destruct start as [n|[s|s| |s m e]]. }
  destruct step as [k|y], start as [n0|x0].
  - assert (k <= 0) as Hk.
    { unfold py_le in Hneg. simpl in Hneg.
      destruct (Z.compare_spec k 0); try discriminate Hneg; lia. }
    destruct (nonpos_running_int k b n0 Hk Hle i) as (n & Hn & Hnle). eauto.
  - assert (k <= 0) as Hk.
    { unfold py_le in Hneg. simpl in Hneg.
      destruct (Z.compare_spec k 0); try discriminate Hneg; lia. }
    simpl in Hadd. destruct (float_of_int k) as [y|e] eqn:Ey; [|discriminate Hadd].
    destruct (float_of_int_valid k y Ey) as (Hy & _ & _ & Hshape).
    destruct (nonpos_running_float (VInt k) y b x0) with (i := i)
      as (x & Hx & _ & Hxle); auto.
    + intros x. simpl. now rewrite Ey.
    + eauto.
  - simpl in Hadd. destruct (float_of_int n0) as [x|e] eqn:Ex; [|discriminate Hadd].
    injection Hadd as <-.
    destruct (float_of_int_valid n0 x Ex) as (Hx & Hxn & Hxi & _).
    destruct i as [|i]; [exists (VInt n0); easy|].
    rewrite (running_S_ok (VFloat y) (VInt n0) (VFloat (fadd x y)))
      by (simpl; now rewrite Ex).
    destruct (nonpos_float_shape y Hneg) as [->|Hshape].
    + replace (fadd x (S754_infinity true)) with (S754_infinity true).
      * now apply minus_infinity_running.
      * destruct x as [s|s| |s m e]; try reflexivity; [now destruct (Hxi s)|easy].
    + destruct (nonpos_add_float x y b) as [Hv1 Hle1]; auto.
      { now apply (float_of_int_le n0). }
      destruct (nonpos_running_float (VFloat y) y b (fadd x y)) with (i := i)
        as (x' & Hx' & _ & Hxle); auto.
      eauto.
  - destruct (nonpos_float_shape y Hneg) as [->|Hshape].
    + destruct i as [|i]; [exists (VFloat x0); easy|].
      rewrite (running_S_ok (VFloat (S754_infinity true)) (VFloat x0) minus_infinity).
      * now apply minus_infinity_running.
      * simpl. destruct x0 as [s|[]| |s m e]; try reflexivity.
        -- exfalso. now apply Hcorner.
        -- discriminate Hle.
    + destruct (nonpos_running_float (VFloat y) y b x0) with (i := i)
        as (x & Hx & _ & Hxle); auto.
      eauto.
Qed.

Lemma tolerance_valid : valid_binary prec emax tolerance = true.
Proof. vm_compute. reflexivity. Qed.

Lemma bound_valid end_ bound :
  valid_value end_ = true -> py_add end_ (VFloat tolerance) = Ok bound ->
  exists b, bound = VFloat b /\ valid_binary prec emax b = true.
Proof.
  intros Hend. destruct end_ as [m|x]; simpl.
  - destruct (float_of_int m) as [x|e] eqn:Ex; [|easy]. intros [= <-].
    destruct (float_of_int_valid m x Ex) as (Hx & _).
    eexists. split; [reflexivity|].
    apply (SFadd_valid prec emax prec_pos); [exact Hx|apply tolerance_valid].
  - intros [= <-]. eexists. split; [reflexivity|].
    apply (SFadd_valid prec emax prec_pos); [exact Hend|apply tolerance_valid].
Qed.

(** The loop of a spec with a step that is zero or negative and a start
    that passes the test has no exit. *)
Lemma nonpos_step_unfinished sp bound v1 :
  all_int sp = false ->
  py_add (sp_end sp) (VFloat tolerance) = Ok bound ->
  valid_value (sp_start sp) = true -> valid_value (sp_end sp) = true ->
  valid_value (sp_step sp) = true ->
  py_le (sp_start sp) bound = true -> py_le (sp_step sp) (VInt 0) = true ->
  ~ (sp_start sp = plus_infinity /\ sp_step sp = minus_infinity) ->
  py_add (sp_start sp) (sp_step sp) = Ok v1 ->
  forall fuel, spec_values fuel sp = None.
Proof.
  intros Hreal Hbound Hstart Hend Hstep Hle Hneg Hcorner Hadd fuel.
  destruct (bound_valid _ _ Hend Hbound) as (b & -> & Hb).
  rewrite spec_values_real by easy.
  destruct (accumulate _ _ _ _ _) as [r|] eqn:E; [|reflexivity].
  apply (accumulate_exit _ _ _ Hbound) in E as (n & _ & Hat).
  destruct (nonpos_step_passes _ _ b v1 Hstart Hstep Hb Hle Hneg Hcorner Hadd n)
    as (v & Hv & Hvle).
  rewrite Hv in Hat. congruence.
Qed.

Lemma py_add_raises a b e : py_add a b = Raise e -> e = OverflowError.
Proof.
  unfold float_of_int, py_add, float_of_int.
  destruct a as [m|x], b as [n|y]; simpl; try easy.
  - destruct (binary_normalize prec emax m 0 false); simpl; congruence.
  - destruct (binary_normalize prec emax n 0 false); simpl; congruence.
Qed.

(** ** The claims about real ranges *)

(** C2. For a spec that is not all-integer, with [bound] the value of
    [end + 1e-12] (an exception of that addition is the outcome of the
    expansion), the expansion returns a list exactly when the list is made
    of the running values [start], [start + step], ... rounded to 12
    decimals, each running value in it passing the test [v <= bound] and
    the next running value failing it.  The spec (0.1, 0.3, 0.1) gives
    [0.1, 0.2, 0.3], whatever the fuel from 4 on. *)
Theorem real_range_accumulates (sp : scan_spec) :
  all_int sp = false ->
  (forall e, py_add (sp_end sp) (VFloat tolerance) = Raise e ->
     forall fuel, spec_values (S fuel) sp = Some (Raise e)) /\
  (forall bound vals,
     py_add (sp_end sp) (VFloat tolerance) = Ok bound ->
     ((exists fuel, spec_values fuel sp = Some (Ok vals)) <->
      exists vs,
        vals = map py_round12 vs /\
        (forall i w, vs !! i = Some w ->
           running (sp_step sp) (sp_start sp) i = Ok w /\ py_le w bound = true) /\
        (exists w, running (sp_step sp) (sp_start sp) (length vs) = Ok w /\
                   py_le w bound = false))) /\
  (forall fuel, (4 <= fuel)%nat ->
     spec_values fuel tenths_spec
     = Some (Ok [VFloat (decimal 1 1); VFloat (decimal 2 1); VFloat (decimal 3 1)])).
Proof.
  intros Hreal. split; [|split].
  - intros e He fuel. rewrite spec_values_real by easy. simpl. now rewrite He.
  - intros bound vals Hbound. split.
    + intros (fuel & H). rewrite spec_values_real in H by easy.
      apply (accumulate_sound _ _ _ Hbound) in H
        as (vs & -> & _ & Hrun & Hstop).
      exists vs. easy.
    + intros (vs & -> & Hrun & Hstop). exists (S (length vs)).
      rewrite spec_values_real by easy.
      apply (accumulate_complete _ _ _ Hbound vs _ []); [easy|easy|lia].
  - intros fuel Hfuel. replace fuel with (4 + (fuel - 4))%nat by lia.
    rewrite spec_values_real by reflexivity.
    apply accumulate_more. vm_compute. reflexivity.
Qed.

(** The statement at the spec (0.1, 0.3, 0.1). *)
Lemma real_range_accumulates_witness :
  all_int tenths_spec = false /\
  (forall e, py_add (sp_end tenths_spec) (VFloat tolerance) = Raise e ->
     forall fuel, spec_values (S fuel) tenths_spec = Some (Raise e)) /\
  (forall bound vals,
     py_add (sp_end tenths_spec) (VFloat tolerance) = Ok bound ->
     ((exists fuel, spec_values fuel tenths_spec = Some (Ok vals)) <->
      exists vs,
        vals = map py_round12 vs /\
        (forall i w, vs !! i = Some w ->
           running (sp_step tenths_spec) (sp_start tenths_spec) i = Ok w /\
           py_le w bound = true) /\
        (exists w, running (sp_step tenths_spec) (sp_start tenths_spec) (length vs)
                     = Ok w /\
                   py_le w bound = false))) /\
  (forall fuel, (4 <= fuel)%nat ->
     spec_values fuel tenths_spec
     = Some (Ok [VFloat (decimal 1 1); VFloat (decimal 2 1); VFloat (decimal 3 1)])).
Proof.
  split; [reflexivity|].
  apply (real_range_accumulates tenths_spec). reflexivity.
Defined.

Lemma spec_values_stuck sp bound n v :
  all_int sp = false ->
  py_add (sp_end sp) (VFloat tolerance) = Ok bound ->
  (forall i, (i <= n)%nat ->
     exists w, running (sp_step sp) (sp_start sp) i = Ok w /\ py_le w bound = true) ->
  running (sp_step sp) (sp_start sp) n = Ok v ->
  py_add v (sp_step sp) = Ok v ->
  forall fuel, spec_values fuel sp = None.
Proof.
  intros Hreal Hbound Hbefore Hn Hfix fuel.
  rewrite spec_values_real by easy.
  destruct (accumulate _ _ _ _ _) as [r|] eqn:E; [|easy].
  apply (accumulate_exit _ _ _ Hbound) in E as (m & Hm).
  exfalso. revert Hm. eapply stuck_no_exit; eassumption.
Qed.

Lemma generate_first_unfinished fuel sp rest :
  spec_values fuel sp = None ->
  generate_param_combinations fuel (sp :: rest) = None.
Proof.
  intros H. unfold generate_param_combinations. simpl. now rewrite H.
Qed.

(** The positive step 1e-17 is absorbed at 1.0: the loop of the spec
    (1.0, 2.0, 1e-17) never ends, although its step is positive.  And a
    step that is not positive does not always keep the loop going: on
    (inf, inf, -inf) the first addition gives NaN, which fails the test, and
    the value list is [inf]; on (10 ** 400, inf, -0.1) the first addition
    raises [OverflowError]. *)
Lemma positive_step_does_not_terminate :
  all_int stuck_spec = false /\
  py_compare (VInt 0) (sp_step stuck_spec) = Some Lt /\
  py_add (sp_start stuck_spec) (sp_step stuck_spec) = Ok (sp_start stuck_spec) /\
  (forall fuel, generate_param_combinations fuel [stuck_spec] = None) /\
  py_le (sp_step corner_spec) (VInt 0) = true /\
  generate_param_combinations 2 [corner_spec]
    = Some (Ok ([lit "x"], [[plus_infinity]])) /\
  py_le (sp_step overflow_spec) (VInt 0) = true /\
  generate_param_combinations 1 [overflow_spec] = Some (Raise OverflowError).
Proof.
  split; [reflexivity|]. split; [reflexivity|]. split; [reflexivity|].
  split.
  - intros fuel. apply generate_first_unfinished.
    apply (spec_values_stuck stuck_spec (VFloat (fadd (decimal 2 0) tolerance))
             0%nat (sp_start stuck_spec)); try reflexivity.
    intros i Hi. assert (i = 0)%nat as -> by lia.
    exists (sp_start stuck_spec). split; reflexivity.
  - repeat split; vm_compute; reflexivity.
Qed.

(** C10, amended.  The generation ends on every spec list whose specs are
    of the kinds of [ends]: all-integer, or with a start that fails the
    test, or such that every turn of the loop makes the running value
    strictly larger (and, when the running values are integers, with a
    bound other than [+inf]).  For a spec that is not all-integer, with
    [bound] the value of [end + 1e-12], the expansion ends exactly when the
    loop has an exit: a running value that fails the test, or cannot be
    computed, after running values that all pass.  It never ends when a
    running value that passes the test is left unchanged by adding [step],
    and then the generation never ends either.  With a step that is zero
    or negative, among values of binary64 and a start that passes the
    test: when the first addition [start + step] cannot be computed, the
    generation raises [OverflowError]; on [inf + -inf] the value list is
    [inf]; in every other case the expansion never ends, whatever the fuel,
    and the generation never ends either. *)
Theorem real_range_termination
    (scan_specs : list scan_spec) (sp : scan_spec) (bound : value) :
  (Forall ends scan_specs ->
   exists fuel r, generate_param_combinations fuel scan_specs = Some r) /\
  (all_int sp = false ->
   py_add (sp_end sp) (VFloat tolerance) = Ok bound ->
   ((exists fuel r, spec_values fuel sp = Some r) <->
    exists n, exits bound (sp_step sp) (sp_start sp) n) /\
   (forall n v,
      (forall i, (i <= n)%nat ->
         exists w, running (sp_step sp) (sp_start sp) i = Ok w /\
                   py_le w bound = true) ->
      running (sp_step sp) (sp_start sp) n = Ok v ->
      py_add v (sp_step sp) = Ok v ->
      forall fuel rest,
        spec_values fuel sp = None /\
        generate_param_combinations fuel (sp :: rest) = None) /\
   (valid_value (sp_start sp) = true -> valid_value (sp_end sp) = true ->
    valid_value (sp_step sp) = true ->
    py_le (sp_start sp) bound = true ->
    py_le (sp_step sp) (VInt 0) = true ->
    (forall e, py_add (sp_start sp) (sp_step sp) = Raise e ->
       e = OverflowError /\
       forall fuel rest,
         spec_values (S fuel) sp = Some (Raise OverflowError) /\
         generate_param_combinations (S fuel) (sp :: rest)
         = Some (Raise OverflowError)) /\
    (sp_start sp = plus_infinity -> sp_step sp = minus_infinity ->
       forall fuel, spec_values (S (S fuel)) sp = Some (Ok [plus_infinity])) /\
    (forall v1, py_add (sp_start sp) (sp_step sp) = Ok v1 ->
       ~ (sp_start sp = plus_infinity /\ sp_step sp = minus_infinity) ->
       forall fuel rest,
         spec_values fuel sp = None /\
         generate_param_combinations fuel (sp :: rest) = None))).
Proof.
  split.
  - intros H. apply generate_ends.
    eapply Forall_impl; [exact H|]. apply ends_spec_values.
  - intros Hreal Hbound. split; [|split].
    + split.
      * intros (fuel & r & H). rewrite spec_values_real in H by easy.
        now apply (accumulate_exit _ _ _ Hbound) in H.
      * intros (n & Hn). exists (S n).
        destruct (exit_accumulate _ _ _ Hbound n (sp_start sp) [] (S n) Hn)
          as (r & Hr); [lia|].
        exists r. now rewrite spec_values_real.
    + intros n v Hbefore Hn Hfix fuel rest.
      pose proof (spec_values_stuck sp bound n v Hreal Hbound Hbefore Hn Hfix fuel)
        as Hnone.
      split; [exact Hnone|]. now apply generate_first_unfinished.
    + intros Hstart Hend Hstep Hle Hneg. split; [|split].
      * intros e He. pose proof (py_add_raises _ _ _ He) as ->.
        split; [reflexivity|]. intros fuel rest.
        assert (spec_values (S fuel) sp = Some (Raise OverflowError)) as Hsp.
        { rewrite spec_values_real by easy. cbn [accumulate].
          now rewrite Hbound, Hle, He. }
        split; [exact Hsp|].
        unfold generate_param_combinations. cbn [expand_specs]. now rewrite Hsp.
      * intros Hs Hst fuel. rewrite spec_values_real by easy.
        cbn [accumulate]. rewrite Hbound, Hle, Hst, Hs.
        destruct bound as [n|[s|s| |s m e]]; reflexivity.
      * intros v1 Hadd Hcorner fuel rest.
        pose proof (nonpos_step_unfinished sp bound v1 Hreal Hbound Hstart Hend
                      Hstep Hle Hneg Hcorner Hadd fuel) as Hnone.
        split; [exact Hnone|]. now apply generate_first_unfinished.
Qed.

Lemma tenths_spec_increasing :
  increasing (VFloat (fadd (decimal 3 1) tolerance))
    (sp_step tenths_spec) (sp_start tenths_spec).
Proof.
  intros i v Hbefore Hi Hle.
  destruct i as [|[|[|[|i]]]].
  - vm_compute in Hi. injection Hi as <-.
    exists (VFloat (decimal 2 1)). split; vm_compute; reflexivity.
  - vm_compute in Hi. injection Hi as <-.
    exists (VFloat (fadd (decimal 2 1) (decimal 1 1))).
    split; vm_compute; reflexivity.
  - vm_compute in Hi. injection Hi as <-.
    exists (VFloat (fadd (fadd (decimal 2 1) (decimal 1 1)) (decimal 1 1))).
    split; vm_compute; reflexivity.
  - vm_compute in Hi. injection Hi as <-. vm_compute in Hle. discriminate Hle.
  - destruct (Hbefore 3%nat) as (w & Hw & Hlw); [lia|].
    vm_compute in Hw. injection Hw as <-. vm_compute in Hlw. discriminate Hlw.
Qed.

(** The statement on the spec list made of the integer spec (1, 5, 2) and
    the spec (0.1, 0.3, 0.1), on the spec (1.0, 2.0, 1e-17), and on the
    spec (1.0, 2.0, -0.1) with its negative step. *)
Lemma real_range_termination_witness :
  Forall ends [int_spec "n" 1 5 2; tenths_spec] /\
  (exists fuel r,
     generate_param_combinations fuel [int_spec "n" 1 5 2; tenths_spec] = Some r) /\
  all_int stuck_spec = false /\
  py_add (sp_end stuck_spec) (VFloat tolerance)
    = Ok (VFloat (fadd (decimal 2 0) tolerance)) /\
  ((exists fuel r, spec_values fuel stuck_spec = Some r) <->
   exists n, exits (VFloat (fadd (decimal 2 0) tolerance))
               (sp_step stuck_spec) (sp_start stuck_spec) n) /\
  (forall fuel rest,
     spec_values fuel stuck_spec = None /\
     generate_param_combinations fuel (stuck_spec :: rest) = None) /\
  all_int falling_spec = false /\
  py_add (sp_end falling_spec) (VFloat tolerance)
    = Ok (VFloat (fadd (decimal 2 0) tolerance)) /\
  valid_value (sp_start falling_spec) = true /\
  valid_value (sp_end falling_spec) = true /\
  valid_value (sp_step falling_spec) = true /\
  py_le (sp_start falling_spec) (VFloat (fadd (decimal 2 0) tolerance)) = true /\
  py_le (sp_step falling_spec) (VInt 0) = true /\
  py_add (sp_start falling_spec) (sp_step falling_spec)
    = Ok (VFloat (fadd (decimal 1 0) (decimal (-1) 1))) /\
  ~ (sp_start falling_spec = plus_infinity /\
     sp_step falling_spec = minus_infinity) /\
  (forall fuel rest,
     spec_values fuel falling_spec = None /\
     generate_param_combinations fuel (falling_spec :: rest) = None).
Proof.
  assert (Forall ends [int_spec "n" 1 5 2; tenths_spec]) as Hends.
  { constructor; [now left|]. constructor; [|constructor].
    right. right. exists (VFloat (fadd (decimal 3 1) tolerance)).
    split; [reflexivity|]. right.
    split; [reflexivity|]. split; [reflexivity|].
    split; [intros Hs; discriminate Hs|].
    apply tenths_spec_increasing. }
  assert (~ (sp_start falling_spec = plus_infinity /\
             sp_step falling_spec = minus_infinity)) as Hcorner.
  { intros [_ H]. vm_compute in H. discriminate H. }
  destruct (real_range_termination [int_spec "n" 1 5 2; tenths_spec] stuck_spec
              (VFloat (fadd (decimal 2 0) tolerance)))
    as [Hlist Hspec].
  destruct (Hspec eq_refl eq_refl) as (Hiff & Hstuck & _).
  destruct (real_range_termination [] falling_spec
              (VFloat (fadd (decimal 2 0) tolerance)))
    as [_ Hfall].
  destruct (Hfall eq_refl eq_refl) as (_ & _ & Hnonpos).
  destruct (Hnonpos eq_refl eq_refl eq_refl eq_refl eq_refl) as (_ & _ & Hnever).
  split; [exact Hends|]. split; [exact (Hlist Hends)|].
  split; [reflexivity|]. split; [reflexivity|]. split; [exact Hiff|].
  split.
  { apply (Hstuck 0%nat (sp_start stuck_spec)); try reflexivity.
    intros i Hi. assert (i = 0)%nat as -> by lia.
    exists (sp_start stuck_spec). split; reflexivity. }
  do 8 (split; [reflexivity|]). split; [exact Hcorner|].
  exact (Hnever _ eq_refl Hcorner).
Defined.

(** ** The symmetry filter *)

Section FilterFacts.

Lemma index_of_lookup x l i :
  index_of x l = Some i -> l !! i = Some x.
Proof.
  revert i. induction l as [|y l IH]; intros i; simpl; [easy|].
  case_bool_decide as E.
  - intros [= <-]. now subst.
  - destruct (index_of x l) as [j|]; simpl; [|easy].
    intros [= <-]. now apply IH.
Qed.

Lemma name_in_index x l :
  name_in x l = true <-> exists i, index_of x l = Some i.
Proof.
  induction l as [|y l IH]; simpl.
  - split; [easy|]. now intros [i H].
  - case_bool_decide as E; simpl; [split; eauto|].
    rewrite IH. split; intros [i H].
    + exists (S i). now rewrite H.
    + destruct (index_of x l) as [j|]; [eauto|easy].
Qed.

Lemma name_in_false x l : name_in x l = false <-> index_of x l = None.
Proof.
  destruct (index_of x l) as [i|] eqn:E.
  - assert (name_in x l = true) as -> by (apply name_in_index; eauto). easy.
  - destruct (name_in x l) eqn:N; [|easy].
    apply name_in_index in N as [i N]. congruence.
Qed.

Lemma keep_combo_keeps i1 i2 c :
  (i1 < length c)%nat -> (i2 < length c)%nat ->
  keep_combo i1 i2 c = Ok (keeps i1 i2 c).
Proof.
  intros [a Ha]%lookup_lt_is_Some [b Hb]%lookup_lt_is_Some.
  unfold keep_combo, keeps. now rewrite Ha, Hb.
Qed.

(** The comprehension is the filter by the test. *)
Lemma filter_combos_filter i1 i2 combos :
  Forall (fun c => (i1 < length c)%nat /\ (i2 < length c)%nat) combos ->
  filter_combos i1 i2 combos = Ok (List.filter (keeps i1 i2) combos).
Proof.
  induction 1 as [|c combos [H1 H2] _ IH]; simpl; [easy|].
  rewrite (keep_combo_keeps _ _ _ H1 H2), IH. simpl.
  destruct (keeps i1 i2 c); reflexivity.
Qed.

Lemma symmetry_filter_filter names combos i1 i2 :
  index_of asub1 names = Some i1 -> index_of asub2 names = Some i2 ->
  Forall (fun c => length c = length names) combos ->
  symmetry_filter names combos = Ok (List.filter (keeps i1 i2) combos).
Proof.
  intros H1 H2 Hlen. unfold symmetry_filter.
  assert (name_in asub1 names = true) as -> by (apply name_in_index; eauto).
  assert (name_in asub2 names = true) as -> by (apply name_in_index; eauto).
  simpl. rewrite H1, H2. apply filter_combos_filter.
  apply index_of_lookup, lookup_lt_Some in H1, H2.
  eapply Forall_impl; [exact Hlen|]. simpl. intros c ->. easy.
Qed.

Lemma py_compare_int_float_flip n x :
  py_compare (VFloat x) (VInt n) = option_map CompOpp (py_compare (VInt n) (VFloat x)).
Proof. reflexivity. Qed.

Lemma SFcompare_flip x y :
  SFcompare y x = option_map CompOpp (SFcompare x y).
Proof.
  destruct x as [sx|sx| |sx mx ex], y as [sy|sy| |sy my ey]; simpl;
    try reflexivity; try (destruct sx; reflexivity);
    try (destruct sy; reflexivity); try (destruct sx, sy; reflexivity).
  destruct sx, sy; simpl; try reflexivity;
    rewrite (Z.compare_antisym ex ey); destruct (ex ?= ey); simpl;
    try reflexivity; repeat f_equal;
    symmetry; exact (Pos.compare_cont_antisym mx my Eq).
Qed.

Lemma py_compare_flip a b :
  py_compare b a = option_map CompOpp (py_compare a b).
Proof.
  destruct a as [m|x], b as [n|y]; simpl.
  - now rewrite (Z.compare_antisym m n).
  - reflexivity.
  - destruct (cmp_int_float n x) as [[]|]; reflexivity.
  - apply SFcompare_flip.
Qed.

(** [a <= b] and [b <= a] make [a == b]. *)
Lemma py_le_antisym a b :
  py_le a b = true -> py_le b a = true -> py_eq a b = true.
Proof.
  unfold py_le, py_eq. rewrite (py_compare_flip a b).
  destruct (py_compare a b) as [[]|]; simpl; easy.
Qed.

Lemma py_eq_le a b : py_eq a b = true -> py_le a b = true.
Proof.
  unfold py_le, py_eq. destruct (py_compare a b) as [[]|]; easy.
Qed.

Lemma py_eq_int m n : py_eq (VInt m) (VInt n) = true -> VInt m = VInt n.
Proof.
  unfold py_eq. simpl. destruct (m ?= n) eqn:E; try easy.
  apply Z.compare_eq in E. now subst.
Qed.

Lemma exact_at_ints i1 i2 c :
  Forall (fun v => is_int v = true) c -> exact_at i1 i2 c.
Proof.
  intros H a b Ha Hb.
  apply list_elem_of_lookup_2 in Ha, Hb.
  rewrite Forall_forall in H. pose proof (H a Ha). pose proof (H b Hb).
  destruct a, b; try easy. apply py_eq_int.
Qed.

Lemma swap_combo_lookup i1 i2 c a b :
  i1 <> i2 -> c !! i1 = Some a -> c !! i2 = Some b ->
  swap_combo i1 i2 c !! i1 = Some b /\ swap_combo i1 i2 c !! i2 = Some a.
Proof.
  intros Hne Ha Hb. unfold swap_combo. rewrite Ha, Hb.
  pose proof (lookup_lt_Some _ _ _ Ha). pose proof (lookup_lt_Some _ _ _ Hb).
  split.
  - apply list_lookup_insert_eq. now rewrite length_insert.
  - rewrite list_lookup_insert_ne by easy. now apply list_lookup_insert_eq.
Qed.

Lemma swap_combo_same i1 i2 c a :
  c !! i1 = Some a -> c !! i2 = Some a -> swap_combo i1 i2 c = c.
Proof.
  intros Ha Hb. unfold swap_combo. rewrite Ha, Hb.
  rewrite (list_insert_id c i2 a Hb). now apply list_insert_id.
Qed.

Lemma short_if_two {A} (l : list A) x y :
  NoDup l -> (forall d, In d l -> d = x \/ d = y) ->
  (In x l -> In y l -> x = y) -> (length l <= 1)%nat.
Proof.
  intros Hnd Hxy Hboth. destruct l as [|d1 [|d2 l]]; simpl; try lia.
  exfalso. apply NoDup_cons in Hnd as [Hn _].
  apply Hn. rewrite elem_of_cons. left.
  destruct (Hxy d1) as [->| ->]; [now left| |];
    (destruct (Hxy d2) as [->| ->]; [right; now left| |]); try easy.
  - apply Hboth; simpl; auto.
  - symmetry. apply Hboth; simpl; auto.
Qed.

End FilterFacts.

(** ** The claims about the symmetry filter *)

(** C6. When one of [asub1], [asub2] is not among the names the
    combinations are returned as they are.  When both are, at the
    positions [i1] and [i2] that [index] gives them, the filter returns, in
    their order, exactly the combinations whose value at [i1] is [<=] the
    value at [i2].  Over {1,2}x{1,2} it keeps (1,1), (1,2), (2,2) and
    drops (2,1). *)
Theorem symmetry_filter_rule
    (param_names : list pystr) (combos : list (list value)) :
  (name_in asub1 param_names = false \/ name_in asub2 param_names = false ->
   symmetry_filter param_names combos = Ok combos) /\
  (name_in asub1 param_names = true -> name_in asub2 param_names = true ->
   Forall (fun c => length c = length param_names) combos ->
   exists i1 i2,
     index_of asub1 param_names = Some i1 /\
     index_of asub2 param_names = Some i2 /\
     param_names !! i1 = Some asub1 /\ param_names !! i2 = Some asub2 /\
     symmetry_filter param_names combos = Ok (List.filter (keeps i1 i2) combos) /\
     forall c,
       In c (List.filter (keeps i1 i2) combos) <->
       In c combos /\
       exists a b, c !! i1 = Some a /\ c !! i2 = Some b /\ py_le a b = true) /\
  symmetry_filter [asub1; asub2] (product [ints [1; 2]; ints [1; 2]])
  = Ok [ints [1; 1]; ints [1; 2]; ints [2; 2]].
Proof.
  split; [|split].
  - unfold symmetry_filter. intros [-> | ->]; [easy|]. now rewrite andb_false_r.
  - intros [i1 H1]%name_in_index [i2 H2]%name_in_index Hlen.
    exists i1, i2. split; [easy|]. split; [easy|].
    split; [now apply index_of_lookup|]. split; [now apply index_of_lookup|].
    split; [now apply symmetry_filter_filter|].
    intros c. rewrite filter_In. unfold keeps. split.
    + intros [Hin Hk]. split; [easy|].
      destruct (c !! i1) as [a|]; [|easy]. destruct (c !! i2) as [b|]; [|easy].
      eauto.
    + intros [Hin (a & b & -> & -> & Hle)]. easy.
  - reflexivity.
Qed.

(** The rule on three names and a product of mixed values. *)
Lemma symmetry_filter_rule_witness :
  (name_in asub1 [lit "t"; asub2; asub1] = false \/
   name_in asub2 [lit "t"; asub2; asub1] = false ->
   symmetry_filter [lit "t"; asub2; asub1]
     (product [ints [7]; ints [1; 2]; [VInt 1; VFloat (decimal 15 1)]])
   = Ok (product [ints [7]; ints [1; 2]; [VInt 1; VFloat (decimal 15 1)]])) /\
  (name_in asub1 [lit "t"; asub2; asub1] = true ->
   name_in asub2 [lit "t"; asub2; asub1] = true ->
   Forall (fun c => length c = length [lit "t"; asub2; asub1])
     (product [ints [7]; ints [1; 2]; [VInt 1; VFloat (decimal 15 1)]]) ->
   exists i1 i2,
     index_of asub1 [lit "t"; asub2; asub1] = Some i1 /\
     index_of asub2 [lit "t"; asub2; asub1] = Some i2 /\
     [lit "t"; asub2; asub1] !! i1 = Some asub1 /\
     [lit "t"; asub2; asub1] !! i2 = Some asub2 /\
     symmetry_filter [lit "t"; asub2; asub1]
       (product [ints [7]; ints [1; 2]; [VInt 1; VFloat (decimal 15 1)]])
     = Ok (List.filter (keeps i1 i2)
             (product [ints [7]; ints [1; 2]; [VInt 1; VFloat (decimal 15 1)]])) /\
     forall c,
       In c (List.filter (keeps i1 i2)
               (product [ints [7]; ints [1; 2]; [VInt 1; VFloat (decimal 15 1)]])) <->
       In c (product [ints [7]; ints [1; 2]; [VInt 1; VFloat (decimal 15 1)]]) /\
       exists a b, c !! i1 = Some a /\ c !! i2 = Some b /\ py_le a b = true) /\
  symmetry_filter [asub1; asub2] (product [ints [1; 2]; ints [1; 2]])
  = Ok [ints [1; 1]; ints [1; 2]; ints [2; 2]].
Proof.
  apply (symmetry_filter_rule [lit "t"; asub2; asub1]
           (product [ints [7]; ints [1; 2]; [VInt 1; VFloat (decimal 15 1)]])).
Defined.

(** Every combination of {3,4}x{1,2} has asub1 > asub2: the filter drops
    them all, and the class of (3,1) is left without a member. *)
Lemma swap_class_can_be_lost :
  name_in asub1 [asub1; asub2] = true /\ name_in asub2 [asub1; asub2] = true /\
  NoDup (product [ints [3; 4]; ints [1; 2]]) /\
  symmetry_filter [asub1; asub2] (product [ints [3; 4]; ints [1; 2]]) = Ok [] /\
  ~ represented_once 0 1 (product [ints [3; 4]; ints [1; 2]]) [].
Proof.
  split; [reflexivity|]. split; [reflexivity|]. split; [|split].
  - apply product_NoDup. repeat constructor;
      apply (bool_decide_unpack _); vm_compute; exact I.
  - reflexivity.
  - intros H. specialize (H (ints [3; 1])). simpl in H.
    assert (0 = 1)%nat as E by (apply H; left; reflexivity). discriminate E.
Qed.

(** C3, amended.  Let both names be scanned, at positions [i1] and [i2],
    and let the combinations be pairwise distinct, of full width, with
    asub1 and asub2 values that are the same value when they are equal as
    numbers.  Then the filter keeps at most one member of the class of each
    combination, and exactly one precisely when the list holds a member of
    the class with asub1 <= asub2. *)
Theorem symmetry_filter_classes
    (param_names : list pystr) (combos : list (list value)) (i1 i2 : nat) :
  index_of asub1 param_names = Some i1 ->
  index_of asub2 param_names = Some i2 ->
  Forall (fun c => length c = length param_names) combos ->
  NoDup combos ->
  Forall (exact_at i1 i2) combos ->
  exists kept,
    symmetry_filter param_names combos = Ok kept /\
    forall c, In c combos ->
      (length (representatives i1 i2 kept c) <= 1)%nat /\
      (length (representatives i1 i2 kept c) = 1%nat <->
       exists d, In d combos /\ same_class i1 i2 c d /\ keeps i1 i2 d = true).
Proof.
  intros H1 H2 Hlen Hnd Hexact.
  exists (List.filter (keeps i1 i2) combos).
  split; [now apply symmetry_filter_filter|].
  assert (i1 <> i2) as Hne.
  { intros ->. apply index_of_lookup in H1, H2. rewrite H1 in H2. discriminate H2. }
  intros c Hc.
  set (reps := representatives i1 i2 (List.filter (keeps i1 i2) combos) c).
  assert (forall d, In d reps <->
            (In d combos /\ keeps i1 i2 d = true) /\ same_class i1 i2 c d) as Hreps.
  { intros d. unfold reps, representatives. rewrite !filter_In.
    now rewrite bool_decide_eq_true. }
  assert (length reps <= 1)%nat as Hshort.
  { apply (short_if_two reps c (swap_combo i1 i2 c)).
    - unfold reps, representatives.
      apply NoDup_ListNoDup, List.NoDup_filter, List.NoDup_filter.
      now apply NoDup_ListNoDup.
    - intros d [_ Hd]%Hreps. exact Hd.
    - intros [[_ Hk] _]%Hreps [[Hin' Hk'] _]%Hreps.
      unfold keeps in Hk.
      destruct (c !! i1) as [a|] eqn:Ha; [|easy].
      destruct (c !! i2) as [b|] eqn:Hb; [|easy].
      destruct (swap_combo_lookup i1 i2 c a b Hne Ha Hb) as [Hs1 Hs2].
      unfold keeps in Hk'. rewrite Hs1, Hs2 in Hk'.
      rewrite Forall_forall in Hexact.
      assert (a = b) as ->.
      { apply (Hexact c); [now apply list_elem_of_In|easy|easy|].
        now apply py_le_antisym. }
      symmetry. now apply (swap_combo_same i1 i2 c b). }
  split; [exact Hshort|]. split.
  - intros Hone. destruct reps as [|d reps']; [easy|].
    assert (In d (d :: reps')) as Hd by now left.
    apply Hreps in Hd as [[Hin Hk] Hcl]. eauto.
  - intros (d & Hin & Hcl & Hk).
    assert (In d reps) as Hd by (apply Hreps; easy).
    destruct reps as [|d' reps']; [easy|]. simpl in *. lia.
Qed.

(** The classes of {1,2}x{1,2}. *)
Lemma symmetry_filter_classes_witness :
  index_of asub1 [asub1; asub2] = Some 0%nat /\
  index_of asub2 [asub1; asub2] = Some 1%nat /\
  Forall (fun c => length c = length [asub1; asub2])
    (product [ints [1; 2]; ints [1; 2]]) /\
  NoDup (product [ints [1; 2]; ints [1; 2]]) /\
  Forall (exact_at 0 1) (product [ints [1; 2]; ints [1; 2]]) /\
  exists kept,
    symmetry_filter [asub1; asub2] (product [ints [1; 2]; ints [1; 2]]) = Ok kept /\
    forall c, In c (product [ints [1; 2]; ints [1; 2]]) ->
      (length (representatives 0 1 kept c) <= 1)%nat /\
      (length (representatives 0 1 kept c) = 1%nat <->
       exists d, In d (product [ints [1; 2]; ints [1; 2]]) /\
                 same_class 0 1 c d /\ keeps 0 1 d = true).
Proof.
  assert (Forall (exact_at 0 1) (product [ints [1; 2]; ints [1; 2]])) as Hexact.
  { repeat constructor; apply exact_at_ints; repeat constructor. }
  assert (NoDup (product [ints [1; 2]; ints [1; 2]])) as Hnd.
  { apply product_NoDup. repeat constructor;
      apply (bool_decide_unpack _); vm_compute; exact I. }
  assert (Forall (fun c => length c = length [asub1; asub2])
            (product [ints [1; 2]; ints [1; 2]])) as Hlen.
  { repeat constructor. }
  split; [reflexivity|]. split; [reflexivity|].
  split; [exact Hlen|]. split; [exact Hnd|]. split; [exact Hexact|].
  apply (symmetry_filter_classes [asub1; asub2] _ 0 1 eq_refl eq_refl Hlen Hnd Hexact).
Defined.

(** ** The claim about the manifest *)

Lemma enumerate_from_lookup {A} (l : list A) n j :
  enumerate_from n l !! j = (fun x => ((n + j)%nat, x)) <$> l !! j.
Proof.
  revert n j. induction l as [|x l IH]; intros n [|j]; simpl; try easy.
  - now rewrite Nat.add_0_r.
  - rewrite IH. now rewrite Nat.add_succ_r.
Qed.

Lemma enumerate_from_length {A} (l : list A) n :
  length (enumerate_from n l) = length l.
Proof. revert n. induction l as [|x l IH]; intros n; simpl; [easy|]. now rewrite IH. Qed.

Section ManifestFacts.

Variable float_repr : float -> pystr.
Variables (lines : list pystr) (pm : param_map) (names : list pystr) (submit : bool).

(** The loop appends one row per task made, in order, and stops at the
    first task whose rewriting raises. *)
Lemma materialize_loop_rows tasks : forall w,
  exists k, (k <= length tasks)%nat /\
    manifest (fst (materialize_loop float_repr lines pm names submit w tasks))
    = manifest w ++
      map (fun ic => manifest_row float_repr (fst ic) names (snd ic)) (take k tasks) /\
    (forall j ic, (j < k)%nat -> tasks !! j = Some ic ->
       exists new, modify_input float_repr lines pm (snd ic) names = Ok new) /\
    match snd (materialize_loop float_repr lines pm names submit w tasks) with
    | None => k = length tasks
    | Some ex =>
        exists ic, tasks !! k = Some ic /\
          modify_input float_repr lines pm (snd ic) names = Raise ex
    end.
Proof.
  induction tasks as [|ic tasks IH]; intros w.
  - exists 0%nat. simpl. rewrite app_nil_r. repeat split; try easy.
  - simpl. unfold materialize_task.
    destruct (modify_input float_repr lines pm (snd ic) names) as [new|ex] eqn:E.
    + match goal with |- context [materialize_loop _ _ _ _ _ ?w' tasks] =>
        destruct (IH w') as (k & Hk & Hrows & Hmade & Hend) end.
      exists (S k). split; [simpl; lia|]. split; [|split].
      * rewrite Hrows. simpl. now rewrite <- app_assoc.
      * intros [|j] ic' Hj Hic; simpl in Hic.
        -- injection Hic as <-. eauto.
        -- apply (Hmade j); [lia|easy].
      * match goal with |- match ?s with _ => _ end => destruct s end;
          simpl; [exact Hend|now rewrite Hend].
    + exists 0%nat. simpl. rewrite app_nil_r.
      split; [lia|]. split; [easy|]. split; [intros j ic' Hj; lia|]. eauto.
Qed.

End ManifestFacts.

(** The header of the manifest of the end-to-end example names its second
    column [folder], not [directory]. *)
Lemma manifest_header_names_folder :
  manifest (fst (materialize float_show e2e_lines (parse_lines e2e_lines)
                   e2e_names e2e_combos false empty_world))
  = [[lit "id"; lit "folder"; lit "a"; lit "b"];
     [lit "1"; lit "task_1_a_10_b_20"; lit "10"; lit "20"];
     [lit "2"; lit "task_2_a_12_b_20"; lit "12"; lit "20"]] /\
  hd [] (manifest (fst (materialize float_show e2e_lines (parse_lines e2e_lines)
                          e2e_names e2e_combos false empty_world)))
  <> [lit "id"; lit "directory"] ++ e2e_names.
Proof.
  assert (manifest (fst (materialize float_show e2e_lines (parse_lines e2e_lines)
                   e2e_names e2e_combos false empty_world))
  = [[lit "id"; lit "folder"; lit "a"; lit "b"];
     [lit "1"; lit "task_1_a_10_b_20"; lit "10"; lit "20"];
     [lit "2"; lit "task_2_a_12_b_20"; lit "12"; lit "20"]]) as E
    by (vm_compute; reflexivity).
  split; [exact E|]. rewrite E. discriminate.
Qed.

(** C4, amended.  Whatever the world held before, the manifest left by a
    run is the header [id, folder, names...] followed by one row per task
    made, in their order: the [k] first combinations, where [k] is all of
    them when the run ends without exception and otherwise the index of the
    combination whose rewriting raised.  The row of the [j]-th combination
    (from 0) holds [str(j+1)], the folder name of the task and [str] of each
    value of the combination in scan order. *)
Theorem manifest_shape
    (float_repr : float -> pystr) (lines : list pystr) (pm : param_map)
    (param_names : list pystr) (combos : list (list value)) (submit : bool)
    (w0 : world) :
  let run := materialize float_repr lines pm param_names combos submit w0 in
  exists k, (k <= length combos)%nat /\
    manifest (fst run)
    = ([lit "id"; lit "folder"] ++ param_names) ::
      map (fun ic => manifest_row float_repr (fst ic) param_names (snd ic))
          (take k (enumerate_from 1 combos)) /\
    length (manifest (fst run)) = S k /\
    (forall j row,
       manifest (fst run) !! S j = Some row <->
       (j < k)%nat /\
       exists c, combos !! j = Some c /\
         row = [str_int (Z.of_nat (S j)); folder_name float_repr (S j) param_names c]
               ++ map (str_value float_repr) c) /\
    (forall j c, (j < k)%nat -> combos !! j = Some c ->
       exists new, modify_input float_repr lines pm c param_names = Ok new) /\
    match snd run with
    | None => k = length combos
    | Some ex =>
        exists c, combos !! k = Some c /\
          modify_input float_repr lines pm c param_names = Raise ex
    end.
Proof.
  intros run. unfold materialize in run.
  match type of run with
  | _ => destruct (materialize_loop_rows float_repr lines pm param_names submit
           (enumerate_from 1 combos)
           {| task_inputs := task_inputs w0;
              manifest := [[lit "id"; lit "folder"] ++ param_names];
              system_calls := system_calls w0 |})
      as (k & Hk & Hrows & Hmade & Hend)
  end.
  fold run in Hrows, Hend. simpl manifest in Hrows.
  rewrite enumerate_from_length in Hk.
  exists k. split; [exact Hk|]. split; [exact Hrows|].
  split; [|split; [|split]].
  - rewrite Hrows. simpl. rewrite length_map, length_take, enumerate_from_length. lia.
  - intros j row. rewrite Hrows. simpl.
    rewrite list_lookup_fmap, lookup_take, enumerate_from_lookup.
    destruct (decide (j < k)%nat) as [Hj|Hj].
    + destruct (combos !! j) as [c|] eqn:Hc; simpl.
      * split.
        -- intros [= <-]. split; [easy|]. exists c. easy.
        -- intros [_ (c' & [= <-] & ->)]. reflexivity.
      * split; [easy|]. now intros [_ (c' & Hc' & _)].
    + split; [easy|]. intros [Hj' _]. lia.
  - intros j c Hj Hc.
    apply (Hmade j (S j, c) Hj). rewrite enumerate_from_lookup, Hc. reflexivity.
  - destruct (snd run) as [ex|]; [|now rewrite enumerate_from_length in Hend].
    destruct Hend as ([i c] & Hic & Hraise).
    rewrite enumerate_from_lookup in Hic.
    destruct (combos !! k) as [c'|] eqn:Hc; [|easy].
    simpl in Hic. injection Hic as <- <-. eauto.
Qed.

(** ** More on the range expander *)

(** A tuple is in the product exactly when each of its components is in
    the pool of its position. *)
Lemma product_In {A} (pools : list (list A)) c :
  In c (product pools) <-> Forall2 (fun v pool => In v pool) c pools.
Proof.
  revert c. induction pools as [|pool pools IH] using rev_ind; intros c.
  - simpl. split.
    + intros [<-|[]]. constructor.
    + intros H. inversion H. now left.
  - rewrite product_snoc, in_flat_map. split.
    + intros (x & Hx & (y & <- & Hy)%in_map_iff).
      apply Forall2_app; [now apply IH|]. repeat constructor. easy.
    + intros H. apply Forall2_app_inv_r in H as (x & ys & Hx & Hy & ->).
      inversion Hy as [|y ? ys' ? Hyin Hnil]; subst. inversion Hnil; subst.
      exists x. split; [now apply IH|]. apply in_map_iff. eauto.
Qed.

Lemma int_range_NoDup (start step : Z) (n : nat) :
  step <> 0 ->
  NoDup (map (fun i : nat => VInt (start + Z.of_nat i * step)) (seq 0 n)).
Proof.
  intros Hs. apply NoDup_fmap_2_strong; [|apply NoDup_ListNoDup, seq_NoDup].
  intros i j _ _ [= E]. nia.
Qed.

Lemma spec_values_int_NoDup fuel sp vals :
  int_stepping sp -> spec_values fuel sp = Some (Ok vals) -> NoDup vals.
Proof.
  intros (start & end_ & step & Hs & He & Hst & Hne).
  unfold spec_values, py_range. rewrite Hs, He, Hst.
  apply Z.eqb_neq in Hne as Hb. rewrite Hb. simpl. intros [= <-].
  rewrite map_map. now apply (int_range_NoDup start step).
Qed.

(** X2. The combinations returned are exactly the tuples that take, for
    each spec in order, one value of its value list. *)
Theorem combinations_membership
    (fuel : nat) (scan_specs : list scan_spec)
    (names : list pystr) (combos : list (list value)) :
  generate_param_combinations fuel scan_specs = Some (Ok (names, combos)) ->
  exists lists,
    Forall2 (fun sp vals => spec_values fuel sp = Some (Ok vals)) scan_specs lists /\
    forall c, In c combos <-> Forall2 (fun v vals => In v vals) c lists.
Proof.
  unfold generate_param_combinations.
  destruct (expand_specs fuel scan_specs [] []) as [[[n l]|e]|] eqn:E; try easy.
  intros [= <- <-]. apply expand_specs_spec in E as (_ & vs & -> & Hvs).
  exists vs. split; [easy|]. intros c. apply product_In.
Qed.

Lemma combinations_membership_witness :
  generate_param_combinations 5 ex_specs = Some (Ok ([lit "a"; lit "b"], ex_combos)) /\
  exists lists,
    Forall2 (fun sp vals => spec_values 5 sp = Some (Ok vals)) ex_specs lists /\
    forall c, In c ex_combos <-> Forall2 (fun v vals => In v vals) c lists.
Proof.
  assert (generate_param_combinations 5 ex_specs
          = Some (Ok ([lit "a"; lit "b"], ex_combos))) as E
    by (vm_compute; reflexivity).
  split; [exact E|]. exact (combinations_membership 5 ex_specs _ _ E).
Defined.

(** X3. There is no combination exactly when the value list of some spec
    is empty; with no spec at all there is one, the empty combination. *)
Theorem combinations_empty
    (fuel : nat) (scan_specs : list scan_spec)
    (names : list pystr) (combos : list (list value)) :
  generate_param_combinations fuel scan_specs = Some (Ok (names, combos)) ->
  (combos = [] <->
   exists sp, In sp scan_specs /\ spec_values fuel sp = Some (Ok [])) /\
  (scan_specs = [] -> combos = [[]]).
Proof.
  unfold generate_param_combinations.
  destruct (expand_specs fuel scan_specs [] []) as [[[n l]|e]|] eqn:E; try easy.
  intros [= <- <-]. apply expand_specs_spec in E as (_ & vs & -> & Hvs).
  simpl. split.
  - assert (product vs = [] <-> In [] vs) as ->.
    { pose proof (product_length vs) as Hlen. split.
      - intros Hp. rewrite Hp in Hlen. simpl in Hlen. clear -Hlen.
        induction vs as [|v vs IH]; [discriminate Hlen|].
        unfold prod_lengths in *. simpl in *.
        destruct v; [now left|]. right. apply IH.
        symmetry in Hlen. apply Nat.eq_mul_0 in Hlen as [Hlen|Hlen];
          [discriminate Hlen|now symmetry].
      - intros Hin. apply length_zero_iff_nil. rewrite Hlen. clear -Hin.
        induction vs as [|v vs IH]; [easy|]. unfold prod_lengths in *. simpl.
        destruct Hin as [->|Hin]; [reflexivity|]. rewrite (IH Hin). lia. }
    split.
    + intros Hin. apply list_elem_of_In in Hin.
      apply list_elem_of_lookup in Hin as [i Hi].
      destruct (Forall2_lookup_r _ _ _ _ _ Hvs Hi) as (sp & Hsp & Hval).
      exists sp. split; [|easy].
      now apply list_elem_of_lookup_2, list_elem_of_In in Hsp.
    + intros (sp & Hsp & Hval). apply list_elem_of_In in Hsp.
      apply list_elem_of_lookup in Hsp as [i Hi].
      destruct (Forall2_lookup_l _ _ _ _ _ Hvs Hi) as (v & Hv & Hval').
      assert (v = []) as -> by congruence.
      now apply list_elem_of_lookup_2, list_elem_of_In in Hv.
  - intros ->. inversion Hvs. reflexivity.
Qed.

Lemma combinations_empty_witness :
  generate_param_combinations 0 [int_spec "a" 1 5 2; int_spec "b" 3 2 1]
    = Some (Ok ([lit "a"; lit "b"], [])) /\
  (([] : list (list value)) = [] <->
   exists sp, In sp [int_spec "a" 1 5 2; int_spec "b" 3 2 1] /\
              spec_values 0 sp = Some (Ok [])) /\
  ([int_spec "a" 1 5 2; int_spec "b" 3 2 1] = [] ->
   ([] : list (list value)) = [[]]).
Proof.
  assert (generate_param_combinations 0 [int_spec "a" 1 5 2; int_spec "b" 3 2 1]
          = Some (Ok ([lit "a"; lit "b"], []))) as E by reflexivity.
  split; [exact E|]. exact (combinations_empty 0 _ _ _ E).
Defined.

(** X4. On all-integer specs with non-zero steps the combinations are
    pairwise distinct. *)
Theorem integer_combinations_distinct
    (fuel : nat) (scan_specs : list scan_spec)
    (names : list pystr) (combos : list (list value)) :
  Forall int_stepping scan_specs ->
  generate_param_combinations fuel scan_specs = Some (Ok (names, combos)) ->
  NoDup combos.
Proof.
  intros Hint. unfold generate_param_combinations.
  destruct (expand_specs fuel scan_specs [] []) as [[[n l]|e]|] eqn:E; try easy.
  intros [= <- <-]. apply expand_specs_spec in E as (_ & vs & -> & Hvs).
  simpl. apply product_NoDup.
  clear -Hint Hvs. induction Hvs as [|sp v specs vs Hv _ IH]; [constructor|].
  inversion Hint; subst. constructor; [|now apply IH].
  now apply (spec_values_int_NoDup fuel sp).
Qed.

Lemma integer_combinations_distinct_witness :
  Forall int_stepping [int_spec "a" 1 5 2; int_spec "b" 7 6 (-1)] /\
  generate_param_combinations 0 [int_spec "a" 1 5 2; int_spec "b" 7 6 (-1)]
    = Some (Ok ([lit "a"; lit "b"],
                product [ints [1; 3; 5]; ints [7; 6]])) /\
  NoDup (product [ints [1; 3; 5]; ints [7; 6]]).
Proof.
  assert (Forall int_stepping [int_spec "a" 1 5 2; int_spec "b" 7 6 (-1)]) as H.
  { repeat constructor; eexists _, _, _; repeat split; easy. }
  assert (generate_param_combinations 0 [int_spec "a" 1 5 2; int_spec "b" 7 6 (-1)]
    = Some (Ok ([lit "a"; lit "b"], product [ints [1; 3; 5]; ints [7; 6]]))) as E
    by reflexivity.
  split; [exact H|]. split; [exact E|].
  exact (integer_combinations_distinct 0 _ _ _ H E).
Defined.

(** X5. An all-integer spec with step 0 makes the generation raise
    [ValueError], whatever follows it, when the specs before it have value
    lists. *)
Theorem zero_step_raises
    (fuel : nat) (before after : list scan_spec) (sp : scan_spec)
    (start end_ : Z) :
  Forall (fun s => exists vals, spec_values fuel s = Some (Ok vals)) before ->
  sp_start sp = VInt start -> sp_end sp = VInt end_ -> sp_step sp = VInt 0 ->
  generate_param_combinations fuel (before ++ sp :: after) = Some (Raise ValueError).
Proof.
  intros Hbefore Hs He Hst. unfold generate_param_combinations.
  assert (forall names lists,
            expand_specs fuel (before ++ sp :: after) names lists
            = Some (Raise ValueError)) as ->; [|reflexivity].
  induction Hbefore as [|s before (vals & Hv) _ IH]; intros names lists; simpl.
  - unfold spec_values, py_range. now rewrite Hs, He, Hst.
  - rewrite Hv. apply IH.
Qed.

Lemma zero_step_raises_witness :
  Forall (fun s => exists vals, spec_values 0 s = Some (Ok vals)) [int_spec "a" 1 5 2] /\
  generate_param_combinations 0
    ([int_spec "a" 1 5 2] ++ int_spec "b" 1 5 0 :: [tenths_spec])
  = Some (Raise ValueError).
Proof.
  assert (Forall (fun s => exists vals, spec_values 0 s = Some (Ok vals))
            [int_spec "a" 1 5 2]) as H.
  { repeat constructor. eexists. reflexivity. }
  split; [exact H|].
  exact (zero_step_raises 0 _ [tenths_spec] (int_spec "b" 1 5 0) 1 5
           H eq_refl eq_refl eq_refl).
Defined.

(** ** More on the rewriter *)

Section ModifyOutcome.

Variable float_repr : float -> pystr.
Hypothesis float_repr_token : forall x, is_token (float_repr x) = true.

(** With the field map parsed from the lines, the loop ends well when every
    name has an entry and raises [KeyError] otherwise. *)
Lemma modify_loop_outcome lines nvs : forall new,
  Forall2 line_rel new lines ->
  (Forall (fun nv => is_Some (parse_lines lines !! fst nv)) nvs /\
   exists final, modify_loop float_repr (parse_lines lines) new nvs = Ok final) \/
  (Exists (fun nv => parse_lines lines !! fst nv = None) nvs /\
   modify_loop float_repr (parse_lines lines) new nvs = Raise KeyError).
Proof.
  induction nvs as [|[name v] nvs IH]; intros new Hrel.
  - left. split; [constructor|]. simpl. eauto.
  - destruct (parse_lines lines !! name) as [[ln pos]|] eqn:Hpm.
    + destruct (modify_step_ok float_repr float_repr_token lines new name v ln pos
                  Hrel Hpm) as (new' & Hstep & Hrel' & _).
      destruct (IH new' Hrel') as [[Hall (final & Hf)]|[Hex Hraise]].
      * left. split; [constructor; [simpl; rewrite Hpm; eauto|easy]|].
        exists final. simpl. now rewrite Hstep.
      * right. split; [now apply Exists_cons_tl|]. simpl. now rewrite Hstep.
    + right. split; [now apply Exists_cons_hd|].
      simpl. unfold modify_step. simpl. now rewrite Hpm.
Qed.

End ModifyOutcome.

(** X6. For a combination of values that [str] prints (integers of at
    most 4300 digits, beyond which [str] itself raises [ValueError]), and
    with the field map parsed from the lines, [modify_input] raises nothing
    but [KeyError], and raises it exactly when one of the names that is
    paired with a value has no entry; names beyond the values are not
    looked up. *)
Theorem modify_input_raises_only_KeyError
    (float_repr : float -> pystr)
    (float_repr_token : forall x, is_token (float_repr x) = true)
    (lines : list pystr) (param_names : list pystr) (combo : list value) :
  Forall printable combo ->
  (modify_input float_repr lines (parse_lines lines) combo param_names
   = Raise KeyError <->
   exists k name, param_names !! k = Some name /\ (k < length combo)%nat /\
                  parse_lines lines !! name = None) /\
  (forall e,
     modify_input float_repr lines (parse_lines lines) combo param_names = Raise e ->
     e = KeyError).
Proof.
  intros _. unfold modify_input.
  assert (Forall2 line_rel lines lines) as Hrel.
  { apply Forall2_same_length_lookup. split; [easy|].
    intros i l l' H1 H2. assert (l = l') as -> by congruence.
    apply line_rel_refl. }
  destruct (modify_loop_outcome float_repr float_repr_token lines
              (zip param_names combo) lines Hrel)
    as [[Hall (final & ->)]|[Hex ->]].
  - split; [|easy]. split; [easy|].
    intros (k & name & Hk & Hlen & Hnone). exfalso.
    apply lookup_lt_is_Some in Hlen as [v Hv].
    rewrite Forall_forall in Hall.
    assert ((name, v) ∈ zip param_names combo) as Hin.
    { apply list_elem_of_lookup. exists k. apply lookup_zip_with_Some. eauto. }
    apply Hall in Hin as [p Hp]. simpl in Hp. congruence.
  - split; [|now intros e [= <-]]. split; [|easy]. intros _.
    apply Exists_exists in Hex as ([name v] & Hin & Hnone).
    apply list_elem_of_lookup in Hin as [k Hk].
    apply lookup_zip_with_Some in Hk as (x & y & [= <- <-] & Hx & Hy).
    exists k, name. split; [easy|]. split; [|easy]. now apply lookup_lt_Some in Hy.
Qed.

Lemma modify_input_raises_only_KeyError_witness :
  Forall printable [VInt 1; VInt 2] /\
  (modify_input float_show ex_lines (parse_lines ex_lines)
     [VInt 1; VInt 2] [lit "a"; lit "zz"; lit "yy"]
   = Raise KeyError <->
   exists k name, [lit "a"; lit "zz"; lit "yy"] !! k = Some name /\
                  (k < length [VInt 1; VInt 2])%nat /\
                  parse_lines ex_lines !! name = None) /\
  (forall e,
     modify_input float_show ex_lines (parse_lines ex_lines)
       [VInt 1; VInt 2] [lit "a"; lit "zz"; lit "yy"] = Raise e ->
     e = KeyError).
Proof.
  assert (Forall printable [VInt 1; VInt 2]) as H.
  { constructor; [vm_compute; reflexivity|].
    constructor; [vm_compute; reflexivity|constructor]. }
  split; [exact H|].
  exact (modify_input_raises_only_KeyError float_show float_show_token ex_lines
           [lit "a"; lit "zz"; lit "yy"] [VInt 1; VInt 2] H).
Defined.

(** X7. Two different names of the field map never have the same place,
    and every place of the map is a field of a line. *)
Theorem field_map_places_distinct (lines : list pystr) (n1 n2 : pystr)
    (place : nat * nat) :
  parse_lines lines !! n1 = Some place ->
  parse_lines lines !! n2 = Some place ->
  n1 = n2 /\ is_Some (field lines (fst place) (snd place)).
Proof.
  intros H1 H2. split; [eapply parse_lines_inj; eauto|].
  destruct place as [ln pos].
  apply parse_lines_spec in H1 as [(line & Hl & _ & [_ Hpos]) _].
  unfold field. simpl. rewrite Hl. simpl. now apply lookup_lt_is_Some.
Qed.

Lemma field_map_places_distinct_witness :
  parse_lines ex_lines !! lit "b" = Some (0%nat, 1%nat) /\
  (lit "b" = lit "b" /\ is_Some (field ex_lines 0 1)).
Proof.
  assert (parse_lines ex_lines !! lit "b" = Some (0%nat, 1%nat)) as H
    by (vm_compute; reflexivity).
  split; [exact H|].
  exact (field_map_places_distinct ex_lines (lit "b") (lit "b") (0%nat, 1%nat) H H).
Defined.

(** ** The rewritten file *)

Lemma readlines_terminated body rest :
  py_in newline body = false ->
  readlines (body ++ newline :: rest) = (body ++ [newline]) :: readlines rest.
Proof.
  induction body as [|c body IH]; [reflexivity|].
  rewrite py_in_cons. cbn [app readlines].
  destruct (Ascii.eqb c newline); [easy|].
  intros H. now rewrite (IH H).
Qed.

Lemma readlines_unterminated l :
  l <> [] -> py_in newline l = false -> readlines l = [l].
Proof.
  induction l as [|c l IH]; [easy|]. intros _.
  rewrite py_in_cons. cbn [readlines].
  destruct (Ascii.eqb c newline); [easy|]. intros H.
  destruct l as [|d l]; [reflexivity|]. now rewrite IH.
Qed.

(** The lines of a file, written one after the other and read again. *)
Lemma readlines_concat lines :
  file_lines lines -> readlines (concat lines) = lines.
Proof.
  induction lines as [|l ls IH]; [easy|]. simpl.
  destruct ls as [|l2 ls].
  - simpl. rewrite app_nil_r. intros [(body & -> & Hb)|[Hne Hl]].
    + replace (body ++ [newline]) with (body ++ newline :: []) by easy.
      now rewrite readlines_terminated.
    + now apply readlines_unterminated.
  - intros [(body & -> & Hb) Hls]. rewrite <- app_assoc. simpl app at 2.
    rewrite readlines_terminated by easy. f_equal. now apply IH.
Qed.

Lemma readlines_file_lines s : file_lines (readlines s).
Proof.
  induction s as [|c s IH]; [easy|]. cbn [readlines].
  destruct (Ascii.eqb c newline) eqn:E.
  - apply Ascii.eqb_eq in E. subst c.
    assert (terminated [newline]) as Ht by (exists []; easy).
    simpl. destruct (readlines s); [now left|easy].
  - assert (forall l, terminated l -> terminated (c :: l)) as Ht.
    { intros l (body & -> & Hb). exists (c :: body). split; [easy|].
      now rewrite py_in_cons, E. }
    assert (forall l, py_in newline l = false -> unterminated (c :: l)) as Hu.
    { intros l Hl. split; [easy|]. now rewrite py_in_cons, E. }
    destruct (readlines s) as [|l ls].
    + simpl. right. now apply Hu.
    + simpl in *. destruct ls as [|l2 ls].
      * destruct IH as [H|[_ H]]; [left; now apply Ht|right; now apply Hu].
      * destruct IH as [H Hls]. split; [now apply Ht|easy].
Qed.

(** The characters of a joined list. *)
Lemma join_chars sep ts c :
  In c (join sep ts) -> In c sep \/ exists t, In t ts /\ In c t.
Proof.
  induction ts as [|t ts IH]; [easy|].
  destruct ts as [|u ts].
  - simpl. intros H. right. exists t. auto.
  - change (join sep (t :: u :: ts)) with (t ++ sep ++ join sep (u :: ts)).
    rewrite !in_app_iff. intros [H|[H|H]].
    + right. exists t. split; [now left|easy].
    + now left.
    + destruct (IH H) as [H'|(t' & Ht' & Hc)]; [now left|].
      right. exists t'. split; [now right|easy].
Qed.

(** A whitespace character other than the blank is not in the joined
    fields. *)
Lemma join_tokens_no_ws ts c :
  Forall (fun t => is_token t = true) ts ->
  is_space c = true -> c <> space -> ~ In c (join [space] ts ++ [space]).
Proof.
  intros Htok Hc Hne [Hin|[H|[]]]%in_app_iff; [|now subst].
  apply join_chars in Hin as [[H|[]]|(t & Ht & Hin)]; [now subst|].
  rewrite List.Forall_forall in Htok.
  apply Htok, is_token_spec in Ht as [_ Ht].
  rewrite List.Forall_forall in Ht. apply Ht, token_char_spec in Hin as [Hs _].
  congruence.
Qed.

(** Rewriting a field of an annotated line with one marker keeps the end of
    the line. *)
Lemma rewrite_line_end line pos s line' :
  is_token s = true -> annotated line = true -> one_marker line ->
  rewrite_line line pos s = Ok line' ->
  one_marker line' /\
  (terminated line -> terminated line') /\
  (unterminated line -> unterminated line') /\
  (py_in carriage_return line = false -> py_in carriage_return line' = false).
Proof.
  intros Hs Hann Hone. unfold rewrite_line. fold (line_values line).
  destruct (pos <? length (line_values line))%nat eqn:Hpos; [|easy].
  intros [= <-].
  assert (Forall (fun t => is_token t = true) (<[pos := s]> (line_values line)))
    as Htok.
  { apply Forall_insert; [apply line_values_tokens|easy]. }
  set (nums' := <[pos := s]> (line_values line)) in *.
  pose proof (join_tokens_free _ Htok) as Hfree.
  unfold annotated in Hann. apply andb_true_iff in Hann as [Hbang _].
  unfold one_marker in Hone.
  destruct (split_on_shape bang line) as (p & ps & E & Hp & Hsh).
  rewrite E in *. simpl hd. simpl tl.
  destruct Hsh as [[-> ->]|(s' & -> & ->)].
  { rewrite Hp in Hbang. discriminate Hbang. }
  destruct (split_on_shape bang s') as (r0 & rs & E' & Hr0 & Hsh').
  rewrite E' in *. simpl in Hone. cbv beta iota.
  destruct rs as [|r1 rs]; [|simpl in Hone; lia].
  destruct Hsh' as [[_ ->]|(s'' & _ & Hrs)];
    [|destruct (split_on_cons bang s'') as (q & qs & Eq);
      rewrite Eq in Hrs; discriminate Hrs].
  clear E'.
  replace (join [space] nums' ++ space :: bang :: r0)
    with ((join [space] nums' ++ [space]) ++ bang :: r0)
    by now rewrite <- app_assoc.
  assert (forall c, is_space c = true -> c <> space -> c <> bang ->
            forall r, ~ In c r ->
            ~ In c ((join [space] nums' ++ [space]) ++ bang :: r)) as Hfresh.
  { intros c Hc Hn1 Hn2 r Hr [Hin|[Hin|Hin]]%in_app_iff.
    - now apply (join_tokens_no_ws nums' c).
    - now subst.
    - easy. }
  split; [|split; [|split]].
  - unfold one_marker. rewrite split_on_app by easy.
    now rewrite (split_on_absent bang r0).
  - intros (body & Hbody & Hnl).
    destruct r0 as [|x r0 _] using rev_ind.
    + replace (p ++ [bang]) with (p ++ [bang]) in Hbody by easy.
      apply app_inj_tail in Hbody as [_ Hb]. discriminate Hb.
    + replace (p ++ bang :: r0 ++ [x]) with ((p ++ bang :: r0) ++ [x]) in Hbody
        by now rewrite <- app_assoc.
      apply app_inj_tail in Hbody as [<- ->].
      exists ((join [space] nums' ++ [space]) ++ bang :: r0).
      split; [now rewrite <- !app_assoc|].
      apply py_in_false. apply Hfresh; try easy.
      apply py_in_false in Hnl. intros Hin. apply Hnl.
      apply in_or_app. right. now right.
  - intros [_ Hnl]. split.
    + destruct (join [space] nums'); discriminate.
    + apply py_in_false. apply Hfresh; try easy.
      apply py_in_false in Hnl. intros Hin. apply Hnl.
      apply in_or_app. right. now right.
  - intros Hcr. apply py_in_false. apply Hfresh; try easy.
    apply py_in_false in Hcr. intros Hin. apply Hcr.
    apply in_or_app. right. now right.
Qed.

Section FileFacts.

Variable float_repr : float -> pystr.
Hypothesis float_repr_token : forall x, is_token (float_repr x) = true.

Lemma modify_loop_file lines nvs : forall new,
  Forall2 file_rel new lines ->
  Forall (fun nv => is_Some (parse_lines lines !! fst nv)) nvs ->
  exists final,
    modify_loop float_repr (parse_lines lines) new nvs = Ok final /\
    Forall2 file_rel final lines.
Proof.
  induction nvs as [|[name v] nvs IH]; intros new Hrel Hall.
  - exists new. easy.
  - inversion Hall as [|? ? [[ln pos] Hpm] Hall']; subst. simpl in Hpm.
    pose proof Hpm as [(l0 & Hl0 & Ha0 & [_ Hpos]) _]%parse_lines_spec.
    destruct (Forall2_lookup_r _ _ _ _ _ Hrel Hl0) as (l' & Hl' & Hr).
    destruct Hr as ((Ha & Hn & Hv & Hc) & Hone & Hterm & Hunt & Hcr).
    destruct (rewrite_line_ok l' pos (str_value float_repr v))
      as (line' & Hrw & Ha' & Hn' & Hv' & Hc');
      [lia|now apply str_value_token|].
    destruct (rewrite_line_end l' pos (str_value float_repr v) line')
      as (Hone' & Hterm' & Hunt' & Hcr');
      [now apply str_value_token|congruence|easy|easy|].
    destruct (IH (<[ln := line']> new)) as (final & Hloop & Hfinal); [|easy|].
    + rewrite <- (list_insert_id lines ln l0) by easy.
      apply Forall2_insert; [easy|].
      split; [unfold line_rel; now rewrite Ha', Hn', Hv', Hc', length_insert|].
      split; [easy|]. split; [auto|]. split; auto.
    + exists final. split; [|easy]. simpl.
      unfold modify_step at 1. simpl. rewrite Hpm, Hl', Hrw. simpl. exact Hloop.
Qed.

End FileFacts.

Lemma file_rel_lines new lines :
  Forall2 file_rel new lines -> file_lines lines -> file_lines new.
Proof.
  induction 1 as [|l' l new lines Hl Hrest IH]; [easy|].
  destruct Hl as (_ & _ & Hterm & Hunt & _).
  inversion Hrest as [|l2' l2 new2 lines2 Hl2 Hrest2]; subst.
  - simpl. intros [H|H]; [left|right]; auto.
  - intros [H Hls]. split; [auto|]. now apply IH.
Qed.

Lemma file_rel_cr new lines :
  Forall2 file_rel new lines ->
  py_in carriage_return (concat lines) = false ->
  py_in carriage_return (concat new) = false.
Proof.
  induction 1 as [|l' l new lines Hl _ IH]; [easy|].
  destruct Hl as (_ & _ & _ & _ & Hcr). simpl.
  rewrite !py_in_false, !in_app_iff. intros H [Hin|Hin].
  - assert (py_in carriage_return l' = false) as H'.
    { apply Hcr, py_in_false. tauto. }
    now apply py_in_false in H'.
  - assert (py_in carriage_return (concat new) = false) as H'.
    { apply IH, py_in_false. tauto. }
    now apply py_in_false in H'.
Qed.

(** X8. The file round trip: when every line of the template has at most
    one marker and every scanned name has an entry, the rewritten lines,
    written to a file and parsed again, are read back as they were written,
    with the field map of the template; they hold no carriage return when
    the template holds none. *)
Theorem modify_input_file_roundtrip
    (float_repr : float -> pystr)
    (float_repr_token : forall x, is_token (float_repr x) = true)
    (content : pystr) (combo : list value) (param_names : list pystr) :
  let lines := fst (parse_input_file content) in
  let param_map := snd (parse_input_file content) in
  Forall one_marker lines ->
  Forall (fun name => is_Some (param_map !! name)) param_names ->
  exists new,
    modify_input float_repr lines param_map combo param_names = Ok new /\
    parse_input_file (writelines new) = (new, param_map) /\
    (py_in carriage_return content = false ->
     py_in carriage_return (writelines new) = false).
Proof.
  unfold parse_input_file. simpl. intros Hone Hnames.
  set (lines := readlines content) in *.
  assert (Forall2 file_rel lines lines) as Hrel.
  { clear -Hone. induction Hone as [|l ls Hl _ IH]; constructor; [|easy].
    split; [apply line_rel_refl|]. split; [easy|]. split; [easy|]. split; easy. }
  destruct (modify_loop_file float_repr float_repr_token lines
              (zip param_names combo) lines Hrel) as (new & Hloop & Hfinal).
  { clear -Hnames. revert combo.
    induction Hnames as [|n ns Hn _ IH]; intros [|v combo]; simpl;
      constructor; auto. }
  exists new. split; [exact Hloop|].
  assert (readlines (concat lines) = lines) as Hread.
  { apply readlines_concat, readlines_file_lines. }
  split.
  - unfold writelines. rewrite readlines_concat.
    + f_equal. apply parse_lines_rel.
      eapply Forall2_impl; [exact Hfinal|]. now intros ? ? [H _].
    + eapply file_rel_lines; [exact Hfinal|]. apply readlines_file_lines.
  - intros Hcr. unfold writelines. apply (file_rel_cr new lines Hfinal).
    (* the text of the template is the concatenation of its lines *)
    assert (forall s, concat (readlines s) = s) as Hcat.
    { clear. induction s as [|c s IH]; [easy|]. simpl.
      destruct (Ascii.eqb c newline); simpl; [now rewrite IH|].
      destruct (readlines s) as [|l ls]; simpl in *; [now subst|].
      now rewrite <- IH. }
    unfold lines. now rewrite Hcat.
Qed.

Lemma modify_input_file_roundtrip_witness :
  Forall one_marker (fst (parse_input_file (concat ex_lines))) /\
  Forall (fun name => is_Some (snd (parse_input_file (concat ex_lines)) !! name))
    [lit "a"; lit "b"] /\
  exists new,
    modify_input float_show (fst (parse_input_file (concat ex_lines)))
      (snd (parse_input_file (concat ex_lines))) [VInt 12; VInt 20]
      [lit "a"; lit "b"] = Ok new /\
    parse_input_file (writelines new)
    = (new, snd (parse_input_file (concat ex_lines))) /\
    (py_in carriage_return (concat ex_lines) = false ->
     py_in carriage_return (writelines new) = false).
Proof.
  assert (Forall one_marker (fst (parse_input_file (concat ex_lines)))) as H1.
  { repeat constructor; vm_compute; lia. }
  assert (Forall (fun name =>
            is_Some (snd (parse_input_file (concat ex_lines)) !! name))
            [lit "a"; lit "b"]) as H2.
  { repeat constructor; vm_compute; eexists; reflexivity. }
  split; [exact H1|]. split; [exact H2|].
  exact (modify_input_file_roundtrip float_show float_show_token
           (concat ex_lines) [VInt 12; VInt 20] [lit "a"; lit "b"] H1 H2).
Defined.

(** ** The names of the field map *)

(** The names of a line are the stripped pieces of the comment: stripping
    the commas removes nothing. *)
Lemma line_names_pieces line name :
  In name (line_names line) ->
  exists piece,
    In piece (split_on comma (hd [] (split_on lparen (first_comment line)))) /\
    name = strip piece /\ name <> [].
Proof.
  unfold line_names, first_comment. intros (n & <- & Hn)%in_map_iff.
  apply list_elem_of_In, list_elem_of_filter in Hn as [Ht Hn].
  apply list_elem_of_In in Hn.
  assert (strip_comma (strip n) = strip n) as E.
  { apply strip_by_id. intros c Hc. apply Ascii.eqb_neq. intros <-.
    apply (strip_by_ends is_space n) in Hc.
    pose proof (split_on_pieces_free comma
      (hd [] (split_on lparen (nth 1 (split_on bang line) [])))) as Hfree.
    rewrite List.Forall_forall in Hfree. apply Hfree, py_in_false in Hn.
    easy. }
  exists n. rewrite E. split; [easy|]. split; [easy|].
  destruct (strip n); easy.
Qed.

(** X9. A name of the field map is a stripped piece of the comment of one
    of the lines: it is not empty, neither starts nor ends with whitespace,
    and holds no comma, no parenthesis and no marker. *)
Theorem field_map_names_clean (lines : list pystr) (name : pystr)
    (place : nat * nat) :
  parse_lines lines !! name = Some place ->
  (exists line piece,
     lines !! fst place = Some line /\
     In piece (split_on comma (hd [] (split_on lparen (first_comment line)))) /\
     name = strip piece) /\
  name <> [] /\
  (forall c rest, name = c :: rest -> is_space c = false) /\
  (forall c front, name = front ++ [c] -> is_space c = false) /\
  py_in comma name = false /\ py_in lparen name = false /\
  py_in bang name = false.
Proof.
  destruct place as [idx pos].
  intros [(line & Hl & _ & [Hname _]) _]%parse_lines_spec.
  apply list_elem_of_lookup_2, list_elem_of_In, line_names_pieces in Hname
    as (piece & Hpiece & -> & Hne).
  destruct (strip_by_ends is_space piece) as (Hhd & Hlast & Hsub).
  fold (strip piece) in *.
  split; [exists line, piece; easy|]. split; [easy|].
  split; [exact Hhd|]. split; [exact Hlast|].
  set (comment := hd [] (split_on lparen (first_comment line))) in *.
  assert (forall c, In c piece -> In c comment) as Hsub2.
  { intros c. now apply split_on_pieces_sub with (sep := comma). }
  assert (py_in lparen comment = false) as Hparen.
  { unfold comment.
    destruct (split_on_shape lparen (first_comment line)) as (p & ps & -> & Hp & _).
    exact Hp. }
  assert (py_in bang comment = false) as Hbang.
  { apply py_in_false. intros Hin.
    assert (In bang (first_comment line)) as Hin'.
    { unfold comment in Hin.
      destruct (split_on_cons lparen (first_comment line)) as (p & ps & E).
      apply (split_on_pieces_sub lparen _ p); [rewrite E; now left|].
      now rewrite E in Hin. }
    unfold first_comment in Hin'.
    pose proof (split_on_pieces_free bang line) as Hfree.
    rewrite List.Forall_forall in Hfree.
    destruct (nth_in_or_default 1 (split_on bang line) []) as [H|H].
    - apply Hfree, py_in_false in H. easy.
    - rewrite H in Hin'. easy. }
  split; [|split]; apply py_in_false; intros Hin; apply Hsub in Hin.
  - pose proof (split_on_pieces_free comma comment) as Hfree.
    rewrite List.Forall_forall in Hfree. apply Hfree, py_in_false in Hpiece.
    easy.
  - apply Hsub2 in Hin. now apply py_in_false in Hparen.
  - apply Hsub2 in Hin. now apply py_in_false in Hbang.
Qed.

Lemma field_map_names_clean_witness :
  parse_lines ex_lines !! lit "d" = Some (2%nat, 2%nat) /\
  (exists line piece,
     ex_lines !! 2%nat = Some line /\
     In piece (split_on comma (hd [] (split_on lparen (first_comment line)))) /\
     lit "d" = strip piece) /\
  lit "d" <> [] /\
  (forall c rest, lit "d" = c :: rest -> is_space c = false) /\
  (forall c front, lit "d" = front ++ [c] -> is_space c = false) /\
  py_in comma (lit "d") = false /\ py_in lparen (lit "d") = false /\
  py_in bang (lit "d") = false.
Proof.
  assert (parse_lines ex_lines !! lit "d" = Some (2%nat, 2%nat)) as H
    by (vm_compute; reflexivity).
  split; [exact H|].
  exact (field_map_names_clean ex_lines (lit "d") (2%nat, 2%nat) H).
Defined.

(** ** The task folders *)

(** [str] of an integer is made of digits and of the sign. *)
Lemma str_int_chars (P : ascii -> bool) n :
  forallb P (lit "0123456789-") = true -> forallb P (str_int n) = true.
Proof.
  intros HP. cbn [lit list_ascii_of_string forallb] in HP.
  repeat (apply andb_prop in HP as [? HP]).
  assert (forall d, forallb P (list_ascii_of_string (NilEmpty.string_of_uint d)) = true)
    as Hd.
  { induction d; cbn [NilEmpty.string_of_uint list_ascii_of_string forallb];
      rewrite ?IHd; try reflexivity; apply andb_true_intro; easy. }
  assert (forall d, forallb P (lit (NilZero.string_of_uint d)) = true) as Hu.
  { intros d. destruct d; try apply Hd.
    cbn. apply andb_true_intro. easy. }
  unfold str_int. destruct (Z.to_int n) as [d|d]; unfold NilZero.string_of_int.
  - apply Hu.
  - change (lit (String "-" (NilZero.string_of_uint d)))
      with ("-"%char :: lit (NilZero.string_of_uint d)).
    cbn [forallb]. apply andb_true_intro. split; [easy|apply Hu].
Qed.

Lemma str_int_no_underscore n : py_in underscore (str_int n) = false.
Proof.
  pose proof (str_int_chars (fun c => negb (Ascii.eqb underscore c)) n eq_refl) as H.
  apply py_in_false. intros Hin.
  rewrite forallb_forall in H. apply H in Hin.
  now rewrite Ascii.eqb_refl in Hin.
Qed.

(** [str] of an integer tells the integer. *)
Lemma str_int_inj a b : str_int a = str_int b -> a = b.
Proof.
  unfold str_int, lit. intros H.
  apply (f_equal string_of_list_ascii) in H.
  rewrite !string_of_list_ascii_of_string in H.
  apply (f_equal NilZero.int_of_string) in H.
  assert (forall n, NilZero.int_of_string (NilZero.string_of_int (Z.to_int n))
                    = Some (Z.to_int n)) as Hisi.
  { intros n. apply NilZero.isi; destruct n; simpl; try easy;
      intros [= E]; now apply DecimalPos.Unsigned.to_uint_nonnil in E. }
  rewrite !Hisi in H. injection H as H. now apply DecimalZ.to_int_inj.
Qed.

Section FolderFacts.

Variable float_repr : float -> pystr.

(** The folder name tells the number of the task. *)
Lemma folder_name_idx i j names names' c c' :
  folder_name float_repr i names c = folder_name float_repr j names' c' -> i = j.
Proof.
  unfold folder_name. intros H. apply app_inv_head in H.
  apply (f_equal (split_on underscore)) in H. simpl app in H.
  rewrite !split_on_app in H by apply str_int_no_underscore.
  injection H as H _. apply str_int_inj in H. lia.
Qed.

Variables (lines : list pystr) (pm : param_map) (names : list pystr) (submit : bool).

(** The loop over the tasks, numbered from [n]: the folders of the tasks
    made hold their rewritten input, the folder of a task whose rewriting
    raised holds the copy of the template, the other folders are as before,
    and [os.system] is called, when submission is asked for, once for each
    task made, in order. *)
Lemma materialize_loop_folders combos : forall n w,
  exists k, (k <= length combos)%nat /\
    (forall j c, (j < k)%nat -> combos !! j = Some c ->
       exists new, modify_input float_repr lines pm c names = Ok new /\
         task_inputs (fst (materialize_loop float_repr lines pm names submit w
                             (enumerate_from n combos)))
           !! folder_name float_repr (n + j) names c = Some new) /\
    (forall f,
       (forall j c, (j <= k)%nat -> combos !! j = Some c ->
          f <> folder_name float_repr (n + j) names c) ->
       task_inputs (fst (materialize_loop float_repr lines pm names submit w
                           (enumerate_from n combos))) !! f
       = task_inputs w !! f) /\
    system_calls (fst (materialize_loop float_repr lines pm names submit w
                         (enumerate_from n combos)))
    = system_calls w ++
      (if submit
       then map (fun ic => submit_command
                             (task_path (folder_name float_repr (fst ic) names (snd ic))))
                (take k (enumerate_from n combos))
       else []) /\
    match snd (materialize_loop float_repr lines pm names submit w
                 (enumerate_from n combos)) with
    | None => k = length combos
    | Some ex =>
        exists c, combos !! k = Some c /\
          modify_input float_repr lines pm c names = Raise ex /\
          task_inputs (fst (materialize_loop float_repr lines pm names submit w
                              (enumerate_from n combos)))
            !! folder_name float_repr (n + k) names c = Some lines
    end.
Proof.
  induction combos as [|c combos IH]; intros n w.
  - exists 0%nat. simpl. split; [lia|]. split; [intros j c Hj; lia|].
    split; [easy|]. split; [|easy]. destruct submit; now rewrite app_nil_r.
  - cbn [enumerate_from materialize_loop]. unfold materialize_task.
    cbn [fst snd].
    destruct (modify_input float_repr lines pm c names) as [new|ex] eqn:E.
    + match goal with |- context [materialize_loop _ _ _ _ _ ?w' _] =>
        set (w1 := w') end.
      destruct (IH (S n) w1) as (k & Hk & Hmade & Hframe & Hsub & Hend).
      set (run := materialize_loop float_repr lines pm names submit w1
                    (enumerate_from (S n) combos)) in *.
      exists (S k). split; [simpl; lia|]. split; [|split; [|split]].
      * intros [|j] c' Hj Hc'; simpl in Hc'.
        -- injection Hc' as <-. exists new. split; [easy|].
           rewrite Hframe.
           ++ unfold w1. simpl. rewrite Nat.add_0_r. apply lookup_insert_eq.
           ++ intros j c' _ _ Heq. apply folder_name_idx in Heq. lia.
        -- destruct (Hmade j c') as (new' & Hnew' & Hl); [lia|easy|].
           exists new'. split; [easy|]. now rewrite Nat.add_succ_r.
      * intros f Hf. rewrite Hframe.
        -- unfold w1. simpl.
           assert (folder_name float_repr n names c <> f) as Hne.
           { intros <-. apply (Hf 0%nat c); [lia|easy|]. now rewrite Nat.add_0_r. }
           now rewrite !lookup_insert_ne.
        -- intros j c' Hj Hc'. specialize (Hf (S j) c').
           rewrite Nat.add_succ_r in Hf. apply Hf; [lia|easy].
      * rewrite Hsub. unfold w1. simpl. destruct submit; [|easy].
        now rewrite <- app_assoc.
      * destruct (snd run) as [ex|]; [|now rewrite Hend].
        destruct Hend as (c' & Hc' & Hraise & Hl). exists c'.
        rewrite Nat.add_succ_r. easy.
    + exists 0%nat. simpl. split; [lia|]. split; [intros j c' Hj; lia|].
      rewrite Nat.add_0_r. split; [|split].
      * intros f Hf. apply lookup_insert_ne. intros <-.
        apply (Hf 0%nat c); [lia|easy|]. now rewrite Nat.add_0_r.
      * destruct submit; now rewrite app_nil_r.
      * exists c. split; [easy|]. split; [easy|]. apply lookup_insert_eq.
Qed.

End FolderFacts.

(** X10. The task folders of a run: the folder of every task made holds
    the input rewritten for its combination, whatever a folder of that name
    held before; the folder of a task whose rewriting raised holds the
    copy of the template; every other folder is left as it was; and with
    submission asked for, [os.system] is called once for each task made, in
    their order, with the command line [cd tasks/<folder> && sbatch V-3.sh
    && cd ..], in which the folder is not quoted (whether the shell then
    runs [sbatch] in that folder is not the program's).  Two tasks never
    share a folder. *)
Theorem task_folders
    (float_repr : float -> pystr) (lines : list pystr) (pm : param_map)
    (param_names : list pystr) (combos : list (list value)) (submit : bool)
    (w0 : world) :
  let run := materialize float_repr lines pm param_names combos submit w0 in
  (forall i j c c',
     folder_name float_repr i param_names c = folder_name float_repr j param_names c' ->
     i = j) /\
  exists k, (k <= length combos)%nat /\
    (forall j c, (j < k)%nat -> combos !! j = Some c ->
       exists new, modify_input float_repr lines pm c param_names = Ok new /\
         task_inputs (fst run) !! folder_name float_repr (S j) param_names c
         = Some new) /\
    (forall f,
       (forall j c, (j <= k)%nat -> combos !! j = Some c ->
          f <> folder_name float_repr (S j) param_names c) ->
       task_inputs (fst run) !! f = task_inputs w0 !! f) /\
    system_calls (fst run)
    = system_calls w0 ++
      (if submit
       then map (fun ic => lit "cd tasks/" ++
                           folder_name float_repr (fst ic) param_names (snd ic) ++
                           lit " && sbatch V-3.sh && cd ..")
                (take k (enumerate_from 1 combos))
       else []) /\
    match snd run with
    | None => k = length combos
    | Some ex =>
        exists c, combos !! k = Some c /\
          modify_input float_repr lines pm c param_names = Raise ex /\
          task_inputs (fst run) !! folder_name float_repr (S k) param_names c
          = Some lines
    end.
Proof.
  intros run. split.
  { intros i j c c'. apply folder_name_idx. }
  unfold materialize in run.
  match type of run with
  | _ => destruct (materialize_loop_folders float_repr lines pm param_names submit
           combos 1%nat
           {| task_inputs := task_inputs w0;
              manifest := [[lit "id"; lit "folder"] ++ param_names];
              system_calls := system_calls w0 |})
      as (k & Hk & Hmade & Hframe & Hsub & Hend)
  end.
  fold run in Hmade, Hframe, Hsub, Hend.
  exists k. split; [easy|]. split; [exact Hmade|]. split; [exact Hframe|].
  split; [exact Hsub|exact Hend].
Qed.

(** ** From the combinations to the tasks *)

(** X11. Lines 188-241 in sequence, for scanned names that all have an
    entry in the field map parsed from the template: when the generation
    returns, its names are the names of the specs, the symmetry filter does
    not raise and keeps a sublist of combinations that have one value per
    name, and the materialization of the kept combinations ends without
    exception, with one manifest row per kept combination after the
    header. *)
Theorem sweep_pipeline_completes
    (float_repr : float -> pystr)
    (float_repr_token : forall x, is_token (float_repr x) = true)
    (lines : list pystr) (fuel : nat) (scan_specs : list scan_spec)
    (param_names : list pystr) (combos : list (list value))
    (submit : bool) (w0 : world) :
  Forall (fun sp => is_Some (parse_lines lines !! sp_name sp)) scan_specs ->
  generate_param_combinations fuel scan_specs = Some (Ok (param_names, combos)) ->
  param_names = map sp_name scan_specs /\
  exists kept,
    symmetry_filter param_names combos = Ok kept /\
    sublist kept combos /\
    Forall (fun c => length c = length param_names) kept /\
    snd (materialize float_repr lines (parse_lines lines) param_names kept
           submit w0) = None /\
    length (manifest (fst (materialize float_repr lines (parse_lines lines)
                             param_names kept submit w0)))
    = S (length kept).
Proof.
  intros Hnames. unfold generate_param_combinations.
  destruct (expand_specs fuel scan_specs [] []) as [[[n l]|e]|] eqn:E; try easy.
  intros [= <- <-]. apply expand_specs_spec in E as (-> & vs & -> & Hvs).
  simpl. split; [easy|].
  assert (Forall (fun c => length c = length (map sp_name scan_specs)) (product vs))
    as Hwidth.
  { apply List.Forall_forall. intros c Hc. apply product_width in Hc.
    rewrite Hc, length_map. symmetry. eapply Forall2_length, Hvs. }
  assert (exists kept,
            symmetry_filter (map sp_name scan_specs) (product vs) = Ok kept /\
            sublist kept (product vs)) as (kept & Hkept & Hsub).
  { destruct (index_of asub1 (map sp_name scan_specs)) as [i1|] eqn:E1;
      [destruct (index_of asub2 (map sp_name scan_specs)) as [i2|] eqn:E2|].
    - exists (List.filter (keeps i1 i2) (product vs)).
      split; [now apply symmetry_filter_filter|].
      clear. induction (product vs) as [|c cs IH]; simpl; [constructor|].
      destruct (keeps i1 i2 c); now constructor.
    - exists (product vs). split; [|easy]. unfold symmetry_filter.
      apply name_in_false in E2. now rewrite E2, andb_false_r.
    - exists (product vs). split; [|easy]. unfold symmetry_filter.
      apply name_in_false in E1. now rewrite E1. }
  exists kept. split; [exact Hkept|]. split; [exact Hsub|].
  split.
  { clear -Hsub Hwidth. induction Hsub as [|c l1 l2 _ IH|c l1 l2 _ IH];
      [constructor| |]; inversion Hwidth; subst; [constructor|]; auto. }
  unfold materialize.
  match goal with |- context [materialize_loop _ _ _ _ _ ?w _] =>
    destruct (materialize_loop_rows float_repr lines (parse_lines lines)
                (map sp_name scan_specs) submit (enumerate_from 1 kept) w)
      as (k & Hk & Hrows & _ & Hend)
  end.
  match type of Hend with match ?s with _ => _ end =>
    destruct s as [ex|] eqn:Es end.
  - exfalso. destruct Hend as (ic & _ & Hraise).
    destruct (modify_loop_ok float_repr float_repr_token lines
                (zip (map sp_name scan_specs) (snd ic)) lines)
      as (final & Hfinal & _).
    + apply Forall2_same_length_lookup. split; [easy|].
      intros i a b H1 H2. assert (a = b) as -> by congruence.
      apply line_rel_refl.
    + apply zip_entries. now apply Forall_fmap.
    + unfold modify_input in Hraise. congruence.
  - split; [reflexivity|]. rewrite Hrows. simpl.
    rewrite length_map, length_take, Hend, enumerate_from_length. lia.
Qed.

Lemma sweep_pipeline_completes_witness :
  Forall (fun sp => is_Some (parse_lines e2e_lines !! sp_name sp)) e2e_specs /\
  generate_param_combinations 0 e2e_specs = Some (Ok (e2e_names, e2e_combos)) /\
  e2e_names = map sp_name e2e_specs /\
  exists kept,
    symmetry_filter e2e_names e2e_combos = Ok kept /\
    sublist kept e2e_combos /\
    Forall (fun c => length c = length e2e_names) kept /\
    snd (materialize float_show e2e_lines (parse_lines e2e_lines) e2e_names kept
           true empty_world) = None /\
    length (manifest (fst (materialize float_show e2e_lines (parse_lines e2e_lines)
                             e2e_names kept true empty_world)))
    = S (length kept).
Proof.
  assert (Forall (fun sp => is_Some (parse_lines e2e_lines !! sp_name sp)) e2e_specs)
    as H1.
  { repeat constructor; vm_compute; eexists; reflexivity. }
  assert (generate_param_combinations 0 e2e_specs
          = Some (Ok (e2e_names, e2e_combos))) as H2 by reflexivity.
  split; [exact H1|]. split; [exact H2|].
  exact (sweep_pipeline_completes float_show float_show_token e2e_lines 0
           e2e_specs e2e_names e2e_combos true empty_world H1 H2).
Defined.

(** ** Reading the folder names back *)

Lemma join_free c sep xs :
  py_in c sep = false -> Forall (fun x => py_in c x = false) xs ->
  py_in c (join sep xs) = false.
Proof.
  intros Hsep Hxs. apply py_in_false.
  intros [Hin|(x & Hx & Hin)]%join_chars.
  - now apply py_in_false in Hsep.
  - rewrite List.Forall_forall in Hxs. apply Hxs, py_in_false in Hx. easy.
Qed.

(** Joining [name_value] parts is joining the names and values. *)
Lemma join_spec_parts (nvs : list (pystr * pystr)) :
  join [underscore] (map (fun nv => fst nv ++ [underscore] ++ snd nv) nvs)
  = join [underscore] (flat_map (fun nv => [fst nv; snd nv]) nvs).
Proof.
  induction nvs as [|[n v] nvs IH]; [easy|].
  destruct nvs as [|nv nvs]; [easy|].
  change (join [underscore] (map (fun nv => fst nv ++ [underscore] ++ snd nv)
                               ((n, v) :: nv :: nvs)))
    with ((n ++ [underscore] ++ v) ++ [underscore] ++
          join [underscore] (map (fun nv => fst nv ++ [underscore] ++ snd nv)
                               (nv :: nvs))).
  rewrite IH. simpl. now rewrite <- !app_assoc.
Qed.

Lemma task_pairs_flat (nvs : list (pystr * pystr)) :
  task_pairs (flat_map (fun nv => [fst nv; snd nv]) nvs)
  = map (fun nv => fst nv ++ [equals] ++ snd nv) nvs.
Proof. induction nvs as [|[n v] nvs IH]; simpl; [easy|]. now rewrite IH. Qed.

Section FolderReading.

Variable float_repr : float -> pystr.

Lemma folder_name_split idx names combo :
  split_on underscore (folder_name float_repr idx names combo)
  = lit "task" :: str_int (Z.of_nat idx) ::
    split_on underscore
      (join [underscore]
         (map (fun nv : pystr * value =>
                 fst nv ++ [underscore] ++ sanitize float_repr (snd nv))
              (zip names combo))).
Proof.
  unfold folder_name.
  change (lit "task_") with (lit "task" ++ [underscore]).
  rewrite <- app_assoc. simpl app at 2.
  rewrite split_on_app by reflexivity. f_equal.
  simpl app. rewrite split_on_app by apply str_int_no_underscore. reflexivity.
Qed.

End FolderReading.

(** X12. [parse_task_info] gives back the number of the task for every
    folder name that the sweep makes, whatever the names and values; on an
    arbitrary folder name it raises exactly when the name holds no
    underscore, and then [IndexError]. *)
Theorem parse_task_info_task_id (float_repr : float -> pystr) :
  (forall idx names combo,
     exists param_str,
       parse_task_info (folder_name float_repr idx names combo)
       = Ok (str_int (Z.of_nat idx), param_str)) /\
  (forall s e,
     parse_task_info s = Raise e <->
     e = IndexError /\ py_in underscore s = false).
Proof.
  split.
  - intros idx names combo. unfold parse_task_info.
    rewrite folder_name_split. simpl. eauto.
  - intros s e. unfold parse_task_info.
    destruct (split_on_shape underscore s) as (p & ps & E & Hp & Hs).
    rewrite E. destruct Hs as [[-> ->]|(s' & -> & ->)].
    + simpl. split; [now intros [= <-]|now intros [-> _]].
    + destruct (split_on_cons underscore s') as (q & qs & ->). simpl.
      split; [easy|]. intros [_ H].
      rewrite py_in_app, py_in_cons, Ascii.eqb_refl, orb_true_r in H.
      discriminate H.
Qed.

(** X13. For scanned names without underscore (and a printer of floats
    that prints none), [parse_task_info] reads from the folder name of a
    task its number and its names and values, as [name=value] joined by
    semicolons. *)
Theorem parse_task_info_of_folder_name
    (float_repr : float -> pystr) (idx : nat)
    (param_names : list pystr) (combo : list value) :
  (forall x, py_in underscore (float_repr x) = false) ->
  Forall (fun n => py_in underscore n = false) param_names ->
  zip param_names combo <> [] ->
  parse_task_info (folder_name float_repr idx param_names combo)
  = Ok (str_int (Z.of_nat idx),
        join [semicolon]
          (map (fun nv => fst nv ++ [equals] ++ str_value float_repr (snd nv))
               (zip param_names combo))).
Proof.
  intros Hfloat Hnames Hne. unfold parse_task_info.
  rewrite folder_name_split.
  set (nvs := map (fun nv : pystr * value => (fst nv, str_value float_repr (snd nv)))
                  (zip param_names combo)).
  assert (map (fun nv : pystr * value =>
                 fst nv ++ [underscore] ++ sanitize float_repr (snd nv))
              (zip param_names combo)
          = map (fun nv => fst nv ++ [underscore] ++ snd nv) nvs) as ->.
  { unfold nvs. rewrite map_map. reflexivity. }
  assert (map (fun nv => fst nv ++ [equals] ++ str_value float_repr (snd nv))
              (zip param_names combo)
          = map (fun nv => fst nv ++ [equals] ++ snd nv) nvs) as ->.
  { unfold nvs. rewrite map_map. reflexivity. }
  rewrite join_spec_parts, split_on_join.
  - change (drop 2 (lit "task" :: str_int (Z.of_nat idx) ::
                    flat_map (fun nv => [fst nv; snd nv]) nvs))
      with (flat_map (fun nv : pystr * pystr => [fst nv; snd nv]) nvs).
    now rewrite task_pairs_flat.
  - destruct (zip param_names combo) as [|nv l]; [easy|]. unfold nvs. easy.
  - unfold nvs. clear nvs Hne. revert combo.
    induction Hnames as [|n ns Hn _ IH]; intros [|v combo]; simpl;
      try constructor; [easy|].
    constructor; [|apply IH].
    destruct v; simpl; [apply str_int_no_underscore|apply Hfloat].
Qed.

Lemma float_show_chars (P : ascii -> bool) x :
  forallb P (lit "0123456789-.pinfa") = true -> forallb P (float_show x) = true.
Proof.
  intros HP.
  assert (forall n, forallb P (str_int n) = true) as Hint.
  { intros n. apply str_int_chars.
    cbn [lit list_ascii_of_string forallb] in *.
    repeat (apply andb_prop in HP as [? HP]).
    repeat (apply andb_true_intro; split); easy. }
  cbn [lit list_ascii_of_string forallb] in HP.
  repeat (apply andb_prop in HP as [? HP]).
  destruct x as [[]|[]| |[] m e]; cbn [float_show];
    rewrite ?forallb_app, ?Hint; cbn;
    repeat (apply andb_true_intro; split); easy.
Qed.

Lemma float_show_no_underscore x : py_in underscore (float_show x) = false.
Proof.
  pose proof (float_show_chars (fun c => negb (Ascii.eqb underscore c)) x eq_refl) as H.
  apply py_in_false. intros Hin.
  rewrite forallb_forall in H. apply H in Hin.
  now rewrite Ascii.eqb_refl in Hin.
Qed.

Lemma parse_task_info_of_folder_name_witness :
  parse_task_info (folder_name float_show 2 e2e_names (ints [12; 20]))
  = Ok (str_int 2,
        join [semicolon]
          (map (fun nv => fst nv ++ [equals] ++ str_value float_show (snd nv))
               (zip e2e_names (ints [12; 20])))).
Proof.
  apply (parse_task_info_of_folder_name float_show 2 e2e_names (ints [12; 20])).
  - exact float_show_no_underscore.
  - repeat constructor.
  - discriminate.
Defined.

(** ** The summary files *)

Lemma task_pairs_free c params :
  c <> equals -> Forall (fun x => py_in c x = false) params ->
  Forall (fun x => py_in c x = false) (task_pairs params).
Proof.
  intros Hc.
  assert (py_in c [equals] = false) as Heq.
  { apply py_in_false. now intros [<-|[]]. }
  assert (forall l,
            (Forall (fun x => py_in c x = false) l ->
             Forall (fun x => py_in c x = false) (task_pairs l)) /\
            (forall a, Forall (fun x => py_in c x = false) (a :: l) ->
                       Forall (fun x => py_in c x = false) (task_pairs (a :: l))))
    as H; [|intros; now apply H].
  induction l as [|b l [IH1 IH2]].
  - split; [easy|]. intros a Ha. inversion Ha; subst. repeat constructor.
    now rewrite !py_in_app, Heq, orb_false_r.
  - split; [apply IH2|]. intros a Ha.
    inversion Ha as [|? ? Hfa Hb]; subst. inversion Hb as [|? ? Hfb Hl]; subst.
    cbn [task_pairs]. constructor; [|now apply IH1].
    now rewrite !py_in_app, Hfa, Heq, Hfb.
Qed.

Lemma str_int_no_comma n : py_in comma (str_int n) = false.
Proof.
  pose proof (str_int_chars (fun c => negb (Ascii.eqb comma c)) n eq_refl) as H.
  apply py_in_false. intros Hin.
  rewrite forallb_forall in H. apply H in Hin.
  now rewrite Ascii.eqb_refl in Hin.
Qed.

Section SummaryFacts.

Variable float_repr : float -> pystr.
Hypothesis float_repr_no_comma : forall x, py_in comma (float_repr x) = false.

Lemma folder_name_no_comma idx names combo :
  Forall (fun n => py_in comma n = false) names ->
  py_in comma (folder_name float_repr idx names combo) = false.
Proof.
  intros Hnames. unfold folder_name.
  rewrite !py_in_app, str_int_no_comma, join_free; [reflexivity|reflexivity|].
  revert combo. induction Hnames as [|n ns Hn _ IH]; intros [|v combo]; simpl;
    try constructor; [|apply IH].
  rewrite py_in_app, Hn. simpl.
  destruct v; simpl; [apply str_int_no_comma|apply float_repr_no_comma].
Qed.

(** Without comma in the folder name there is none in what
    [parse_task_info] reads from it. *)
Lemma parse_task_info_no_comma s task_id param_str :
  py_in comma s = false ->
  parse_task_info s = Ok (task_id, param_str) ->
  py_in comma task_id = false /\ py_in comma param_str = false.
Proof.
  intros Hs. unfold parse_task_info.
  assert (Forall (fun x => py_in comma x = false) (split_on underscore s)) as Hparts.
  { apply List.Forall_forall. intros x Hx. apply py_in_false. intros Hin.
    apply py_in_false in Hs. apply Hs.
    now apply (split_on_pieces_sub underscore s x). }
  destruct (split_on underscore s !! 1%nat) as [t|] eqn:E; [|easy].
  intros [= <- <-]. split.
  - rewrite List.Forall_forall in Hparts. apply Hparts.
    now apply list_elem_of_lookup_2, list_elem_of_In in E.
  - apply join_free; [reflexivity|]. apply task_pairs_free; [easy|].
    now apply Forall_drop.
Qed.

End SummaryFacts.

(** X14. The summary files.  [ensure_summary_setup] leaves the existing
    files as they are and starts the missing ones with the header line.
    For the folder of a task of the sweep whose names hold no comma (and a
    printer of floats that prints none), [summarize_plots] does not raise;
    it leaves the file of a plane without plot as it is, appends one line
    to the file of each plane with a plot, whose comma-separated fields are
    exactly the number of the task, the parameters read from the folder
    name, and the name of the copy; and it copies the plots in the order of
    the planes. *)
Theorem summary_rows
    (float_repr : float -> pystr) (has_plot : plane -> bool) (idx : nat)
    (param_names : list pystr) (combo : list value) (s : summary) :
  (forall x, py_in comma (float_repr x) = false) ->
  Forall (fun n => py_in comma n = false) param_names ->
  let folder := folder_name float_repr idx param_names combo in
  (forall p,
     summary_csv (ensure_summary_setup s) p
     = Some (default (lit "task_id,parameters,filename" ++ [newline])
               (summary_csv s p))) /\
  exists param_str s',
    parse_task_info folder = Ok (str_int (Z.of_nat idx), param_str) /\
    summarize_plots has_plot folder s = Ok s' /\
    (forall p,
       if has_plot p then
         exists row,
           summary_csv s' p = Some (default [] (summary_csv s p) ++ row) /\
           split_on comma row
           = [str_int (Z.of_nat idx); param_str; dst_name folder p ++ [newline]]
       else summary_csv s' p = summary_csv s p) /\
    copied_plots s'
    = copied_plots s ++
      map (fun p => (p, dst_name folder p)) (List.filter has_plot planes).
Proof.
  intros Hfloat Hnames folder. split.
  { intros p. unfold ensure_summary_setup, planes. cbn [fold_left].
    destruct (summary_csv s XY) eqn:E1, (summary_csv s XZ) eqn:E2,
      (summary_csv s YZ) eqn:E3; cbn [set_csv summary_csv];
      rewrite ?E1, ?E2, ?E3; cbn [set_csv summary_csv];
      rewrite ?E1, ?E2, ?E3; destruct p; cbn [set_csv summary_csv];
      rewrite ?E1, ?E2, ?E3; reflexivity. }
  pose proof (folder_name_no_comma float_repr Hfloat idx param_names combo Hnames)
    as Hfolder. fold folder in Hfolder.
  assert (exists param_str,
            parse_task_info folder = Ok (str_int (Z.of_nat idx), param_str))
    as [param_str Hinfo].
  { unfold parse_task_info, folder. rewrite folder_name_split. simpl. eauto. }
  destruct (parse_task_info_no_comma folder _ _ Hfolder Hinfo) as [Hid Hps].
  assert (forall p,
            split_on comma (summary_line (str_int (Z.of_nat idx)) param_str folder p)
            = [str_int (Z.of_nat idx); param_str; dst_name folder p ++ [newline]])
    as Hrow.
  { intros p. unfold summary_line.
    change ([comma] ++ param_str ++ [comma] ++ dst_name folder p ++ [newline])
      with (comma :: param_str ++ comma :: dst_name folder p ++ [newline]).
    rewrite !split_on_app by easy. rewrite split_on_absent; [reflexivity|].
    unfold dst_name. rewrite !py_in_app, Hfolder.
    destruct p; reflexivity. }
  exists param_str.
  unfold summarize_plots. rewrite Hinfo. cbn [mbind result_mbind result_bind fst snd].
  eexists. split; [reflexivity|]. split; [reflexivity|].
  unfold planes. cbn [fold_left List.filter map].
  split.
  - intros p.
    destruct (has_plot XY) eqn:E1, (has_plot XZ) eqn:E2, (has_plot YZ) eqn:E3;
      destruct p; rewrite ?E1, ?E2, ?E3; cbn [set_csv summary_csv];
      try reflexivity; eexists; (split; [reflexivity|apply Hrow]).
  - destruct (has_plot XY), (has_plot XZ), (has_plot YZ);
      cbn [set_csv copied_plots List.filter map];
      rewrite <- ?app_assoc, ?app_nil_r; reflexivity.
Qed.

Lemma float_show_no_comma x : py_in comma (float_show x) = false.
Proof.
  pose proof (float_show_chars (fun c => negb (Ascii.eqb comma c)) x eq_refl) as H.
  apply py_in_false. intros Hin.
  rewrite forallb_forall in H. apply H in Hin.
  now rewrite Ascii.eqb_refl in Hin.
Qed.

Lemma summary_rows_witness :
  (forall p,
     summary_csv (ensure_summary_setup no_summary) p
     = Some (default (lit "task_id,parameters,filename" ++ [newline])
               (summary_csv no_summary p))) /\
  exists param_str s',
    parse_task_info (folder_name float_show 2 e2e_names (ints [12; 20]))
    = Ok (str_int 2, param_str) /\
    summarize_plots ex_has_plot
      (folder_name float_show 2 e2e_names (ints [12; 20])) no_summary = Ok s' /\
    (forall p,
       if ex_has_plot p then
         exists row,
           summary_csv s' p = Some (default [] (summary_csv no_summary p) ++ row) /\
           split_on comma row
           = [str_int 2; param_str;
              dst_name (folder_name float_show 2 e2e_names (ints [12; 20])) p
              ++ [newline]]
       else summary_csv s' p = summary_csv no_summary p) /\
    copied_plots s'
    = copied_plots no_summary ++
      map (fun p => (p, dst_name (folder_name float_show 2 e2e_names
                                    (ints [12; 20])) p))
          (List.filter ex_has_plot planes).
Proof.
  apply (summary_rows float_show ex_has_plot 2 e2e_names (ints [12; 20]) no_summary).
  - exact float_show_no_comma.
  - repeat constructor.
Defined.

(** ** The choice of a parameter *)

Lemma str_leb_total a b : str_leb a b = true \/ str_leb b a = true.
Proof.
  revert b. induction a as [|c a IH]; intros [|d b]; simpl; auto.
  rewrite (Ascii.eqb_sym d c).
  destruct (Ascii.eqb c d) eqn:E; [apply IH|].
  rewrite !N.ltb_lt.
  destruct (N.lt_total (N_of_ascii c) (N_of_ascii d)) as [H|[H|H]]; auto.
  apply (f_equal ascii_of_N) in H. rewrite !ascii_N_embedding in H.
  apply Ascii.eqb_neq in E. easy.
Qed.

Lemma str_leb_trans a b c :
  str_leb a b = true -> str_leb b c = true -> str_leb a c = true.
Proof.
  revert b c. induction a as [|x a IH]; intros [|y b] [|z c]; simpl; try easy.
  destruct (Ascii.eqb x y) eqn:Exy.
  - apply Ascii.eqb_eq in Exy. subst y.
    destruct (Ascii.eqb x z); [apply IH|easy].
  - destruct (Ascii.eqb y z) eqn:Eyz.
    + apply Ascii.eqb_eq in Eyz. subst z. now rewrite Exy.
    + rewrite !N.ltb_lt. intros H1 H2.
      destruct (Ascii.eqb x z) eqn:Exz.
      * apply Ascii.eqb_eq in Exz. subst z. lia.
      * apply N.ltb_lt. lia.
Qed.

Lemma str_leb_antisym a b :
  str_leb a b = true -> str_leb b a = true -> a = b.
Proof.
  revert b. induction a as [|x a IH]; intros [|y b]; simpl; try easy.
  rewrite (Ascii.eqb_sym y x).
  destruct (Ascii.eqb x y) eqn:E.
  - apply Ascii.eqb_eq in E. subst y. intros H1 H2. f_equal. now apply IH.
  - rewrite !N.ltb_lt. lia.
Qed.

#[local] Instance str_le_total : Total str_le.
Proof. intros a b. apply str_leb_total. Qed.

#[local] Instance str_le_trans : Transitive str_le.
Proof. intros a b c. apply str_leb_trans. Qed.

Lemma sorted_names_elem pm name :
  In name (sorted_names pm) <-> is_Some (pm !! name).
Proof.
  unfold sorted_names. rewrite <- list_elem_of_In, merge_sort_Permutation.
  rewrite list_elem_of_fmap. split.
  - intros ([n v] & -> & H%elem_of_map_to_list). simpl. eauto.
  - intros [v H]. exists (name, v). split; [easy|]. now apply elem_of_map_to_list.
Qed.

(** X15. The names offered for choice are the names of the field map,
    each once, in the order of strings: every name is before the names
    that follow it in the list. *)
Theorem sorted_names_spec (pm : param_map) :
  (forall name, In name (sorted_names pm) <-> is_Some (pm !! name)) /\
  NoDup (sorted_names pm) /\
  (forall i j a b, (i < j)%nat ->
     sorted_names pm !! i = Some a -> sorted_names pm !! j = Some b ->
     str_le a b /\ a <> b).
Proof.
  split; [apply sorted_names_elem|].
  assert (NoDup (sorted_names pm)) as Hnd.
  { unfold sorted_names. rewrite merge_sort_Permutation.
    apply NoDup_fst_map_to_list. }
  split; [exact Hnd|].
  intros i j a b Hij Ha Hb. split.
  - pose proof (StronglySorted_merge_sort str_le (fst <$> map_to_list pm)) as Hs.
    fold (sorted_names pm) in Hs. clear Hnd. revert i j Hij Ha Hb.
    induction Hs as [|x l _ IH Hall]; intros i j Hij Ha Hb; [easy|].
    destruct i as [|i], j as [|j]; simpl in *; try lia.
    + injection Ha as <-. rewrite Forall_forall in Hall. apply Hall.
      now apply list_elem_of_lookup_2 in Hb.
    + apply (IH i j); [lia|easy|easy].
  - intros <-.
    pose proof (NoDup_lookup _ _ _ _ Hnd Ha Hb). lia.
Qed.

(** X16. The choice of a parameter: a name chosen is always a name of the
    field map; it is the [n]-th of the names offered when the choice is a
    string of digits that [int] reads as [n] between 1 and their number,
    even when the choice is itself a name of the map, and the choice
    itself otherwise; and the only exceptions are those of [int] on a
    string of digits. *)
Theorem select_param_sound
    (int_of_str : pystr -> result Z) (pm : param_map) (choice : pystr) :
  (forall name,
     select_param int_of_str pm choice = Ok (Some name) ->
     is_Some (pm !! name) /\
     ((exists n, isdigit choice = true /\ int_of_str choice = Ok n /\
                 1 <= n <= Z.of_nat (length (sorted_names pm)) /\
                 sorted_names pm !! Z.to_nat (n - 1) = Some name) \/
      (name = choice /\
       forall n, isdigit choice = true -> int_of_str choice = Ok n ->
                 ~ 1 <= n <= Z.of_nat (length (sorted_names pm))))) /\
  (forall e,
     select_param int_of_str pm choice = Raise e ->
     isdigit choice = true /\ int_of_str choice = Raise e).
Proof.
  unfold select_param.
  assert (forall name,
            match pm !! choice with Some _ => Some choice | None => None end
            = Some name -> is_Some (pm !! name) /\ name = choice) as Hby.
  { intros name. destruct (pm !! choice) eqn:E; [|easy].
    intros [= <-]. rewrite E. eauto. }
  destruct (isdigit choice) eqn:Hd.
  - destruct (int_of_str choice) as [n|e] eqn:Hn; simpl.
    + destruct ((1 <=? n) && (n <=? Z.of_nat (length (sorted_names pm)))) eqn:Hr.
      * apply andb_true_iff in Hr as [H1%Z.leb_le H2%Z.leb_le].
        destruct (lookup_lt_is_Some_2 (sorted_names pm) (Z.to_nat (n - 1)))
          as [name Hname]; [lia|].
        rewrite Hname. split; [|easy]. intros name' [= <-].
        split; [apply sorted_names_elem; now apply list_elem_of_lookup_2,
                  list_elem_of_In in Hname|].
        left. exists n. easy.
      * split; [|easy]. intros name [= H]. apply Hby in H as [H ->].
        split; [easy|]. right. split; [easy|].
        intros n' _ [= <-] [H1 H2].
        apply andb_false_iff in Hr as [Hr|Hr]; apply Z.leb_gt in Hr; lia.
    + split; [easy|]. now intros e' [= <-].
  - split; [|easy]. intros name [= H]. apply Hby in H as [H ->].
    split; [easy|]. right. split; [easy|]. intros n Hd'. discriminate Hd'.
Qed.

Lemma select_param_sound_witness :
  select_param decimal_value (parse_lines ex_lines) (lit "2") = Ok (Some (lit "b")) /\
  is_Some (parse_lines ex_lines !! lit "b") /\
  ((exists n, isdigit (lit "2") = true /\ decimal_value (lit "2") = Ok n /\
              1 <= n <= Z.of_nat (length (sorted_names (parse_lines ex_lines))) /\
              sorted_names (parse_lines ex_lines) !! Z.to_nat (n - 1)
              = Some (lit "b")) \/
   (lit "b" = lit "2" /\
    forall n, isdigit (lit "2") = true -> decimal_value (lit "2") = Ok n ->
              ~ 1 <= n <= Z.of_nat (length (sorted_names (parse_lines ex_lines))))).
Proof.
  assert (select_param decimal_value (parse_lines ex_lines) (lit "2")
          = Ok (Some (lit "b"))) as H by (vm_compute; reflexivity).
  split; [exact H|].
  exact (proj1 (select_param_sound decimal_value (parse_lines ex_lines) (lit "2"))
           (lit "b") H).
Defined.

(** ** The layout of the rewritten lines *)

Lemma rewrite_line_layout line pos s line' :
  annotated line = true -> is_token s = true ->
  rewrite_line line pos s = Ok line' -> normal_layout line'.
Proof.
  intros Hann Hs Hrw.
  assert (pos < length (line_values line))%nat as Hpos.
  { unfold rewrite_line in Hrw. fold (line_values line) in Hrw.
    destruct (pos <? length (line_values line))%nat eqn:E; [|easy].
    now apply Nat.ltb_lt. }
  destruct (rewrite_line_ok line pos s Hpos Hs)
    as (l2 & Hrw2 & _ & _ & Hv & Hc).
  assert (l2 = line') as -> by congruence.
  unfold normal_layout. rewrite Hv, Hc.
  unfold rewrite_line in Hrw. fold (line_values line) in Hrw.
  apply Nat.ltb_lt in Hpos. rewrite Hpos in Hrw. injection Hrw as <-.
  unfold annotated in Hann. apply andb_true_iff in Hann as [Hbang _].
  apply py_in_split in Hbang as (p & q & qs & E).
  unfold first_comment. rewrite E. reflexivity.
Qed.

Section LayoutFacts.

Variable float_repr : float -> pystr.
Hypothesis float_repr_token : forall x, is_token (float_repr x) = true.

(** The loop of [modify_input] leaves every line it rewrites, and every
    line that had the layout before, with the layout. *)
Lemma modify_loop_layout lines nvs : forall new final,
  Forall2 line_rel new lines ->
  modify_loop float_repr (parse_lines lines) new nvs = Ok final ->
  (forall i l, new !! i = Some l -> normal_layout l ->
     exists l', final !! i = Some l' /\ normal_layout l') /\
  (forall nv ln pos, In nv nvs -> parse_lines lines !! fst nv = Some (ln, pos) ->
     exists l', final !! ln = Some l' /\ normal_layout l').
Proof.
  induction nvs as [|[name v] nvs IH]; intros new final Hrel.
  - simpl. intros [= <-]. split; [eauto|easy].
  - simpl. destruct (modify_step float_repr (parse_lines lines) new (name, v))
      as [new'|e] eqn:Hstep; [|easy]. simpl. intros Hloop.
    unfold modify_step in Hstep. simpl in Hstep.
    destruct (parse_lines lines !! name) as [[ln pos]|] eqn:Hpm; [|easy].
    pose proof Hpm as [(l0 & Hl0 & Ha0 & _) _]%parse_lines_spec.
    destruct (modify_step_ok float_repr float_repr_token lines new name v ln pos
                Hrel Hpm) as (new2 & Hstep2 & Hrel' & _).
    destruct (Forall2_lookup_r _ _ _ _ _ Hrel Hl0) as (l' & Hl' & (Ha & _)).
    rewrite Hl' in Hstep.
    destruct (rewrite_line l' pos (str_value float_repr v)) as [line'|] eqn:Hrw;
      [|easy].
    simpl in Hstep. injection Hstep as <-.
    assert (normal_layout line') as Hnormal.
    { apply (rewrite_line_layout l' pos (str_value float_repr v));
        [congruence|now apply str_value_token|easy]. }
    assert (Forall2 line_rel (<[ln := line']> new) lines) as Hrel2.
    { unfold modify_step in Hstep2. simpl in Hstep2.
      rewrite Hpm, Hl', Hrw in Hstep2. simpl in Hstep2. congruence. }
    assert (ln < length new)%nat as Hlen by now apply lookup_lt_Some in Hl'.
    destruct (IH _ _ Hrel2 Hloop) as [Hkeep Hmade].
    split.
    + intros i l Hi Hl. destruct (decide (i = ln)) as [->|Hne].
      * apply (Hkeep ln line'); [now apply list_lookup_insert_eq|easy].
      * apply (Hkeep i l); [now rewrite list_lookup_insert_ne|easy].
    + intros nv ln2 pos2 [<-|Hin] Hnv.
      * simpl in Hnv. assert (ln2 = ln) as -> by congruence.
        apply (Hkeep ln line'); [now apply list_lookup_insert_eq|easy].
      * now apply (Hmade nv ln2 pos2).
Qed.

End LayoutFacts.

(** X17. The layout of the rewritten lines: with the field map parsed
    from the lines and every scanned name in it, each line that holds the
    place of a name paired with a value comes out as its fields separated
    by single blanks, one blank, the marker and the first comment of the
    template line; indentation and column alignment are not kept. *)
Theorem modify_input_layout
    (float_repr : float -> pystr)
    (float_repr_token : forall x, is_token (float_repr x) = true)
    (lines : list pystr) (combo : list value) (param_names : list pystr) :
  Forall (fun name => is_Some (parse_lines lines !! name)) param_names ->
  exists new,
    modify_input float_repr lines (parse_lines lines) combo param_names = Ok new /\
    forall k name ln pos line,
      param_names !! k = Some name -> (k < length combo)%nat ->
      parse_lines lines !! name = Some (ln, pos) ->
      lines !! ln = Some line ->
      exists fields,
        new !! ln
        = Some (join [space] fields ++ [space] ++ bang :: first_comment line) /\
        length fields = length (line_values line) /\
        forall pos', field new ln pos' = fields !! pos'.
Proof.
  intros Hnames. unfold modify_input.
  assert (Forall2 line_rel lines lines) as Hrel.
  { apply Forall2_same_length_lookup. split; [easy|].
    intros i l l' H1 H2. assert (l = l') as -> by congruence.
    apply line_rel_refl. }
  destruct (modify_loop_ok float_repr float_repr_token lines
              (zip param_names combo) lines Hrel (zip_entries _ _ _ Hnames))
    as (new & Hloop & Hrel' & _).
  exists new. split; [exact Hloop|].
  destruct (modify_loop_layout float_repr float_repr_token lines _ _ _ Hrel Hloop)
    as [_ Hmade].
  intros k name ln pos line Hk Hlen Hpm Hline.
  apply lookup_lt_is_Some in Hlen as [v Hv].
  destruct (Hmade (name, v) ln pos) as (l' & Hl' & Hnormal); [|easy|].
  { apply list_elem_of_In, list_elem_of_lookup. exists k.
    apply lookup_zip_with_Some. eauto. }
  destruct (Forall2_lookup_l _ _ _ _ _ Hrel' Hl') as (l0 & Hl0 & (_ & _ & Hvals & Hc)).
  assert (l0 = line) as -> by congruence.
  exists (line_values l'). split; [|split].
  - rewrite Hl'. f_equal. rewrite <- Hc. exact Hnormal.
  - exact Hvals.
  - intros pos'. unfold field. now rewrite Hl'.
Qed.

Lemma modify_input_layout_witness :
  Forall (fun name => is_Some (parse_lines ex_lines !! name)) [lit "c"] /\
  exists new,
    modify_input float_show ex_lines (parse_lines ex_lines) [VInt 3] [lit "c"]
    = Ok new /\
    forall k name ln pos line,
      [lit "c"] !! k = Some name -> (k < length [VInt 3])%nat ->
      parse_lines ex_lines !! name = Some (ln, pos) ->
      ex_lines !! ln = Some line ->
      exists fields,
        new !! ln
        = Some (join [space] fields ++ [space] ++ bang :: first_comment line) /\
        length fields = length (line_values line) /\
        forall pos', field new ln pos' = fields !! pos'.
Proof.
  assert (Forall (fun name => is_Some (parse_lines ex_lines !! name)) [lit "c"])
    as H.
  { repeat constructor; vm_compute; eexists; reflexivity. }
  split; [exact H|].
  exact (modify_input_layout float_show float_show_token ex_lines [VInt 3]
           [lit "c"] H).
Defined.

(** ** Rewriting twice *)

(** The last element of a list with a decidable property. *)
Lemma last_with {A} (P : A -> Prop) `{!forall x, Decision (P x)} (l : list A) :
  Exists P l ->
  exists k x, l !! k = Some x /\ P x /\
    forall k' x', (k < k')%nat -> l !! k' = Some x' -> ~ P x'.
Proof.
  induction l as [|y l IH]; [intros Hex; inversion Hex|]. intros Hex.
  destruct (decide (Exists P l)) as [Hl|Hl].
  - destruct (IH Hl) as (k & x & Hk & Hx & Hlast).
    exists (S k), x. split; [easy|]. split; [easy|].
    intros [|k'] x' Hlt Hk'; [lia|]. apply (Hlast k' x'); [lia|easy].
  - inversion Hex as [? ? Hy|]; subst; [|easy].
    exists 0%nat, y. split; [easy|]. split; [easy|].
    intros [|k'] x' Hlt Hk' Hx'; [lia|]. apply Hl. simpl in Hk'.
    apply List.Exists_exists. exists x'. split; [|easy].
    now apply list_elem_of_lookup_2, list_elem_of_In in Hk'.
Qed.

(** X18. Rewriting is idempotent: with the field map parsed from the
    lines and every scanned name in it, applying the same combination to
    the lines that [modify_input] returned gives these lines again. *)
Theorem modify_input_idempotent
    (float_repr : float -> pystr)
    (float_repr_token : forall x, is_token (float_repr x) = true)
    (lines : list pystr) (combo : list value) (param_names : list pystr) :
  Forall (fun name => is_Some (parse_lines lines !! name)) param_names ->
  exists new,
    modify_input float_repr lines (parse_lines lines) combo param_names = Ok new /\
    parse_lines new = parse_lines lines /\
    modify_input float_repr new (parse_lines new) combo param_names = Ok new.
Proof.
  intros Hnames. unfold modify_input.
  set (nvs := zip param_names combo).
  assert (Forall2 line_rel lines lines) as Hrel.
  { apply Forall2_same_length_lookup. split; [easy|].
    intros i l l' H1 H2. assert (l = l') as -> by congruence.
    apply line_rel_refl. }
  pose proof (zip_entries _ _ combo Hnames) as Hentries. fold nvs in Hentries.
  destruct (modify_loop_ok float_repr float_repr_token lines nvs lines Hrel Hentries)
    as (new & Hloop & Hrel1 & Hset1 & _ & _).
  destruct (modify_loop_layout float_repr float_repr_token lines _ _ _ Hrel Hloop)
    as [_ Hmade1].
  destruct (modify_loop_ok float_repr float_repr_token lines nvs new Hrel1 Hentries)
    as (final & Hloop2 & Hrel2 & Hset2 & Hframe2 & Hlines2).
  destruct (modify_loop_layout float_repr float_repr_token lines _ _ _ Hrel1 Hloop2)
    as [_ Hmade2].
  exists new. split; [exact Hloop|].
  rewrite (parse_lines_rel _ _ Hrel1). split; [reflexivity|].
  rewrite Hloop2. f_equal.
  (* every field of the second result is the field of the first *)
  assert (forall ln pos, field final ln pos = field new ln pos) as Hfields.
  { intros ln pos.
    destruct (decide (Exists (fun nv : pystr * value =>
                                parse_lines lines !! fst nv = Some (ln, pos)) nvs))
      as [Hex|Hno].
    - apply last_with in Hex as (k & [name v] & Hk & Hpm & Hlast); [|apply _].
      simpl in Hpm.
      assert (forall k' v', (k < k')%nat -> nvs !! k' <> Some (name, v')) as Hl.
      { intros k' v' Hlt Hk'. now apply (Hlast k' (name, v')). }
      rewrite (Hset1 k name v ln pos Hk Hl Hpm).
      apply (Hset2 k name v ln pos Hk Hl Hpm).
    - apply Hframe2. intros nv Hin Hpm. apply Hno.
      apply List.Exists_exists. eauto. }
  apply list_eq. intros i.
  destruct (decide (Exists (fun nv : pystr * value =>
                              fst <$> parse_lines lines !! fst nv = Some i) nvs))
    as [Hex|Hno].
  - apply List.Exists_exists in Hex as (nv & Hin & Hpm).
    destruct (parse_lines lines !! fst nv) as [[ln pos]|] eqn:E; [|easy].
    simpl in Hpm. injection Hpm as ->.
    destruct (Hmade1 nv i pos Hin E) as (l1 & Hl1 & Hn1).
    destruct (Hmade2 nv i pos Hin E) as (l2 & Hl2 & Hn2).
    rewrite Hl1, Hl2. f_equal.
    destruct (Forall2_lookup_l _ _ _ _ _ Hrel1 Hl1) as (l0 & Hl0 & (_ & _ & _ & Hc1)).
    destruct (Forall2_lookup_l _ _ _ _ _ Hrel2 Hl2) as (l0' & Hl0' & (_ & _ & _ & Hc2)).
    assert (l0' = l0) as -> by congruence.
    assert (line_values l2 = line_values l1) as Hv.
    { apply list_eq. intros pos'. specialize (Hfields i pos').
      unfold field in Hfields. now rewrite Hl1, Hl2 in Hfields. }
    rewrite Hn2, Hn1, Hv, Hc1, Hc2. reflexivity.
  - apply Hlines2. intros nv pos Hin Hpm. apply Hno.
    apply List.Exists_exists. exists nv. split; [easy|]. now rewrite Hpm.
Qed.

Lemma modify_input_idempotent_witness :
  Forall (fun name => is_Some (parse_lines ex_lines !! name)) [lit "a"; lit "d"] /\
  exists new,
    modify_input float_show ex_lines (parse_lines ex_lines) [VInt 4; VInt 5]
      [lit "a"; lit "d"] = Ok new /\
    parse_lines new = parse_lines ex_lines /\
    modify_input float_show new (parse_lines new) [VInt 4; VInt 5]
      [lit "a"; lit "d"] = Ok new.
Proof.
  assert (Forall (fun name => is_Some (parse_lines ex_lines !! name))
            [lit "a"; lit "d"]) as H.
  { repeat constructor; vm_compute; eexists; reflexivity. }
  split; [exact H|].
  exact (modify_input_idempotent float_show float_show_token ex_lines
           [VInt 4; VInt 5] [lit "a"; lit "d"] H).
Defined.
